(** * Performance-Evaluation: the trimmed-statistics engine and its callers

    A shallow embedding of the statistics code that every benchmark program
    of the repository carries ([calculate_statistics], [plot_times] /
    [plot_cycles]) and of the sign/verify sweep of
    [time-signverify-pq.c].

    The C type [double] is an interface ([Double]); its instance
    [binary64] is Rocq's primitive floats, that is IEEE 754 binary64 with
    round-to-nearest-even, which is what the compiled program computes.
    The C types [int] and [unsigned long long] are [Z]; the arithmetic on
    [int] is written without wrap-around, which is what C defines as long
    as no intermediate value leaves the range of [int]: the theorems that
    depend on it bound the operands by [INT_MAX]. *)

From Stdlib Require Import String.
From Stdlib Require Import ZArith QArith Bool List Lia Lqa.
From Stdlib Require Import Permutation Sorted.
From Stdlib Require Import Floats.
Import ListNotations.

Local Open Scope Z_scope.

(** ** The arithmetic of [double] *)

Class Double (D : Type) : Type := {
  d_zero : D;                      (* the literal 0.0 *)
  d_of_Z : Z -> D;                 (* conversion of an integer to double *)
  d_to_int : D -> Z;               (* conversion to int: truncation *)
  d_add : D -> D -> D;
  d_sub : D -> D -> D;
  d_mul : D -> D -> D;
  d_div : D -> D -> D;
  d_sqrt : D -> D;
  d_le : D -> D -> bool;           (* x <= y *)
  d_ge : D -> D -> bool;           (* x >= y *)
  d_gt : D -> D -> bool;           (* x > y *)
  IGNORE_PERCENTAGE : D;           (* #define IGNORE_PERCENTAGE 0.2 *)
  IQR_MULTIPLIER : D;              (* #define IQR_MULTIPLIER 1.5 *)
  d_lit_1_1 : D                    (* the literal 1.1 *)
}.

(** IEEE 754 binary64. *)
Module B64.

(** Correctly rounded conversion of an integer. *)
Definition of_Z (z : Z) : float :=
  SF2Prim (binary_normalize prec emax z 0 false).

(** Truncation toward zero of a finite double; the conversion of a NaN
    or of an infinity is undefined in C and is 0 here. *)
Definition to_int (x : float) : Z :=
  match Prim2SF x with
  | S754_finite s m e =>
      let v := Z.shiftl (Zpos m) e in if s then - v else v
  | _ => 0
  end.

(** The exact rational value of a finite double (0 for the others). *)
Definition to_Q (x : float) : Q :=
  match Prim2SF x with
  | S754_finite s m e =>
      let v := (inject_Z (Zpos m) * Qpower 2 e)%Q in
      if s then (- v)%Q else v
  | _ => 0%Q
  end.

End B64.

#[global] Instance binary64 : Double float := {
  d_zero := 0%float;
  d_of_Z := B64.of_Z;
  d_to_int := B64.to_int;
  d_add := PrimFloat.add;
  d_sub := PrimFloat.sub;
  d_mul := PrimFloat.mul;
  d_div := PrimFloat.div;
  d_sqrt := PrimFloat.sqrt;
  d_le := PrimFloat.leb;
  d_ge := fun x y => PrimFloat.leb y x;
  d_gt := fun x y => PrimFloat.ltb y x;
  IGNORE_PERCENTAGE := 0x1.999999999999ap-3%float;
  IQR_MULTIPLIER := 1.5%float;
  d_lit_1_1 := 0x1.199999999999ap+0%float
}.

(** ** Arrays and counting loops *)

Section Arrays.
Context {A : Type}.

(** [a[i]]; reading outside the array is undefined in C and gives the
    default [d] here. *)
Definition get (d : A) (a : list A) (i : Z) : A := nth (Z.to_nat i) a d.

Fixpoint set_nth (n : nat) (v : A) (a : list A) : list A :=
  match a, n with
  | [], _ => []
  | _ :: t, O => v :: t
  | x :: t, S k => x :: set_nth k v t
  end.

(** [a[i] = v]. *)
Definition set (a : list A) (i : Z) (v : A) : list A :=
  if i <? 0 then a else set_nth (Z.to_nat i) v a.
End Arrays.

(** The indices [lo, lo+1, ..., hi-1]. *)
Definition range (lo hi : Z) : list Z :=
  map (fun k => lo + Z.of_nat k) (seq 0 (Z.to_nat (hi - lo))).

(** [for (int i = lo; i < hi; i++) st = body i st;] *)
Definition for_loop {St : Type} (lo hi : Z) (body : Z -> St -> St) (st : St) : St :=
  fold_left (fun s i => body i s) (range lo hi) st.

(** ** The sort of [calculate_statistics] *)

Section Sort.
Context {A : Type} (gt : A -> A -> bool) (d : A).

(** The body of the inner loop:
    [if (a[i] > a[j]) { temp = a[i]; a[i] = a[j]; a[j] = temp; }] *)
Definition swap_if_greater (i j : Z) (a : list A) : list A :=
  if gt (get d a i) (get d a j) then
    let temp := get d a i in
    let a1 := set a i (get d a j) in
    set a1 j temp
  else a.

Definition sort_inner (num_runs i : Z) (a : list A) : list A :=
  for_loop (i + 1) num_runs (fun j => swap_if_greater i j) a.

Definition sort_array (num_runs : Z) (a : list A) : list A :=
  for_loop 0 (num_runs - 1) (fun i => sort_inner num_runs i) a.
End Sort.

(** ** Samples

    [calculate_statistics] exists in two versions that differ in the type
    of the samples only: [double times[]] and
    [unsigned long long cycles[]]. *)

Class Sample (D S : Type) : Type := {
  s_gt : S -> S -> bool;           (* the comparison of the sort *)
  s_double : S -> D;               (* the implicit conversion to double *)
  s_default : S
}.

Definition time_sample {D} (DD : Double D) : Sample D D := {|
  s_gt := d_gt; s_double := fun x => x; s_default := d_zero
|}.

Definition cycle_sample {D} (DD : Double D) : Sample D Z := {|
  s_gt := Z.gtb; s_double := d_of_Z; s_default := 0
|}.

(** ** calculate_statistics *)

(** The local variables of [calculate_statistics] when it returns; [mean]
    and [std_dev] are what it writes through its two pointers. *)
Record frame (D S : Type) : Type := {
  ignore_runs : Z;
  effective_runs : Z;
  sorted_times : list S;
  q1 : D;
  q3 : D;
  iqr : D;
  sum : D;
  valid_runs : Z;
  mean : D;
  sum_sq_diff : D;
  std_dev : D
}.
Arguments ignore_runs {D S} _.
Arguments effective_runs {D S} _.
Arguments sorted_times {D S} _.
Arguments q1 {D S} _.
Arguments q3 {D S} _.
Arguments iqr {D S} _.
Arguments sum {D S} _.
Arguments valid_runs {D S} _.
Arguments mean {D S} _.
Arguments sum_sq_diff {D S} _.
Arguments std_dev {D S} _.

Section Statistics.
Context {D S : Type} {DD : Double D} {SS : Sample D S}.

(** [num_runs * IGNORE_PERCENTAGE], converted to [int]. *)
Definition ignore_count (num_runs : Z) : Z :=
  d_to_int (d_mul (d_of_Z num_runs) IGNORE_PERCENTAGE).

(** [sorted_times[i] = times[i]] for every [i], then the two nested
    loops. *)
Definition sort_copy (times : list S) (num_runs : Z) : list S :=
  let copy :=
    for_loop 0 num_runs (fun i st => set st i (get s_default times i))
      (repeat s_default (Z.to_nat num_runs)) in
  sort_array s_gt s_default num_runs copy.

(** [ignore_runs + (effective_runs / 4)] and
    [ignore_runs + (3 * effective_runs / 4)] *)
Definition q1_index (ignore_runs effective_runs : Z) : Z :=
  ignore_runs + Z.quot effective_runs 4.
Definition q3_index (ignore_runs effective_runs : Z) : Z :=
  ignore_runs + Z.quot (3 * effective_runs) 4.

(** [x >= q1 - IQR_MULTIPLIER * iqr && x <= q3 + IQR_MULTIPLIER * iqr] *)
Definition in_band (q1 q3 iqr : D) (x : S) : bool :=
  d_ge (s_double x) (d_sub q1 (d_mul IQR_MULTIPLIER iqr))
  && d_le (s_double x) (d_add q3 (d_mul IQR_MULTIPLIER iqr)).

(** [for (int i = ignore_runs; i < num_runs - ignore_runs; i++)
      if (sorted_times[i] is in the band) st = step(sorted_times[i], st);] *)
Definition window_loop {St : Type} (sorted : list S) (num_runs ignore_runs : Z)
    (q1 q3 iqr : D) (step : S -> St -> St) (st : St) : St :=
  for_loop ignore_runs (num_runs - ignore_runs)
    (fun i st =>
       let x := get s_default sorted i in
       if in_band q1 q3 iqr x then step x st else st)
    st.

(** The function from the line "Calculate the IQR" on: it reads the
    sorted copy only, never [times]. *)
Definition statistics_of_sorted (sorted_times : list S) (num_runs : Z) : frame D S :=
  let ignore_runs := ignore_count num_runs in
  let effective_runs := num_runs - 2 * ignore_runs in
  let q1 := s_double (get s_default sorted_times (q1_index ignore_runs effective_runs)) in
  let q3 := s_double (get s_default sorted_times (q3_index ignore_runs effective_runs)) in
  let iqr := d_sub q3 q1 in
  let sum :=
    window_loop sorted_times num_runs ignore_runs q1 q3 iqr
      (fun x acc => d_add acc (s_double x)) d_zero in
  let valid_runs :=
    window_loop sorted_times num_runs ignore_runs q1 q3 iqr
      (fun _ n => n + 1) 0 in
  let mean := d_div sum (d_of_Z valid_runs) in
  let sum_sq_diff :=
    window_loop sorted_times num_runs ignore_runs q1 q3 iqr
      (fun x acc =>
         d_add acc (d_mul (d_sub (s_double x) mean) (d_sub (s_double x) mean)))
      d_zero in
  let std_dev := d_sqrt (d_div sum_sq_diff (d_of_Z valid_runs)) in
  {| ignore_runs := ignore_runs; effective_runs := effective_runs;
     sorted_times := sorted_times; q1 := q1; q3 := q3; iqr := iqr;
     sum := sum; valid_runs := valid_runs; mean := mean;
     sum_sq_diff := sum_sq_diff; std_dev := std_dev |}.

Definition calculate_statistics_frame (times : list S) (num_runs : Z) : frame D S :=
  statistics_of_sorted (sort_copy times num_runs) num_runs.

(** [void calculate_statistics(times, num_runs, double *mean, double *std_dev)] *)
Definition calculate_statistics (times : list S) (num_runs : Z) : D * D :=
  let f := calculate_statistics_frame times num_runs in (mean f, std_dev f).

End Statistics.

(** ** The window and the valid set

    The spec's names for what the three loops of [calculate_statistics]
    range over: the middle window [sorted[ignore .. N-ignore-1]] and, inside
    it, the values that pass the band test. *)

Section ValidSet.
Context {D S : Type} {DD : Double D} {SS : Sample D S}.

Definition window (sorted : list S) (num_runs ignore_runs : Z) : list S :=
  map (get s_default sorted) (range ignore_runs (num_runs - ignore_runs)).

Definition valid_set (f : frame D S) (num_runs : Z) : list D :=
  map s_double
    (filter (in_band (q1 f) (q3 f) (iqr f))
       (window (sorted_times f) num_runs (ignore_runs f))).

Definition d_min (x y : D) : D := if d_le x y then x else y.
Definition d_max (x y : D) : D := if d_le x y then y else x.

Definition list_min (l : list D) : D :=
  match l with [] => d_zero | x :: t => fold_left d_min t x end.
Definition list_max (l : list D) : D :=
  match l with [] => d_zero | x :: t => fold_left d_max t x end.

(** [min(validSet) <= mean <= max(validSet)] *)
Definition mean_within_valid_set (times : list S) (num_runs : Z) : bool :=
  let f := calculate_statistics_frame times num_runs in
  let vs := valid_set f num_runs in
  d_le (list_min vs) (mean f) && d_le (mean f) (list_max vs).

(** Mean and population standard deviation of a list of values, as the
    spec words them: sum / count, and the square root of the mean squared
    deviation. *)
Definition population_mean (l : list D) : D :=
  d_div (fold_left d_add l d_zero) (d_of_Z (Z.of_nat (length l))).

Definition population_std_dev (l : list D) : D :=
  let m := population_mean l in
  d_sqrt
    (d_div
       (fold_left (fun acc x => d_add acc (d_mul (d_sub x m) (d_sub x m))) l d_zero)
       (d_of_Z (Z.of_nat (length l)))).
End ValidSet.

(** ** The call, seen from the caller

    [calculate_statistics(times, num_runs, &mean, &std_dev)]: the callee
    reads the array and the count and writes the two doubles it is given
    the addresses of. *)

Record caller (D S : Type) : Type := {
  c_times : list S;
  c_num_runs : Z;
  c_mean : D;
  c_std_dev : D
}.
Arguments c_times {D S} _.
Arguments c_num_runs {D S} _.
Arguments c_mean {D S} _.
Arguments c_std_dev {D S} _.

Definition call_calculate_statistics {D S} {DD : Double D} {SS : Sample D S}
    (c : caller D S) : caller D S :=
  let '(m, s) := calculate_statistics (c_times c) (c_num_runs c) in
  {| c_times := c_times c; c_num_runs := c_num_runs c; c_mean := m; c_std_dev := s |}.

(** ** The charts *)

(** What a plot function hands to the plotting library. *)
Record chart (D : Type) : Type := {
  plsfnam : string;
  plenv_xmin : D;
  plenv_xmax : D;
  plenv_ymin : D;
  plenv_ymax : D;
  pllab_title : string;
  plline_n : Z;
  plline_x : list D;
  plline_y : list D
}.
Arguments plsfnam {D} _.
Arguments plenv_xmin {D} _.
Arguments plenv_xmax {D} _.
Arguments plenv_ymin {D} _.
Arguments plenv_ymax {D} _.
Arguments pllab_title {D} _.
Arguments plline_n {D} _.
Arguments plline_x {D} _.
Arguments plline_y {D} _.

(** [snprintf(filename, sizeof(filename), ...)] with [char filename[256]]. *)
Definition snprintf256 (s : string) : string := String.substring 0 255 s.

Section Plot.
Context {D : Type} {DD : Double D}.

(** [#define NUM_RUNS] (350, 60 or 50) or [#define NUM_ITERATIONS] (50). *)
Variable NUM_RUNS : Z.

(** The loop that fills [x] and [y]:
    [x[i - ignore_runs] = i + 1; y[i - ignore_runs] = v[i];] *)
Definition fill_xy (ignore_runs : Z) (v : Z -> D) : list D * list D :=
  let n := Z.to_nat (NUM_RUNS - 2 * ignore_runs) in
  for_loop ignore_runs (NUM_RUNS - ignore_runs)
    (fun i xy =>
       (set (fst xy) (i - ignore_runs) (d_of_Z (i + 1)),
        set (snd xy) (i - ignore_runs) (v i)))
    (repeat d_zero n, repeat d_zero n).

(** [plot_times] of time-keygen-nonpq.c. *)
Definition plot_times (times : list D) (algorithm : string) : chart D :=
  let filename := snprintf256 (algorithm ++ "_plot.svg")%string in
  let times_microseconds :=
    for_loop 0 NUM_RUNS
      (fun i a => set a i (d_mul (get d_zero times i) (d_of_Z 1000000)))
      (repeat d_zero (Z.to_nat NUM_RUNS)) in
  let ignore_runs := ignore_count NUM_RUNS in
  let max_time :=
    for_loop ignore_runs (NUM_RUNS - ignore_runs)
      (fun i max_time =>
         if d_gt (get d_zero times_microseconds i) max_time
         then get d_zero times_microseconds i else max_time)
      d_zero in
  let xy := fill_xy ignore_runs (get d_zero times_microseconds) in
  {| plsfnam := filename;
     plenv_xmin := d_of_Z (ignore_runs + 1);
     plenv_xmax := d_of_Z (NUM_RUNS - ignore_runs);
     plenv_ymin := d_of_Z 0;
     plenv_ymax := d_mul d_lit_1_1 max_time;
     pllab_title := algorithm;
     plline_n := NUM_RUNS - 2 * ignore_runs;
     plline_x := fst xy;
     plline_y := snd xy |}.

(** [plot_times] of time-signverify-pq.c: the file name and the title
    differ. *)
Definition plot_times_op (times : list D) (algorithm operation : string) : chart D :=
  let c := plot_times times algorithm in
  {| plsfnam := snprintf256 (algorithm ++ "_" ++ operation ++ "_plot.svg")%string;
     plenv_xmin := plenv_xmin c; plenv_xmax := plenv_xmax c;
     plenv_ymin := plenv_ymin c; plenv_ymax := plenv_ymax c;
     pllab_title := operation;
     plline_n := plline_n c; plline_x := plline_x c; plline_y := plline_y c |}.

(** [plot_cycles] of cycles-keygen_nonpq.c. *)
Definition plot_cycles (cycles : list Z) (curve operation : string) : chart D :=
  let filename := snprintf256 (curve ++ "_" ++ operation ++ "_plot.svg")%string in
  let ignore_runs := ignore_count NUM_RUNS in
  let max_cycles :=
    for_loop ignore_runs (NUM_RUNS - ignore_runs)
      (fun i max_cycles =>
         if get 0 cycles i >? max_cycles then get 0 cycles i else max_cycles)
      0 in
  let xy := fill_xy ignore_runs (fun i => d_of_Z (get 0 cycles i)) in
  {| plsfnam := filename;
     plenv_xmin := d_of_Z (ignore_runs + 1);
     plenv_xmax := d_of_Z (NUM_RUNS - ignore_runs);
     plenv_ymin := d_of_Z 0;
     plenv_ymax := d_mul d_lit_1_1 (d_of_Z max_cycles);
     pllab_title := operation;
     plline_n := NUM_RUNS - 2 * ignore_runs;
     plline_x := fst xy;
     plline_y := snd xy |}.
End Plot.

(** ** What [main] does with one sample array

    The end of the loop body of [main]: the call of [calculate_statistics],
    the figures printed, and the chart, drawn from the same array after the
    call.  [mean] and [std_dev] are not initialised before the call; they
    are 0.0 here. *)

Record report (D : Type) : Type := {
  r_mean : D;
  r_std_dev : D;
  r_std_dev_percentage : D;
  r_chart : chart D
}.
Arguments r_mean {D} _.
Arguments r_std_dev {D} _.
Arguments r_std_dev_percentage {D} _.
Arguments r_chart {D} _.

(** cycles-keygen_nonpq.c, from "Calculate statistics" to "Plot the
    cycles". *)
Definition report_cycles {D} {DD : Double D} (NUM_ITERATIONS : Z)
    (keygen_cycles : list Z) (curve : string) : report D :=
  let c := call_calculate_statistics (SS := cycle_sample DD)
             {| c_times := keygen_cycles; c_num_runs := NUM_ITERATIONS;
                c_mean := d_zero; c_std_dev := d_zero |} in
  let keygen_mean := c_mean c in
  let keygen_stddev := c_std_dev c in
  let keygen_stddev_percentage := d_mul (d_div keygen_stddev keygen_mean) (d_of_Z 100) in
  {| r_mean := keygen_mean; r_std_dev := keygen_stddev;
     r_std_dev_percentage := keygen_stddev_percentage;
     r_chart := plot_cycles NUM_ITERATIONS (c_times c) curve "keygen" |}.

(** time-keygen-nonpq.c, from the call of [calculate_statistics] to "Plot
    the times". *)
Definition report_times {D} {DD : Double D} (NUM_RUNS : Z)
    (times : list D) (plot_title : string) : report D :=
  let c := call_calculate_statistics (SS := time_sample DD)
             {| c_times := times; c_num_runs := NUM_RUNS;
                c_mean := d_zero; c_std_dev := d_zero |} in
  let mean := d_mul (c_mean c) (d_of_Z 1000000) in
  let std_dev := d_mul (c_std_dev c) (d_of_Z 1000000) in
  let std_dev_percentage := d_mul (d_div std_dev mean) (d_of_Z 100) in
  {| r_mean := mean; r_std_dev := std_dev;
     r_std_dev_percentage := std_dev_percentage;
     r_chart := plot_times NUM_RUNS (c_times c) plot_title |}.

(** ** The sign/verify sweep of time-signverify-pq.c

    The program from the loop "Sign XML file and verify signature using
    each algorithm" on.  What it does to the outside is a trace of events;
    [exit(EXIT_FAILURE)] ends the program where it is called. *)

Definition EXIT_FAILURE : Z := 1.

Inductive event (D : Type) : Type :=
| Sign (alg run : Z)               (* the provider signs, in sign_xml *)
| Verify (alg run : Z)             (* the provider verifies, in verify_signature *)
| Stderr (msg : string)            (* fprintf(stderr, ...) *)
| Summary (alg : Z)                (* the printf block of one algorithm *)
    (mean_sign std_dev_sign std_dev_percentage_sign : D)
    (mean_verify std_dev_verify std_dev_percentage_verify : D)
| Chart (alg : Z) (c : chart D).   (* one call of plot_times *)
Arguments Sign {D} _ _.
Arguments Verify {D} _ _.
Arguments Stderr {D} _.
Arguments Summary {D} _ _ _ _ _ _ _.
Arguments Chart {D} _ _.

Inductive outcome (A : Type) : Type :=
| Returned (a : A)
| Exited (status : Z).
Arguments Returned {A} _.
Arguments Exited {A} _.

(** A program: from the trace so far to an outcome and the trace then. *)
Definition prog (D A : Type) : Type :=
  list (event D) -> outcome A * list (event D).

Definition ret {D A} (a : A) : prog D A := fun tr => (Returned a, tr).

Definition bind {D A B} (m : prog D A) (k : A -> prog D B) : prog D B :=
  fun tr =>
    match m tr with
    | (Returned a, tr') => k a tr'
    | (Exited st, tr') => (Exited st, tr')
    end.

Definition emit {D} (e : event D) : prog D unit :=
  fun tr => (Returned tt, tr ++ [e]).

Definition exit {D A} (status : Z) : prog D A := fun tr => (Exited status, tr).

Notation "x <- m ;; k" := (bind m (fun x => k))
  (at level 61, m at next level, right associativity).
Notation "m ;;; k" := (bind m (fun _ => k))
  (at level 61, right associativity).

Fixpoint iterM {D St} (body : Z -> St -> prog D St) (l : list Z) (st : St) : prog D St :=
  match l with
  | [] => ret st
  | i :: t => st' <- body i st ;; iterM body t st'
  end.

(** [for (int i = lo; i < hi; i++)] around a body that may exit. *)
Definition for_loopM {D St} (lo hi : Z) (body : Z -> St -> prog D St) (st : St) : prog D St :=
  iterM body (range lo hi) st.

(** What the cryptography provider and the clock answer, for algorithm
    [i] and run [j]. *)
Record provider : Type := {
  EVP_SignFinal : Z -> Z -> Z;
  EVP_VerifyFinal : Z -> Z -> Z;
  sign_ticks : Z -> Z -> Z;        (* end_time - start_time in sign_xml *)
  verify_ticks : Z -> Z -> Z       (* end_time - start_time in verify_signature *)
}.

Definition newline : string := String (Ascii.ascii_of_nat 10) EmptyString.

Section SignVerify.
Context {D : Type} {DD : Double D}.

Variable NUM_RUNS : Z.            (* #define NUM_RUNS 350 *)
Variable CLOCKS_PER_SEC : Z.      (* from <time.h> *)
Variable algorithms : list string.
Variable P : provider.

Definition alg_name (i : Z) : string := get EmptyString algorithms i.

Definition sign_xml (i j : Z) : prog D D :=
  emit (Sign i j) ;;;
  if EVP_SignFinal P i j =? 0 then
    emit (Stderr ("Failed to sign the XML data" ++ newline)%string) ;;;
    exit EXIT_FAILURE
  else
    ret (d_div (d_of_Z (sign_ticks P i j)) (d_of_Z CLOCKS_PER_SEC)).

Definition verify_signature (i j : Z) : prog D D :=
  emit (Verify i j) ;;;
  let verify_result := EVP_VerifyFinal P i j in
  let time_taken := d_div (d_of_Z (verify_ticks P i j)) (d_of_Z CLOCKS_PER_SEC) in
  if negb (verify_result =? 1) then
    emit (Stderr ("Failed to verify the signature for algorithm "
                  ++ alg_name i ++ newline)%string) ;;;
    exit EXIT_FAILURE
  else
    ret time_taken.

(** The body of the loop over the algorithms. *)
Definition benchmark (i : Z) : prog D unit :=
  let SS := time_sample DD in
  let fresh := repeat d_zero (Z.to_nat NUM_RUNS) in
  arrays <- for_loopM 0 NUM_RUNS
    (fun j arrays =>
       s <- sign_xml i j ;;
       v <- verify_signature i j ;;
       ret (set (fst arrays) j s, set (snd arrays) j v))
    (fresh, fresh) ;;
  let sign_times := fst arrays in
  let verify_times := snd arrays in
  let '(mean_sign, std_dev_sign) := calculate_statistics sign_times NUM_RUNS in
  let '(mean_verify, std_dev_verify) := calculate_statistics verify_times NUM_RUNS in
  let mean_sign := d_mul mean_sign (d_of_Z 1000000) in
  let std_dev_sign := d_mul std_dev_sign (d_of_Z 1000000) in
  let mean_verify := d_mul mean_verify (d_of_Z 1000000) in
  let std_dev_verify := d_mul std_dev_verify (d_of_Z 1000000) in
  let std_dev_percentage_sign :=
    d_mul (d_div std_dev_sign mean_sign) (d_of_Z 100) in
  let std_dev_percentage_verify :=
    d_mul (d_div std_dev_verify mean_verify) (d_of_Z 100) in
  emit (Summary i mean_sign std_dev_sign std_dev_percentage_sign
          mean_verify std_dev_verify std_dev_percentage_verify) ;;;
  emit (Chart i (plot_times_op NUM_RUNS sign_times (alg_name i) "signing")) ;;;
  emit (Chart i (plot_times_op NUM_RUNS verify_times (alg_name i) "verifying")).

Definition main_sweep : prog D unit :=
  for_loopM 0 (Z.of_nat (length algorithms)) (fun i _ => benchmark i) tt.

End SignVerify.

(** The nine algorithms of [main]. *)
Definition pq_algorithms : list string :=
  ["dilithium2"; "dilithium3"; "dilithium5"; "falcon512"; "falcon1024";
   "sphincssha2128fsimple"; "sphincssha2128ssimple"; "sphincssha2192fsimple";
   "sphincsshake128fsimple"]%string.

(** The message of [verify_signature] for algorithm [a]. *)
Definition verify_failure_message (algorithms : list string) (a : Z) : string :=
  ("Failed to verify the signature for algorithm "
     ++ alg_name algorithms a ++ newline)%string.

(** A loop body that returns at index [i], adding events that satisfy
    [Q]. *)
Definition returns_with {D St} (body : Z -> St -> prog D St)
    (Q : event D -> Prop) (i : Z) : Prop :=
  forall st tr, exists st' evs,
    body i st tr = (Returned st', tr ++ evs) /\ Forall Q evs.

(** An event that belongs to the sweep before run [j] of algorithm [a]:
    a provider call of an earlier run, or the report of an earlier
    algorithm. *)
Definition before {D} (a j : Z) (e : event D) : Prop :=
  match e with
  | Sign i k | Verify i k => i < a \/ (i = a /\ k < j)
  | Summary i _ _ _ _ _ _ | Chart i _ => i < a
  | Stderr _ => False
  end.

(** The provider signs and verifies run [j] of algorithm [i] well. *)
Definition good_run (P : provider) (i j : Z) : Prop :=
  EVP_SignFinal P i j <> 0 /\ EVP_VerifyFinal P i j = 1.

(** A provider whose verification fails once, at run 2 of algorithm 1. *)
Definition failing_provider : provider := {|
  EVP_SignFinal := fun _ _ => 1;
  EVP_VerifyFinal := fun i j => if (i =? 1) && (j =? 2) then 0 else 1;
  sign_ticks := fun _ j => 100 + j;
  verify_ticks := fun _ j => 50 + j
|}.

(** ** The scenarios of the spec *)

(** The integers [lo], [lo+1], ... ([n] of them). *)
Definition ints (lo : Z) (n : nat) : list Z := map Z.of_nat (seq (Z.to_nat lo) n).

(** Scenario A: the samples 1..50, as doubles. *)
Definition scenario_A : list float := map B64.of_Z (ints 1 50).

(** Scenario B: scenario A with the value 26 (position 25) replaced by
    100000. *)
Definition scenario_B : list float :=
  map B64.of_Z (ints 1 25 ++ 100000 :: ints 27 24).

(** The two versions of [calculate_statistics] as compiled. *)
#[global] Instance b64_times : Sample float float := time_sample binary64.
#[global] Instance b64_cycles : Sample float Z := cycle_sample binary64.

(** ** binary64 as the Standard Library specifies it

    The primitive floats are specified by the functions of [SpecFloat] on
    [spec_float] ([FloatAxioms]).  What follows names the notions in which
    the rounding of these functions is stated: the integer that a mantissa
    is rounded to, and the order of the doubles as an order of integers. *)

(** A mantissa with nothing shifted out of it yet. *)
Definition exact_record (m : Z) : shr_record :=
  {| shr_m := m; shr_r := false; shr_s := false |}.

(** [X / 2^n] rounded to an integer. *)
Definition rne (X n : Z) : Z :=
  let q := X / 2 ^ n in
  let r := X mod 2 ^ n in
  if (2 ^ n <? 2 * r) || ((2 ^ n =? 2 * r) && Z.odd q) then q + 1 else q.

(** The value of a finite double in units of [2^-1074]. *)
Definition scaled (m : positive) (e : Z) : Z := Zpos m * 2 ^ (e + 1074).

(** The number of low bits that the rounding of [X] to 53 bits drops. *)
Definition dropped (X : positive) : Z := Z.max (Zpos (digits2_pos X) - 53) 0.

(** Above every finite double, in units of [2^-1074]. *)
Definition huge : Z := 2 ^ 2098.

(** A double as an integer that respects the order: a finite one is its
    value in units of [2^-1074], the infinities lie beyond. *)
Definition key (x : spec_float) : Z :=
  match x with
  | S754_zero _ | S754_nan => 0
  | S754_finite s m e => cond_Zopp s (scaled m e)
  | S754_infinity s => cond_Zopp s huge
  end.

Definition sf_finite (x : spec_float) : bool :=
  match x with S754_zero _ | S754_finite _ _ _ => true | _ => false end.

Definition sf_nan (x : spec_float) : bool :=
  match x with S754_nan => true | _ => false end.

(** [R] is a rounding of the number [v] (in units of [2^-1074]): every
    finite double below [v] is below [R], every one above is above. *)
Definition rounds_to (R : spec_float) (v : Z) : Prop :=
  sf_nan R = false /\
  forall A, valid_binary A = true -> sf_finite A = true ->
    (key A <= v -> key A <= key R) /\ (v <= key A -> key R <= key A).

Definition sf_nonneg (x : spec_float) : Prop := sf_nan x = false /\ 0 <= key x.

(** The integer that a positive integer is rounded to. *)
Definition rounded (X : positive) : Z := rne (Zpos X) (dropped X) * 2 ^ dropped X.

(** Neither a NaN nor an infinity. *)
Definition b64_finite (x : float) : bool := sf_finite (Prim2SF x).

(** The key of a double. *)
Definition b64_key (x : float) : Z := key (Prim2SF x).

(** A NaN. *)
Definition b64_nan (x : float) : bool := sf_nan (Prim2SF x).

Definition INT_MAX : Z := 2147483647.

(** ** The sweep, run by run *)

(** The message of [sign_xml]. *)
Definition sign_failure_message : string :=
  ("Failed to sign the XML data" ++ newline)%string.

Section SweepTrace.
Context {D : Type} {DD : Double D}.
Variable NUM_RUNS : Z.
Variable CLOCKS_PER_SEC : Z.
Variable algorithms : list string.
Variable P : provider.

(** The [NUM_RUNS] times that [ticks] measures, in seconds. *)
Definition measured (ticks : Z -> Z) : list D :=
  map (fun j => d_div (d_of_Z (ticks j)) (d_of_Z CLOCKS_PER_SEC)) (range 0 NUM_RUNS).

(** The provider calls of the runs of algorithm [i]. *)
Definition run_events (i : Z) : list (event D) :=
  flat_map (fun j => [Sign i j; Verify i j]) (range 0 NUM_RUNS).

(** What [main] prints and draws for algorithm [i] from its two arrays. *)
Definition report_events (i : Z) (sign_times verify_times : list D) : list (event D) :=
  let SS := time_sample DD in
  let '(mean_sign, std_dev_sign) := calculate_statistics sign_times NUM_RUNS in
  let '(mean_verify, std_dev_verify) := calculate_statistics verify_times NUM_RUNS in
  let mean_sign := d_mul mean_sign (d_of_Z 1000000) in
  let std_dev_sign := d_mul std_dev_sign (d_of_Z 1000000) in
  let mean_verify := d_mul mean_verify (d_of_Z 1000000) in
  let std_dev_verify := d_mul std_dev_verify (d_of_Z 1000000) in
  [Summary i mean_sign std_dev_sign
     (d_mul (d_div std_dev_sign mean_sign) (d_of_Z 100))
     mean_verify std_dev_verify
     (d_mul (d_div std_dev_verify mean_verify) (d_of_Z 100));
   Chart i (plot_times_op NUM_RUNS sign_times (alg_name algorithms i) "signing");
   Chart i (plot_times_op NUM_RUNS verify_times (alg_name algorithms i) "verifying")].

(** The trace of a sweep in which every provider call succeeds. *)
Definition sweep_trace : list (event D) :=
  flat_map
    (fun i => run_events i ++
              report_events i (measured (sign_ticks P i)) (measured (verify_ticks P i)))
    (range 0 (Z.of_nat (length algorithms))).
End SweepTrace.

(** ** generate_ecdh_key of cycles-keygen_nonpq.c *)

(** [struct timespec]; [time_t] and [long] have 64 bits. *)
Record timespec : Type := { tv_sec : Z; tv_nsec : Z }.

(** The value of an integer converted to [unsigned long long]. *)
Definition to_ull (z : Z) : Z := z mod 2 ^ 64.

(** [(end_time.tv_sec - start_time.tv_sec) * 1000000000ULL
      + (end_time.tv_nsec - start_time.tv_nsec)]: the first difference is
    converted to [unsigned long long] for the product, the second for the
    sum. *)
Definition elapsed_time_ns (start_time end_time : timespec) : Z :=
  to_ull (to_ull (to_ull (tv_sec end_time - tv_sec start_time) * 1000000000)
          + to_ull (tv_nsec end_time - tv_nsec start_time)).

(** [#define CPU_CLOCK_FREQUENCY 2.4e9] *)
Definition CPU_CLOCK_FREQUENCY {D} {DD : Double D} : D := d_of_Z 2400000000.

(** [unsigned long long cycles = elapsed_time_ns * CPU_CLOCK_FREQUENCY / 1e9;] *)
Definition cycles_of_ns {D} {DD : Double D} (elapsed_time_ns : Z) : Z :=
  d_to_int (d_div (d_mul (d_of_Z elapsed_time_ns) CPU_CLOCK_FREQUENCY)
              (d_of_Z 1000000000)).

(** The calls that [generate_ecdh_key] makes, in their order. *)
Inductive call : Type :=
| OBJ_sn2nid (curve_name : string)
| clock_gettime
| EVP_PKEY_CTX_new_id
| EVP_PKEY_keygen_init
| EVP_PKEY_CTX_set_ec_paramgen_curve_nid (curve_nid : Z)
| EVP_PKEY_keygen
| EVP_PKEY_CTX_free
| fprintf_stderr (msg : string).

(** What the library and the clock answer to one call of
    [generate_ecdh_key]. *)
Record openssl : Type := {
  sn2nid : string -> Z;
  ctx_is_null : bool;              (* EVP_PKEY_CTX_new_id returns NULL *)
  keygen_init_result : Z;
  set_curve_result : Z;
  keygen_result : Z;
  start_time : timespec;
  end_time : timespec
}.

Definition NID_undef : Z := 0.

(** Programs over any kind of event. *)
Definition io (E A : Type) : Type := list E -> outcome A * list E.

Definition io_ret {E A} (a : A) : io E A := fun tr => (Returned a, tr).

Definition io_bind {E A B} (m : io E A) (k : A -> io E B) : io E B :=
  fun tr =>
    match m tr with
    | (Returned a, tr') => k a tr'
    | (Exited st, tr') => (Exited st, tr')
    end.

Definition io_call {E} (e : E) : io E unit := fun tr => (Returned tt, tr ++ [e]).

Definition io_exit {E A} (status : Z) : io E A := fun tr => (Exited status, tr).

Notation "m ;> k" := (io_bind m (fun _ => k))
  (at level 61, right associativity).

(** [if (failed) { fprintf(stderr, msg); cleanup; exit(EXIT_FAILURE); }] *)
Definition fail_if (failed : bool) (msg : string) (cleanup : io call unit) : io call unit :=
  if failed then
    io_call (fprintf_stderr msg) ;> cleanup ;> io_exit EXIT_FAILURE
  else io_ret tt.

Definition generate_ecdh_key {D} {DD : Double D} (O : openssl) (curve_name : string)
    : io call Z :=
  io_call (OBJ_sn2nid curve_name) ;>
  let curve_nid := sn2nid O curve_name in
  fail_if (curve_nid =? NID_undef)
    ("Unknown curve name: " ++ curve_name ++ newline) (io_ret tt) ;>
  io_call clock_gettime ;>
  io_call EVP_PKEY_CTX_new_id ;>
  fail_if (ctx_is_null O)
    ("Failed to create EVP_PKEY_CTX for ECDH" ++ newline) (io_ret tt) ;>
  io_call EVP_PKEY_keygen_init ;>
  fail_if (keygen_init_result O <=? 0)
    ("Failed to initialize keygen for ECDH" ++ newline) (io_call EVP_PKEY_CTX_free) ;>
  io_call (EVP_PKEY_CTX_set_ec_paramgen_curve_nid curve_nid) ;>
  fail_if (set_curve_result O <=? 0)
    ("Failed to set curve name: " ++ curve_name ++ newline) (io_call EVP_PKEY_CTX_free) ;>
  io_call EVP_PKEY_keygen ;>
  fail_if (keygen_result O <=? 0)
    ("Failed to generate ECDH key pair for curve: " ++ curve_name ++ newline)
    (io_call EVP_PKEY_CTX_free) ;>
  io_call clock_gettime ;>
  let elapsed_time_ns := elapsed_time_ns (start_time O) (end_time O) in
  let cycles := cycles_of_ns elapsed_time_ns in
  io_call EVP_PKEY_CTX_free ;>
  io_ret cycles.

(** The calls of a trace that satisfy [p], counted. *)
Definition count_calls (p : call -> bool) (tr : list call) : nat :=
  length (filter p tr).

Definition is_ctx_free (c : call) : bool :=
  match c with EVP_PKEY_CTX_free => true | _ => false end.

Definition is_message (c : call) : bool :=
  match c with fprintf_stderr _ => true | _ => false end.

(** Every call of [generate_ecdh_key] succeeds. *)
Definition keygen_succeeds (O : openssl) (curve_name : string) : bool :=
  negb (sn2nid O curve_name =? NID_undef) && negb (ctx_is_null O)
  && (0 <? keygen_init_result O) && (0 <? set_curve_result O) && (0 <? keygen_result O).

(** ** Sample inputs *)

(** A provider whose every call succeeds. *)
Definition good_provider : provider := {|
  EVP_SignFinal := fun _ _ => 1;
  EVP_VerifyFinal := fun _ _ => 1;
  sign_ticks := fun _ j => 100 + j;
  verify_ticks := fun _ j => 50 + j
|}.

(** A provider whose signature fails once, at run 2 of algorithm 1. *)
Definition sign_failing_provider : provider := {|
  EVP_SignFinal := fun i j => if (i =? 1) && (j =? 2) then 0 else 1;
  EVP_VerifyFinal := fun _ _ => 1;
  sign_ticks := fun _ j => 100 + j;
  verify_ticks := fun _ j => 50 + j
|}.

(** Five times and five cycle counts, out of order. *)
Definition five_times : list float := [3; 1; 2; 5; 4]%float.
Definition five_cycles : list Z := [3; 1; 2; 5; 4].

(** ** Division, seen as a rounding *)

(** A location as the two bits below the last one. *)
Definition loc_code (l : location) : Z :=
  match l with
  | loc_Exact => 0
  | loc_Inexact Lt => 1
  | loc_Inexact Eq => 2
  | loc_Inexact Gt => 3
  end.

(** The double of sign [s] whose mantissa is the rounded integer [R], at
    most [2^53], at the exponent [E]. *)
Definition rounded_result (s : bool) (R E : Z) : spec_float :=
  match R with
  | Z0 => S754_zero s
  | Zpos m =>
      if Zpos m <? 2 ^ 53
      then (if E <=? 971 then S754_finite s m E else S754_infinity s)
      else (if E + 1 <=? 971 then S754_finite s 4503599627370496 (E + 1)
            else S754_infinity s)
  | Zneg _ => S754_nan
  end.

(** [R] is a rounding of the quotient [num / den] (in units of [2^-1074]):
    every finite double below the quotient is below [R], every one above is
    above. *)
Definition quotient_of (R : spec_float) (num den : Z) : Prop :=
  sf_nan R = false /\
  forall A, valid_binary A = true -> sf_finite A = true ->
    (key A * den <= num -> key A <= key R) /\ (num <= key A * den -> key R <= key A).

(** Every multiple [j * h], [0 <= j <= k], of the double [h] is a double:
    [h] has few enough significant bits, and [k * h] does not overflow. *)
Definition multiples_exact (k : Z) (h : float) : Prop :=
  forall j, 0 <= j <= k ->
    exists a : float, b64_finite a = true /\ b64_key a = j * b64_key h.

(** ** calculate_statistics in the memory of the program

    What a call can read besides its two arguments: the two doubles that
    [mean] and [std_dev] point to, which [main] declares without
    initialising them, and the stack cells in which the callee's array
    [double sorted_times[num_runs]] is placed, which hold whatever earlier
    calls left there.  The function body, statement by statement, on that
    memory. *)

Record memory (D S : Type) : Type := {
  m_times : list S;              (* the caller's array *)
  m_mean : D;                    (* the double behind [mean] *)
  m_std_dev : D;                 (* the double behind [std_dev] *)
  m_stack : list S               (* the [num_runs] cells of [sorted_times] *)
}.
Arguments m_times {D S} _.
Arguments m_mean {D S} _.
Arguments m_std_dev {D S} _.
Arguments m_stack {D S} _.

Section InMemory.
Context {D S : Type} {DD : Double D} {SS : Sample D S}.

(** [*mean = v;] *)
Definition store_mean (v : D) (m : memory D S) : memory D S :=
  {| m_times := m_times m; m_mean := v; m_std_dev := m_std_dev m;
     m_stack := m_stack m |}.

(** [*std_dev = v;] *)
Definition store_std_dev (v : D) (m : memory D S) : memory D S :=
  {| m_times := m_times m; m_mean := m_mean m; m_std_dev := v;
     m_stack := m_stack m |}.

(** The array [sorted_times] lives in the stack cells. *)
Definition store_sorted_times (a : list S) (m : memory D S) : memory D S :=
  {| m_times := m_times m; m_mean := m_mean m; m_std_dev := m_std_dev m;
     m_stack := a |}.

Definition calculate_statistics_in (num_runs : Z) (m : memory D S) : memory D S :=
  let sum := d_zero in
  let sum_sq_diff := d_zero in
  let ignore_runs := d_to_int (d_mul (d_of_Z num_runs) IGNORE_PERCENTAGE) in
  let effective_runs := num_runs - 2 * ignore_runs in
  (* double sorted_times[num_runs]; the cells keep what they held *)
  let m :=
    for_loop 0 num_runs
      (fun i m => store_sorted_times (set (m_stack m) i (get s_default (m_times m) i)) m)
      m in
  let m := store_sorted_times (sort_array s_gt s_default num_runs (m_stack m)) m in
  let q1 := s_double (get s_default (m_stack m) (ignore_runs + Z.quot effective_runs 4)) in
  let q3 :=
    s_double (get s_default (m_stack m) (ignore_runs + Z.quot (3 * effective_runs) 4)) in
  let iqr := d_sub q3 q1 in
  let sum :=
    window_loop (m_stack m) num_runs ignore_runs q1 q3 iqr
      (fun x acc => d_add acc (s_double x)) sum in
  let valid_runs :=
    window_loop (m_stack m) num_runs ignore_runs q1 q3 iqr (fun _ n => n + 1) 0 in
  let m := store_mean (d_div sum (d_of_Z valid_runs)) m in
  let sum_sq_diff :=
    window_loop (m_stack m) num_runs ignore_runs q1 q3 iqr
      (fun x acc =>
         d_add acc (d_mul (d_sub (s_double x) (m_mean m)) (d_sub (s_double x) (m_mean m))))
      sum_sq_diff in
  store_std_dev (d_sqrt (d_div sum_sq_diff (d_of_Z valid_runs))) m.

End InMemory.

(** * Proofs *)

(** ** Arrays and loops *)

Lemma range_nil (lo hi : Z) : hi <= lo -> range lo hi = [].
Proof.
  intros H. unfold range. replace (Z.to_nat (hi - lo)) with O by lia. reflexivity.
Qed.

Lemma range_cons (lo hi : Z) : lo < hi -> range lo hi = lo :: range (lo + 1) hi.
Proof.
  intros H. unfold range.
  replace (Z.to_nat (hi - lo)) with (S (Z.to_nat (hi - (lo + 1)))) by lia.
  cbn [seq map]. f_equal; [lia|].
  rewrite <- seq_shift, map_map. apply map_ext. intros k. lia.
Qed.

Lemma range_length (lo hi : Z) : length (range lo hi) = Z.to_nat (hi - lo).
Proof. unfold range. now rewrite length_map, length_seq. Qed.

Lemma in_range (lo hi i : Z) : In i (range lo hi) <-> lo <= i < hi.
Proof.
  unfold range. rewrite in_map_iff. split.
  - intros (k & <- & Hk). apply in_seq in Hk. lia.
  - intros H. exists (Z.to_nat (i - lo)). split; [lia|]. apply in_seq. lia.
Qed.

Lemma for_loop_nil {St} (lo hi : Z) (body : Z -> St -> St) st :
  hi <= lo -> for_loop lo hi body st = st.
Proof. intros H. unfold for_loop. now rewrite range_nil. Qed.

Lemma for_loop_cons {St} (lo hi : Z) (body : Z -> St -> St) st :
  lo < hi -> for_loop lo hi body st = for_loop (lo + 1) hi body (body lo st).
Proof. intros H. unfold for_loop. now rewrite range_cons. Qed.

(** The invariant rule of a counting loop. *)
Lemma for_loop_inv {St} (Inv : Z -> St -> Prop) (lo hi : Z) body st :
  lo <= hi ->
  Inv lo st ->
  (forall i s, lo <= i < hi -> Inv i s -> Inv (i + 1) (body i s)) ->
  Inv hi (for_loop lo hi body st).
Proof.
  intros Hle. remember (Z.to_nat (hi - lo)) as n eqn:Hn.
  revert lo st Hle Hn. induction n as [|n IH]; intros lo st Hle Hn H0 Hstep.
  - assert (lo = hi) by lia. subst. now rewrite for_loop_nil by lia.
  - rewrite for_loop_cons by lia. apply IH; try lia.
    + apply Hstep; [lia|assumption].
    + intros i s Hi. apply Hstep. lia.
Qed.

(** Two loops over the same indices, run side by side. *)
Lemma for_loop_rel {St1 St2} (R : St1 -> St2 -> Prop) (lo hi : Z) body1 body2 st1 st2 :
  R st1 st2 ->
  (forall i s1 s2, lo <= i < hi -> R s1 s2 -> R (body1 i s1) (body2 i s2)) ->
  R (for_loop lo hi body1 st1) (for_loop lo hi body2 st2).
Proof.
  unfold for_loop. intros H0 Hstep.
  assert (Hin : forall i, In i (range lo hi) -> lo <= i < hi) by (intros; now apply in_range).
  revert st1 st2 H0. induction (range lo hi) as [|i l IH]; intros st1 st2 H0; cbn.
  - assumption.
  - apply IH.
    + intros j Hj. apply Hin. now right.
    + apply Hstep; [apply Hin; now left | assumption].
Qed.

Section ArrayFacts.
Context {A : Type}.
Implicit Types (a : list A) (v d : A).

Lemma set_nth_length n v a : length (set_nth n v a) = length a.
Proof. revert n; induction a as [|x t IH]; intros [|n]; cbn; auto. Qed.

Lemma set_length a i v : length (set a i v) = length a.
Proof. unfold set. destruct (i <? 0); [reflexivity | apply set_nth_length]. Qed.

Lemma nth_set_nth_eq n v a d : (n < length a)%nat -> nth n (set_nth n v a) d = v.
Proof.
  revert n; induction a as [|x t IH]; intros [|n] H; cbn in *; try lia; auto.
  apply IH. lia.
Qed.

Lemma nth_set_nth_ne n m v a d : n <> m -> nth m (set_nth n v a) d = nth m a d.
Proof.
  revert n m; induction a as [|x t IH]; intros [|n] [|m] H; cbn; auto; try congruence.
Qed.

Lemma get_set_eq a i v d :
  0 <= i < Z.of_nat (length a) -> get d (set a i v) i = v.
Proof.
  intros H. unfold get, set. destruct (Z.ltb_spec i 0); [lia|].
  apply nth_set_nth_eq. lia.
Qed.

Lemma get_set_ne a i j v d :
  0 <= i -> 0 <= j -> i <> j -> get d (set a i v) j = get d a j.
Proof.
  intros Hi Hj H. unfold get, set. destruct (Z.ltb_spec i 0); [lia|].
  apply nth_set_nth_ne. lia.
Qed.

Lemma get_in a i d : 0 <= i < Z.of_nat (length a) -> In (get d a i) a.
Proof. intros H. unfold get. apply nth_In. lia. Qed.

(** An array is determined by its length and its elements. *)
Lemma array_ext a b d :
  length a = length b ->
  (forall i, 0 <= i < Z.of_nat (length a) -> get d a i = get d b i) ->
  a = b.
Proof.
  intros Hlen H. apply nth_ext with (d := d) (d' := d); [assumption|].
  intros n Hn. specialize (H (Z.of_nat n)). unfold get in H.
  rewrite Nat2Z.id in H. apply H. lia.
Qed.

Lemma map_get_range a d :
  map (get d a) (range 0 (Z.of_nat (length a))) = a.
Proof.
  apply nth_ext with (d := d) (d' := d).
  - rewrite length_map, range_length. lia.
  - intros n Hn. rewrite length_map, range_length in Hn.
    unfold range. rewrite map_map.
    set (f := fun k : nat => get d a (0 + Z.of_nat k)).
    rewrite nth_indep with (d' := f O) by (rewrite length_map, length_seq; lia).
    rewrite map_nth. rewrite seq_nth by lia. unfold f, get. f_equal. lia.
Qed.

Lemma set_nth_swap_head n x a d :
  (n < length a)%nat -> Permutation (nth n a d :: set_nth n x a) (x :: a).
Proof.
  revert n; induction a as [|y t IH]; intros [|n] H; cbn in *; try lia.
  - apply perm_swap.
  - rewrite perm_swap. rewrite (perm_swap y x t). apply perm_skip. apply IH. lia.
Qed.

Lemma set_nth_swap_perm i j a d :
  (i < j < length a)%nat ->
  Permutation (set_nth j (nth i a d) (set_nth i (nth j a d) a)) a.
Proof.
  revert i j; induction a as [|x t IH]; intros i j H; cbn in H; [lia|].
  destruct j as [|j]; [lia|]. destruct i as [|i]; cbn.
  - apply set_nth_swap_head. lia.
  - apply perm_skip. apply IH. lia.
Qed.
End ArrayFacts.

Lemma get_map {A B} (f : A -> B) (dA : A) (dB : B) a i :
  0 <= i < Z.of_nat (length a) -> get dB (map f a) i = f (get dA a i).
Proof.
  intros H. unfold get. rewrite nth_indep with (d' := f dA) by (rewrite length_map; lia).
  apply map_nth.
Qed.

Lemma set_nth_map {A B} (f : A -> B) n v a :
  set_nth n (f v) (map f a) = map f (set_nth n v a).
Proof. revert n; induction a as [|x t IH]; intros [|n]; cbn; auto. now rewrite IH. Qed.

Lemma set_map {A B} (f : A -> B) a i v : set (map f a) i (f v) = map f (set a i v).
Proof. unfold set. destruct (i <? 0); [reflexivity | apply set_nth_map]. Qed.

(** ** The sort *)

Section SortFacts.
Context {A : Type} (gt : A -> A -> bool) (d : A).

Lemma swap_length i j a : length (swap_if_greater gt d i j a) = length a.
Proof.
  unfold swap_if_greater. destruct (gt _ _); [|reflexivity].
  cbv zeta. now rewrite !set_length.
Qed.

Lemma swap_perm i j a :
  0 <= i < j -> j < Z.of_nat (length a) ->
  Permutation (swap_if_greater gt d i j a) a.
Proof.
  intros Hi Hj. unfold swap_if_greater. destruct (gt _ _); [|reflexivity].
  cbv zeta. unfold set, get.
  destruct (Z.ltb_spec i 0); [lia|]. destruct (Z.ltb_spec j 0); [lia|].
  apply set_nth_swap_perm. lia.
Qed.

(** The array after an exchange of [a[i]] and [a[j]]. *)
Lemma get_swapped i j a k :
  0 <= i < j -> j < Z.of_nat (length a) -> 0 <= k ->
  get d (set (set a i (get d a j)) j (get d a i)) k =
    if k =? j then get d a i else if k =? i then get d a j else get d a k.
Proof.
  intros Hi Hj Hk.
  destruct (Z.eqb_spec k j) as [->|Hkj].
  - apply get_set_eq. rewrite set_length. lia.
  - rewrite get_set_ne by lia.
    destruct (Z.eqb_spec k i) as [->|Hki].
    + apply get_set_eq. lia.
    + apply get_set_ne; lia.
Qed.

Lemma sort_inner_length n i a : length (sort_inner gt d n i a) = length a.
Proof.
  unfold sort_inner.
  apply (for_loop_rel (fun b (_ : unit) => length b = length a) (i + 1) n
           (fun j => swap_if_greater gt d i j) (fun _ u => u) a tt).
  - reflexivity.
  - intros j b _ _ Hb. now rewrite swap_length.
Qed.

Lemma sort_array_length n a : length (sort_array gt d n a) = length a.
Proof.
  unfold sort_array.
  apply (for_loop_rel (fun b (_ : unit) => length b = length a) 0 (n - 1)
           (fun i => sort_inner gt d n i) (fun _ u => u) a tt).
  - reflexivity.
  - intros j b _ _ Hb. now rewrite sort_inner_length.
Qed.

Lemma sort_inner_perm n i a :
  Z.of_nat (length a) = n -> 0 <= i ->
  Permutation (sort_inner gt d n i a) a.
Proof.
  intros Hn Hi. unfold sort_inner.
  apply (for_loop_rel
           (fun b (_ : unit) => length b = length a /\ Permutation b a) (i + 1) n
           (fun j => swap_if_greater gt d i j) (fun _ u => u) a tt).
  - split; reflexivity.
  - intros j b _ Hj [Hl Hp]. split.
    + now rewrite swap_length.
    + rewrite swap_perm; [assumption | lia | lia].
Qed.

Lemma sort_array_perm n a :
  Z.of_nat (length a) = n -> Permutation (sort_array gt d n a) a.
Proof.
  intros Hn. unfold sort_array.
  apply (for_loop_rel
           (fun b (_ : unit) => length b = length a /\ Permutation b a) 0 (n - 1)
           (fun i => sort_inner gt d n i) (fun _ u => u) a tt).
  - split; reflexivity.
  - intros i b _ Hi [Hl Hp]. split.
    + now rewrite sort_inner_length.
    + rewrite sort_inner_perm; [assumption | lia | lia].
Qed.

(** The comparison is that of a total preorder. *)
Hypothesis gt_asym : forall x y, gt x y = true -> gt y x = false.
Hypothesis le_trans : forall x y z, gt x y = false -> gt y z = false -> gt x z = false.

(** One pass of the inner loop brings a least element of [a[i..]] to
    position [i] and leaves [a[0..i-1]] alone. *)
Lemma sort_inner_spec n i a :
  Z.of_nat (length a) = n -> 0 <= i < n ->
  let b := sort_inner gt d n i a in
  (forall p, 0 <= p < i -> get d b p = get d a p) /\
  (forall q, i < q < n -> gt (get d b i) (get d b q) = false) /\
  (forall q, i <= q < n -> exists q', i <= q' < n /\ get d b q = get d a q').
Proof.
  intros Hn Hi b. subst b. unfold sort_inner.
  pose (Inv := fun (j : Z) (b : list A) =>
    length b = length a /\
    (forall p, 0 <= p < i -> get d b p = get d a p) /\
    (forall q, i < q < j -> gt (get d b i) (get d b q) = false) /\
    (forall q, i <= q < n -> exists q', i <= q' < n /\ get d b q = get d a q')).
  assert (H : Inv n (for_loop (i + 1) n (fun j => swap_if_greater gt d i j) a)).
  { apply for_loop_inv; [lia | |].
    - unfold Inv. repeat split; auto; intros; try lia. eauto.
    - intros j b Hj (Hl & Hpre & Hmin & Hfrom). unfold Inv.
      unfold swap_if_greater. destruct (gt (get d b i) (get d b j)) eqn:E.
      + cbv zeta. assert (Hg := fun k => get_swapped i j b k ltac:(lia) ltac:(lia)).
        repeat split.
        * now rewrite !set_length.
        * intros p Hp. rewrite Hg by lia.
          destruct (Z.eqb_spec p j); [lia|]. destruct (Z.eqb_spec p i); [lia|].
          apply Hpre. lia.
        * intros q Hq. rewrite !Hg by lia. rewrite Z.eqb_refl.
          destruct (Z.eqb_spec i j); [lia|].
          destruct (Z.eqb_spec q j) as [->|Hqj]; [now apply gt_asym|].
          destruct (Z.eqb_spec q i); [lia|].
          apply le_trans with (y := get d b i); [now apply gt_asym | apply Hmin; lia].
        * intros q Hq. rewrite Hg by lia.
          destruct (Z.eqb_spec q j); [apply Hfrom; lia|].
          destruct (Z.eqb_spec q i); apply Hfrom; lia.
      + repeat split; auto.
        intros q Hq. destruct (Z.eq_dec q j) as [->|]; [assumption | apply Hmin; lia]. }
  destruct H as (_ & H1 & H2 & H3). auto.
Qed.

(** The result of the two loops is in ascending order. *)
Lemma sort_array_sorted n a :
  Z.of_nat (length a) = n ->
  forall p q, 0 <= p < q -> q < n ->
    gt (get d (sort_array gt d n a) p) (get d (sort_array gt d n a) q) = false.
Proof.
  intros Hn. unfold sort_array.
  pose (Inv := fun (i : Z) (b : list A) =>
    length b = length a /\
    forall p q, 0 <= p < i -> p < q < n -> gt (get d b p) (get d b q) = false).
  destruct (Z_le_gt_dec n 1) as [Hsmall|Hbig].
  { intros p q Hp Hq. lia. }
  assert (H : Inv (n - 1) (for_loop 0 (n - 1) (fun i => sort_inner gt d n i) a)).
  { apply for_loop_inv; [lia | |].
    - split; [reflexivity | intros; lia].
    - intros i b Hi (Hl & Hs).
      destruct (sort_inner_spec n i b ltac:(lia) ltac:(lia)) as (Hpre & Hmin & Hfrom).
      split; [now rewrite sort_inner_length|].
      intros p q Hp Hq. destruct (Z.eq_dec p i) as [->|Hpi].
      + apply Hmin. lia.
      + rewrite Hpre by lia.
        destruct (Z_lt_ge_dec q i) as [Hqi|Hqi].
        * rewrite Hpre by lia. apply Hs; lia.
        * destruct (Hfrom q ltac:(lia)) as (q' & Hq' & ->). apply Hs; lia. }
  destruct H as (_ & H). intros p q Hp Hq. apply H; lia.
Qed.
End SortFacts.

(** The sort commutes with a map that respects the comparisons. *)
Lemma sort_array_map {A B} (f : A -> B) gtA gtB (dA : A) (dB : B) n a :
  Z.of_nat (length a) = n ->
  (forall x y, In x a -> In y a -> gtB (f x) (f y) = gtA x y) ->
  sort_array gtB dB n (map f a) = map f (sort_array gtA dA n a).
Proof.
  intros Hn Hf. unfold sort_array.
  pose (R := fun (b' : list B) (b : list A) =>
    b' = map f b /\ length b = length a /\ Permutation b a).
  assert (H : R (for_loop 0 (n - 1) (fun i => sort_inner gtB dB n i) (map f a))
                (for_loop 0 (n - 1) (fun i => sort_inner gtA dA n i) a)).
  { apply for_loop_rel; [repeat split; reflexivity|].
    intros i b' b Hi (-> & Hl & Hp). unfold sort_inner.
    assert (H : R (for_loop (i + 1) n (fun j => swap_if_greater gtB dB i j) (map f b))
                  (for_loop (i + 1) n (fun j => swap_if_greater gtA dA i j) b)).
    { apply for_loop_rel; [repeat split; assumption|].
      intros j c' c Hj (-> & Hlc & Hpc). repeat split.
      - unfold swap_if_greater.
        rewrite !(get_map f dA dB) by lia.
        rewrite Hf by (apply (Permutation_in _ Hpc), get_in; lia).
        destruct (gtA _ _); [|reflexivity]. cbv zeta.
        now rewrite !set_map.
      - now rewrite swap_length.
      - rewrite swap_perm; [assumption | lia | lia]. }
    exact H. }
  destruct H as (H & _). exact H.
Qed.

(** ** The loops of calculate_statistics *)

Section StatisticsFacts.
Context {D S : Type} {DD : Double D} {SS : Sample D S}.

(** When the caller passes an array of [num_runs] elements, the copy is
    the array. *)
Lemma copy_loop times num_runs :
  Z.of_nat (length times) = num_runs ->
  for_loop 0 num_runs (fun i st => set st i (get s_default times i))
    (repeat s_default (Z.to_nat num_runs)) = times.
Proof.
  intros Hn.
  pose (Inv := fun (i : Z) (st : list S) =>
    length st = length times /\
    forall k, 0 <= k < i -> get s_default st k = get s_default times k).
  assert (H : Inv num_runs
                (for_loop 0 num_runs (fun i st => set st i (get s_default times i))
                   (repeat s_default (Z.to_nat num_runs)))).
  { apply for_loop_inv; [lia | |].
    - split; [rewrite repeat_length; lia | intros; lia].
    - intros i st Hi (Hl & Hk). split; [now rewrite set_length|].
      intros k Hk'. destruct (Z.eq_dec k i) as [->|Hne].
      + apply get_set_eq. lia.
      + rewrite get_set_ne by lia. apply Hk. lia. }
  destruct H as (Hl & Hk). apply array_ext with (d := s_default); [assumption|].
  intros i Hi. apply Hk. lia.
Qed.

Lemma sort_copy_eq times num_runs :
  Z.of_nat (length times) = num_runs ->
  sort_copy times num_runs = sort_array s_gt s_default num_runs times.
Proof. intros H. unfold sort_copy. cbv zeta. now rewrite copy_loop. Qed.

(** Each of the three loops folds its step over the values of the window
    that pass the band test. *)
Lemma window_loop_filter {St} sorted num_runs ignore_runs q1 q3 iqr
    (step : S -> St -> St) st :
  window_loop sorted num_runs ignore_runs q1 q3 iqr step st =
  fold_left (fun st x => step x st)
    (filter (in_band q1 q3 iqr) (window sorted num_runs ignore_runs)) st.
Proof.
  unfold window_loop, window, for_loop.
  revert st. induction (range ignore_runs (num_runs - ignore_runs)) as [|i l IH];
    intros st; cbn; [reflexivity|].
  destruct (in_band q1 q3 iqr (get s_default sorted i)); cbn; apply IH.
Qed.

Lemma fold_count {X} (l : list X) (n : Z) :
  fold_left (fun n _ => n + 1) l n = n + Z.of_nat (length l).
Proof.
  revert n; induction l as [|x t IH]; intros n; cbn [fold_left length]; [lia|].
  rewrite IH. lia.
Qed.

Lemma fold_map {X Y St} (g : X -> Y) (h : St -> Y -> St) (l : list X) st :
  fold_left (fun st x => h st (g x)) l st = fold_left h (map g l) st.
Proof. revert st; induction l; intros; cbn; auto. Qed.

Variable times : list S.
Variable num_runs : Z.
Let f := calculate_statistics_frame times num_runs.

Lemma ignore_runs_eq : ignore_runs f = ignore_count num_runs.
Proof. reflexivity. Qed.

Lemma effective_runs_eq : effective_runs f = num_runs - 2 * ignore_count num_runs.
Proof. reflexivity. Qed.

Lemma sorted_times_eq : sorted_times f = sort_copy times num_runs.
Proof. reflexivity. Qed.

Lemma q1_eq :
  q1 f = s_double (get s_default (sort_copy times num_runs)
                     (q1_index (ignore_count num_runs) (num_runs - 2 * ignore_count num_runs))).
Proof. reflexivity. Qed.

Lemma q3_eq :
  q3 f = s_double (get s_default (sort_copy times num_runs)
                     (q3_index (ignore_count num_runs) (num_runs - 2 * ignore_count num_runs))).
Proof. reflexivity. Qed.

Lemma iqr_eq : iqr f = d_sub (q3 f) (q1 f).
Proof. reflexivity. Qed.

Lemma valid_runs_eq : valid_runs f = Z.of_nat (length (valid_set f num_runs)).
Proof.
  unfold f, calculate_statistics_frame, statistics_of_sorted, valid_set. cbn.
  rewrite window_loop_filter, fold_count, length_map. lia.
Qed.

Lemma sum_eq : sum f = fold_left d_add (valid_set f num_runs) d_zero.
Proof.
  unfold f, calculate_statistics_frame, statistics_of_sorted, valid_set. cbn.
  rewrite window_loop_filter. apply fold_map.
Qed.

Lemma mean_eq : mean f = d_div (sum f) (d_of_Z (valid_runs f)).
Proof. reflexivity. Qed.

Lemma sum_sq_diff_eq :
  sum_sq_diff f =
  fold_left (fun acc x => d_add acc (d_mul (d_sub x (mean f)) (d_sub x (mean f))))
    (valid_set f num_runs) d_zero.
Proof.
  unfold f, calculate_statistics_frame, statistics_of_sorted, valid_set. cbn.
  rewrite window_loop_filter.
  apply (fold_map s_double (fun acc x => d_add acc (d_mul (d_sub x _) (d_sub x _)))).
Qed.

Lemma std_dev_eq : std_dev f = d_sqrt (d_div (sum_sq_diff f) (d_of_Z (valid_runs f))).
Proof. reflexivity. Qed.

(** Mean and standard deviation are those of the valid set. *)
Lemma mean_population : mean f = population_mean (valid_set f num_runs).
Proof. rewrite mean_eq, sum_eq, valid_runs_eq. reflexivity. Qed.

Lemma std_dev_population : std_dev f = population_std_dev (valid_set f num_runs).
Proof.
  rewrite std_dev_eq, sum_sq_diff_eq. unfold population_std_dev. cbv zeta.
  rewrite <- mean_population, <- valid_runs_eq. reflexivity.
Qed.
End StatisticsFacts.

(** ** Sorted arrays of integers *)

Lemma Zgtb_asym (x y : Z) : (x >? y) = true -> (y >? x) = false.
Proof. rewrite !Z.gtb_ltb. intros H. apply Z.ltb_lt in H. apply Z.ltb_ge. lia. Qed.

Lemma Zgtb_le_trans (x y z : Z) :
  (x >? y) = false -> (y >? z) = false -> (x >? z) = false.
Proof. rewrite !Z.gtb_ltb, !Z.ltb_ge. lia. Qed.

(** From positions to the inductive definition. *)
Lemma index_sorted_strongly {A} (gt : A -> A -> bool) (d : A) (a : list A) :
  (forall p q, 0 <= p < q -> q < Z.of_nat (length a) ->
     gt (get d a p) (get d a q) = false) ->
  StronglySorted (fun x y => gt x y = false) a.
Proof.
  induction a as [|x t IH]; intros H; constructor.
  - apply IH. intros p q Hp Hq.
    specialize (H (p + 1) (q + 1) ltac:(lia) ltac:(cbn [length]; lia)).
    unfold get in *. replace (Z.to_nat (p + 1)) with (S (Z.to_nat p)) in H by lia.
    replace (Z.to_nat (q + 1)) with (S (Z.to_nat q)) in H by lia. exact H.
  - apply Forall_forall. intros y Hy.
    destruct (In_nth _ _ d Hy) as (k & Hk & <-).
    specialize (H 0 (Z.of_nat (S k)) ltac:(lia) ltac:(cbn [length]; lia)).
    unfold get in H. rewrite Nat2Z.id in H. exact H.
Qed.

(** Two ascending arrangements of the same integers are equal. *)
Lemma sorted_perm_unique (l1 l2 : list Z) :
  StronglySorted Z.le l1 -> StronglySorted Z.le l2 -> Permutation l1 l2 -> l1 = l2.
Proof.
  intros H1. revert l2. induction H1 as [|x t Ht IH Hx]; intros l2 H2 Hp.
  - now apply Permutation_nil in Hp.
  - destruct H2 as [|y u Hu Hy].
    + apply Permutation_sym, Permutation_nil in Hp. discriminate.
    + assert (x = y).
      { assert (Hin1 : In y (x :: t)) by (apply (Permutation_in _ (Permutation_sym Hp)); now left).
        assert (Hin2 : In x (y :: u)) by (apply (Permutation_in _ Hp); now left).
        rewrite Forall_forall in Hx, Hy.
        destruct Hin1 as [|Hin1]; [congruence|]. destruct Hin2 as [|Hin2]; [congruence|].
        specialize (Hx _ Hin1). specialize (Hy _ Hin2). lia. }
      subst y. f_equal. apply IH; [assumption|]. now apply Permutation_cons_inv in Hp.
Qed.

Lemma sort_array_Z_sorted (n : Z) (a : list Z) :
  Z.of_nat (length a) = n -> StronglySorted Z.le (sort_array Z.gtb 0 n a).
Proof.
  intros Hn.
  assert (H := index_sorted_strongly Z.gtb 0 (sort_array Z.gtb 0 n a)).
  rewrite sort_array_length in H.
  specialize (H (fun p q Hp Hq =>
    sort_array_sorted Z.gtb 0 Zgtb_asym Zgtb_le_trans n a Hn p q Hp ltac:(lia))).
  eapply StronglySorted_ind with (P := StronglySorted Z.le); [constructor | | exact H].
  intros x l _ IH Hx. constructor; [assumption|].
  eapply Forall_impl; [|exact Hx]. cbv beta. intros y Hy.
  rewrite Z.gtb_ltb, Z.ltb_ge in Hy. exact Hy.
Qed.

(** The sort of the integer version returns the ascending arrangement. *)
Lemma sort_array_Z_unique (L a : list Z) :
  StronglySorted Z.le L -> Permutation a L ->
  sort_array Z.gtb 0 (Z.of_nat (length a)) a = L.
Proof.
  intros HL Hp. apply sorted_perm_unique.
  - now apply sort_array_Z_sorted.
  - assumption.
  - rewrite sort_array_perm by reflexivity. assumption.
Qed.

(** ** The sort of doubles that are integers *)

(** On these integers the comparison of doubles is that of integers. *)
Definition b64_order_agrees (L : list Z) : bool :=
  forallb (fun x =>
    forallb (fun y => Bool.eqb (PrimFloat.ltb (B64.of_Z y) (B64.of_Z x)) (x >? y)) L) L.

Lemma b64_order_agrees_spec (L : list Z) :
  b64_order_agrees L = true ->
  forall x y, In x L -> In y L ->
    d_gt (B64.of_Z x) (B64.of_Z y) = (x >? y).
Proof.
  unfold b64_order_agrees. rewrite forallb_forall. intros H x y Hx Hy.
  specialize (H x Hx). rewrite forallb_forall in H. specialize (H y Hy).
  apply Bool.eqb_prop in H. exact H.
Qed.

(** Whatever the arrival order, the sorted copy of such samples is their
    ascending arrangement. *)
Lemma sort_copy_b64_of_Z (L : list Z) (times : list float) :
  StronglySorted Z.le L ->
  b64_order_agrees L = true ->
  Permutation times (map B64.of_Z L) ->
  sort_copy (SS := b64_times) times (Z.of_nat (length L)) = map B64.of_Z L.
Proof.
  intros HL Hord Hp.
  destruct (Permutation_map_inv _ _ Hp) as (l & -> & Hl).
  assert (Hlen : length l = length L) by (symmetry; now apply Permutation_length).
  rewrite sort_copy_eq by (rewrite length_map; lia).
  rewrite <- Hlen.
  rewrite <- (sort_array_Z_unique L l HL (Permutation_sym Hl)).
  apply sort_array_map with (dA := 0); [reflexivity|].
  intros x y Hx Hy. cbn [s_gt b64_times time_sample].
  apply b64_order_agrees_spec with (L := L); try assumption;
    apply (Permutation_in _ (Permutation_sym Hl)); assumption.
Qed.

Lemma ints_sorted (lo : Z) (n : nat) : 0 <= lo -> StronglySorted Z.le (ints lo n).
Proof.
  intros Hlo. apply Sorted_StronglySorted; [intros x y z; lia|].
  unfold ints. generalize (Z.to_nat lo) as k. clear.
  induction n as [|n IH]; intros k; cbn; constructor.
  - apply IH.
  - destruct n; cbn; constructor. lia.
Qed.

(** ** Scenario A *)

Lemma ignore_count_50 : ignore_count (DD := binary64) 50 = 10.
Proof. vm_compute. reflexivity. Qed.

Lemma scenario_A_any_order (times : list float) :
  Permutation times scenario_A ->
  calculate_statistics_frame (SS := b64_times) times 50 =
  calculate_statistics_frame (SS := b64_times) scenario_A 50.
Proof.
  intros Hp. unfold calculate_statistics_frame.
  assert (Ho : b64_order_agrees (ints 1 50) = true) by (vm_compute; reflexivity).
  assert (Hs : StronglySorted Z.le (ints 1 50)) by (apply ints_sorted; lia).
  assert (H1 := sort_copy_b64_of_Z (ints 1 50) times Hs Ho Hp).
  assert (H2 := sort_copy_b64_of_Z (ints 1 50) scenario_A Hs Ho (Permutation_refl _)).
  change (Z.of_nat (length (ints 1 50))) with 50 in H1, H2.
  rewrite H1, H2. reflexivity.
Qed.

(** C1, amended.  For the samples 1..50 in any arrival order, N = 50:
    ignoreCount 10, effectiveCount 30, window sorted[10..39] = 11..40,
    Q1 = sorted[17] = 18, Q3 = sorted[32] = 33, IQR = 15, band
    [-4.5, 55.5], all 30 window values valid, mean = 25.5, and the standard
    deviation is the population standard deviation of 11..40, which is
    8.655 to three decimals (between 8.6545 and 8.6555). *)
Theorem scenario_A_statistics (times : list float) :
  Permutation times scenario_A ->
  let f := calculate_statistics_frame (SS := b64_times) times 50 in
  ignore_runs f = 10 /\ effective_runs f = 30 /\
  window (SS := b64_times) (sorted_times f) 50 (ignore_runs f)
    = map B64.of_Z (ints 11 30) /\
  q1 f = get 0%float (sorted_times f) 17 /\ q1 f = 18%float /\
  q3 f = get 0%float (sorted_times f) 32 /\ q3 f = 33%float /\
  iqr f = 15%float /\
  d_sub (q1 f) (d_mul IQR_MULTIPLIER (iqr f)) = (-4.5)%float /\
  d_add (q3 f) (d_mul IQR_MULTIPLIER (iqr f)) = 55.5%float /\
  valid_set f 50 = map B64.of_Z (ints 11 30) /\
  valid_runs f = 30 /\
  mean f = 25.5%float /\
  std_dev f = population_std_dev (map B64.of_Z (ints 11 30)) /\
  (8.6545 < B64.to_Q (std_dev f))%Q /\ (B64.to_Q (std_dev f) < 8.6555)%Q.
Proof.
  intros Hp f. unfold f. rewrite (scenario_A_any_order times Hp).
  vm_compute. repeat split; reflexivity.
Qed.

Lemma scenario_A_statistics_witness :
  let f := calculate_statistics_frame (SS := b64_times) (rev scenario_A) 50 in
  valid_runs f = 30 /\ mean f = 25.5%float.
Proof.
  intros f.
  assert (H := scenario_A_statistics (rev scenario_A)
                 (Permutation_sym (Permutation_rev scenario_A))).
  cbv zeta in H. split; apply H.
Defined.

(** C1 as stated fails in its last figure: on scenario A the standard
    deviation is not 8.654 to three decimals, that is, not within 0.0005 of
    8.654. *)
Lemma scenario_A_std_dev_not_8_654 :
  let f := calculate_statistics_frame (SS := b64_times) scenario_A 50 in
  ~ (8.6535 <= B64.to_Q (std_dev f) /\ B64.to_Q (std_dev f) <= 8.6545)%Q.
Proof.
  intros f [_ H]. revert H. apply Qlt_not_le. vm_compute. reflexivity.
Qed.

(** ** Scenario B *)

(** C2 as stated fails: after the sort the value 100000 is not in the
    window, and 30 values are valid, not 29. *)
Lemma scenario_B_not_29 :
  let f := calculate_statistics_frame (SS := b64_times) scenario_B 50 in
  ~ (In (B64.of_Z 100000) (window (SS := b64_times) (sorted_times f) 50 (ignore_runs f))
     /\ valid_runs f = 29).
Proof. intros f [_ H]. vm_compute in H. discriminate H. Qed.

(** C2, amended.  On scenario B the sort moves 100000 to the last position,
    sorted[49], inside the discarded tail: the head/tail trim excludes it,
    not the band.  The window is 11..25, 27..41, Q1 = 18, Q3 = 34, the band
    is [-6, 58], all 30 window values are valid, the mean is 26; mean and
    standard deviation are below what they would be with 100000 counted
    among the valid values. *)
Theorem scenario_B_statistics :
  let f := calculate_statistics_frame (SS := b64_times) scenario_B 50 in
  get 0%float (sorted_times f) 49 = B64.of_Z 100000 /\
  window (SS := b64_times) (sorted_times f) 50 (ignore_runs f)
    = map B64.of_Z (ints 11 15 ++ ints 27 15) /\
  q1 f = 18%float /\ q3 f = 34%float /\
  d_sub (q1 f) (d_mul IQR_MULTIPLIER (iqr f)) = (-6)%float /\
  d_add (q3 f) (d_mul IQR_MULTIPLIER (iqr f)) = 58%float /\
  valid_set f 50 = map B64.of_Z (ints 11 15 ++ ints 27 15) /\
  valid_runs f = 30 /\
  mean f = 26%float /\
  let with_outlier := valid_set f 50 ++ [B64.of_Z 100000] in
  PrimFloat.ltb (mean f) (population_mean with_outlier) = true /\
  PrimFloat.ltb (std_dev f) (population_std_dev with_outlier) = true.
Proof. vm_compute. repeat split; reflexivity. Qed.

(** ** No valid sample *)

Lemma length_zero_nil {A} (l : list A) : Z.of_nat (length l) = 0 -> l = [].
Proof. destruct l; cbn [length]; [reflexivity | lia]. Qed.

(** C4, amended.  The function has no error result and no test of
    [valid_runs]: when no window value passes the band test it divides
    0.0 by 0 twice, and both results are NaN. *)
Theorem no_valid_samples_gives_nan {S} {SS : Sample float S}
    (times : list S) (num_runs : Z) :
  valid_runs (calculate_statistics_frame times num_runs) = 0 ->
  calculate_statistics times num_runs = (nan, nan).
Proof.
  intros H. unfold calculate_statistics. cbv zeta.
  assert (Hv := H). rewrite valid_runs_eq in Hv. apply length_zero_nil in Hv.
  rewrite std_dev_eq, sum_sq_diff_eq, mean_eq, sum_eq, H, Hv.
  cbn [fold_left]. vm_compute. reflexivity.
Qed.

(** C4 as stated fails: five samples that are all +infinity leave no valid
    sample (the IQR is inf - inf, a NaN, and every band test fails), and the
    call hands back two NaNs where the claim wants an error. *)
Lemma infinite_samples_give_nan :
  let times := repeat infinity 5 in
  let f := calculate_statistics_frame (SS := b64_times) times 5 in
  effective_runs f = 3 /\ valid_runs f = 0 /\
  PrimFloat.is_nan (fst (calculate_statistics times 5)) = true /\
  PrimFloat.is_nan (snd (calculate_statistics times 5)) = true.
Proof. vm_compute. repeat split; reflexivity. Qed.

Lemma no_valid_samples_gives_nan_witness :
  calculate_statistics (SS := b64_times) (repeat infinity 5) 5 = (nan, nan).
Proof.
  apply (no_valid_samples_gives_nan (SS := b64_times) (repeat infinity 5) 5).
  vm_compute. reflexivity.
Defined.

(** ** The charts *)

Lemma get_map_range {A} (g : Z -> A) (d : A) (lo hi k : Z) :
  0 <= k < hi - lo -> get d (map g (range lo hi)) k = g (lo + k).
Proof.
  intros Hk. unfold get, range. rewrite map_map.
  set (h := fun n : nat => g (lo + Z.of_nat n)).
  rewrite nth_indep with (d' := h O) by (rewrite length_map, length_seq; lia).
  rewrite map_nth, seq_nth by lia. unfold h. f_equal. lia.
Qed.

(** A loop that writes [g i] at [i - lo] for [i = lo .. hi-1] into an array
    of [hi - lo] elements leaves the values [g lo, ..., g (hi-1)]. *)
Lemma fill_loop {A} (g : Z -> A) (d : A) (lo hi : Z) :
  for_loop lo hi (fun i a => set a (i - lo) (g i)) (repeat d (Z.to_nat (hi - lo)))
  = map g (range lo hi).
Proof.
  destruct (Z_le_gt_dec hi lo) as [Hle|Hgt].
  { rewrite for_loop_nil, range_nil by lia.
    replace (Z.to_nat (hi - lo)) with O by lia. reflexivity. }
  pose (Inv := fun (i : Z) (a : list A) =>
    length a = Z.to_nat (hi - lo) /\
    forall k, 0 <= k < i - lo -> get d a k = g (lo + k)).
  assert (H : Inv hi (for_loop lo hi (fun i a => set a (i - lo) (g i))
                        (repeat d (Z.to_nat (hi - lo))))).
  { apply for_loop_inv; [lia | |].
    - split; [apply repeat_length | intros; lia].
    - intros i a Hi (Hl & Hk). split; [now rewrite set_length|].
      intros k Hk'. destruct (Z.eq_dec k (i - lo)) as [->|Hne].
      + rewrite get_set_eq by lia. f_equal. lia.
      + rewrite get_set_ne by lia. apply Hk. lia. }
  destruct H as (Hl & Hk). apply array_ext with (d := d).
  - rewrite length_map, range_length. exact Hl.
  - intros k Hk'. rewrite get_map_range by lia. apply Hk. lia.
Qed.

Lemma fill_loop0 {A} (g : Z -> A) (d : A) (n : Z) :
  for_loop 0 n (fun i a => set a i (g i)) (repeat d (Z.to_nat n)) = map g (range 0 n).
Proof.
  rewrite <- (fill_loop g d 0 n). rewrite Z.sub_0_r.
  apply (for_loop_rel (fun a b : list A => a = b)); [reflexivity|].
  intros i a b _ ->. now rewrite Z.sub_0_r.
Qed.

(** A loop over a pair of arrays that updates each on its own. *)
Lemma for_loop_pair {X Y} (lo hi : Z) (b1 : Z -> X -> X) (b2 : Z -> Y -> Y) x y :
  for_loop lo hi (fun i xy => (b1 i (fst xy), b2 i (snd xy))) (x, y)
  = (for_loop lo hi b1 x, for_loop lo hi b2 y).
Proof.
  unfold for_loop. revert x y. induction (range lo hi) as [|i l IH]; intros x y; cbn.
  - reflexivity.
  - apply IH.
Qed.

Section PlotFacts.
Context {D : Type} {DD : Double D}.
Variable NUM_RUNS : Z.

Lemma fill_xy_eq (ignore_runs : Z) (v : Z -> D) :
  fill_xy NUM_RUNS ignore_runs v =
  (map (fun i => d_of_Z (i + 1)) (range ignore_runs (NUM_RUNS - ignore_runs)),
   map v (range ignore_runs (NUM_RUNS - ignore_runs))).
Proof.
  unfold fill_xy. cbv zeta.
  replace (NUM_RUNS - 2 * ignore_runs) with (NUM_RUNS - ignore_runs - ignore_runs) by lia.
  rewrite <- (fill_loop (fun i => d_of_Z (i + 1)) d_zero).
  rewrite <- (fill_loop v d_zero).
  apply (for_loop_pair ignore_runs (NUM_RUNS - ignore_runs)
           (fun i a => set a (i - ignore_runs) (d_of_Z (i + 1)))
           (fun i a => set a (i - ignore_runs) (v i))).
Qed.

(** What [plot_cycles] draws: the samples of the runs
    [ignore_runs .. NUM_RUNS - ignore_runs - 1], in the order of the
    runs. *)
Lemma plot_cycles_y (cycles : list Z) (curve operation : string) :
  plline_y (plot_cycles NUM_RUNS cycles curve operation) =
  map d_of_Z (window (SS := cycle_sample DD) cycles NUM_RUNS (ignore_count NUM_RUNS)).
Proof.
  unfold plot_cycles. cbv zeta. cbn [plline_y].
  rewrite fill_xy_eq. cbn [snd]. unfold window. now rewrite map_map.
Qed.

Lemma plot_times_y (times : list D) (algorithm : string) :
  0 <= ignore_count NUM_RUNS ->
  plline_y (plot_times NUM_RUNS times algorithm) =
  map (fun t => d_mul t (d_of_Z 1000000))
    (window (SS := time_sample DD) times NUM_RUNS (ignore_count NUM_RUNS)).
Proof.
  intros Hi. unfold plot_times. cbv zeta. cbn [plline_y].
  rewrite fill_xy_eq. cbn [snd]. unfold window. rewrite map_map.
  apply map_ext_in. intros i Hin. apply in_range in Hin.
  rewrite fill_loop0. rewrite get_map_range by lia. reflexivity.
Qed.

Lemma plot_x (times : list D) (algorithm : string) :
  plline_x (plot_times NUM_RUNS times algorithm) =
  map (fun i => d_of_Z (i + 1))
    (range (ignore_count NUM_RUNS) (NUM_RUNS - ignore_count NUM_RUNS)).
Proof.
  unfold plot_times. cbv zeta. cbn [plline_x]. now rewrite fill_xy_eq.
Qed.
End PlotFacts.

Lemma call_keeps_times {D S} {DD : Double D} {SS : Sample D S} (c : caller D S) :
  c_times (call_calculate_statistics c) = c_times c.
Proof.
  unfold call_calculate_statistics.
  destruct (calculate_statistics (c_times c) (c_num_runs c)). reflexivity.
Qed.

(** C5, amended.  What [main] hands to the chart, after the statistics
    call, is the head/tail-trimmed window of the samples in arrival order,
    [times[ignore .. N-ignore-1]] (in microseconds for the time programs),
    with no IQR filter: the plot functions receive the caller's array, and
    [calculate_statistics] sorts a copy of its own, not that array. *)
Theorem chart_is_arrival_order_window {D} {DD : Double D} (NUM_RUNS : Z) :
  0 <= ignore_count NUM_RUNS ->
  (forall cycles curve,
     plline_y (r_chart (report_cycles NUM_RUNS cycles curve)) =
     map d_of_Z (window (SS := cycle_sample DD) cycles NUM_RUNS (ignore_count NUM_RUNS)))
  /\
  (forall times plot_title,
     plline_y (r_chart (report_times NUM_RUNS times plot_title)) =
     map (fun t => d_mul t (d_of_Z 1000000))
       (window (SS := time_sample DD) times NUM_RUNS (ignore_count NUM_RUNS))).
Proof.
  intros Hi. split.
  - intros. unfold report_cycles. cbv zeta. cbn [r_chart].
    rewrite call_keeps_times. apply plot_cycles_y.
  - intros. unfold report_times. cbv zeta. cbn [r_chart].
    rewrite call_keeps_times. now apply plot_times_y.
Qed.

Lemma chart_is_arrival_order_window_witness :
  plline_y (r_chart (report_cycles (DD := binary64) 50 (rev (ints 1 50)) "prime256v1")) =
  map d_of_Z
    (window (SS := cycle_sample binary64) (rev (ints 1 50)) 50 (ignore_count 50)).
Proof.
  assert (H : 0 <= ignore_count (DD := binary64) 50) by (vm_compute; discriminate).
  exact (proj1 (chart_is_arrival_order_window (DD := binary64) 50 H)
           (rev (ints 1 50)) "prime256v1"%string).
Defined.

(** C5 as stated fails: for 50 samples that arrive in descending order the
    chart shows the runs 11..40 as they came (40 down to 11), which is not
    the window of the sorted samples (11 up to 40). *)
Lemma chart_is_not_sorted_window :
  let cycles := rev (ints 1 50) in
  let f := calculate_statistics_frame (SS := b64_cycles) cycles 50 in
  plline_y (r_chart (report_cycles (DD := binary64) 50 cycles "prime256v1")) <>
  map B64.of_Z (window (SS := b64_cycles) (sorted_times f) 50 (ignore_runs f)).
Proof.
  intros cycles f H.
  apply (f_equal (fun l => PrimFloat.eqb (get 0%float l 0) 11%float)) in H.
  vm_compute in H. discriminate H.
Qed.

(** ** The arithmetic of the quartile indices *)

(** The index arithmetic, for any ignore count. *)
Lemma quartile_indices_window (num_runs ig : Z) :
  0 <= ig ->
  1 <= num_runs - 2 * ig ->
  0 <= q1_index ig (num_runs - 2 * ig) < num_runs /\
  0 <= q3_index ig (num_runs - 2 * ig) < num_runs /\
  ig <= q1_index ig (num_runs - 2 * ig) /\
  q1_index ig (num_runs - 2 * ig) <= q3_index ig (num_runs - 2 * ig) /\
  q3_index ig (num_runs - 2 * ig) < num_runs - ig.
Proof.
  intros Hig Heff. unfold q1_index, q3_index.
  rewrite !Z.quot_div_nonneg by lia.
  remember (num_runs - 2 * ig) as eff eqn:E.
  assert (0 <= eff / 4 <= (3 * eff) / 4 /\ (3 * eff) / 4 < eff).
  { split; [split|].
    - apply Z.div_pos; lia.
    - apply Z.div_le_mono; lia.
    - apply Z.div_lt_upper_bound; lia. }
  lia.
Qed.

(** ** The sweep stops at a failed verification *)

Lemma range_split (lo hi j : Z) :
  lo <= j < hi -> range lo hi = range lo j ++ j :: range (j + 1) hi.
Proof.
  intros Hj. remember (Z.to_nat (j - lo)) as n eqn:Hn.
  revert lo Hj Hn. induction n as [|n IH]; intros lo Hj Hn.
  - assert (lo = j) by lia. subst lo.
    rewrite (range_nil j j) by lia. cbn [app]. apply range_cons. lia.
  - rewrite (range_cons lo hi), (range_cons lo j) by lia.
    cbn [app]. f_equal. apply IH; lia.
Qed.

Section ProgFacts.
Context {D St : Type}.
Variable body : Z -> St -> prog D St.
Variable Q : event D -> Prop.

Lemma iterM_returns (l : list Z) :
  (forall i, In i l -> returns_with body Q i) ->
  forall st tr, exists st' evs,
    iterM body l st tr = (Returned st', tr ++ evs) /\ Forall Q evs.
Proof.
  induction l as [|i l IH]; intros H st tr.
  - exists st, []. cbn. unfold ret. rewrite app_nil_r. auto.
  - destruct (H i (or_introl eq_refl) st tr) as (st1 & ev1 & E1 & Q1).
    destruct (IH (fun k Hk => H k (or_intror Hk)) st1 (tr ++ ev1))
      as (st2 & ev2 & E2 & Q2).
    exists st2, (ev1 ++ ev2). cbn [iterM]. unfold bind. rewrite E1, E2.
    rewrite app_assoc. split; [reflexivity | now apply Forall_app].
Qed.

(** The loop ends at the first body that exits. *)
Lemma iterM_exits (l1 l2 : list Z) (k : Z) (status : Z) (last : list (event D)) :
  (forall i, In i l1 -> returns_with body Q i) ->
  (forall st tr, exists mid,
      body k st tr = (Exited status, tr ++ mid ++ last) /\ Forall Q mid) ->
  forall st tr, exists evs,
    iterM body (l1 ++ k :: l2) st tr = (Exited status, tr ++ evs ++ last)
    /\ Forall Q evs.
Proof.
  intros H1 Hk. induction l1 as [|i l IH]; intros st tr.
  - destruct (Hk st tr) as (mid & E & HQ).
    exists mid. cbn [app iterM]. unfold bind. rewrite E. auto.
  - destruct (H1 i (or_introl eq_refl) st tr) as (st1 & ev1 & E1 & Q1).
    destruct (IH (fun k Hk => H1 k (or_intror Hk)) st1 (tr ++ ev1)) as (ev2 & E2 & Q2).
    exists (ev1 ++ ev2). cbn [app iterM]. unfold bind. rewrite E1, E2.
    rewrite <- !app_assoc. split; [reflexivity | now apply Forall_app].
Qed.
End ProgFacts.

Section SweepFacts.
Context {D : Type} {DD : Double D}.
Variable NUM_RUNS : Z.
Variable CLOCKS_PER_SEC : Z.
Variable algorithms : list string.
Variable P : provider.

(** One run that goes well adds the two provider calls. *)
Lemma good_run_returns (a j i k : Z) :
  good_run P i k -> i < a \/ (i = a /\ k < j) ->
  returns_with
    (fun k (arrays : list D * list D) =>
       s <- sign_xml CLOCKS_PER_SEC P i k ;;
       v <- verify_signature CLOCKS_PER_SEC algorithms P i k ;;
       ret (set (fst arrays) k s, set (snd arrays) k v))
    (before a j) k.
Proof.
  intros [Hs Hv] Hb st tr. unfold sign_xml, verify_signature, bind, emit, ret, exit.
  apply Z.eqb_neq in Hs. rewrite Hs, Hv. cbn [negb Z.eqb Pos.eqb].
  eexists. exists [Sign i k; Verify i k]. split.
  - rewrite <- app_assoc. reflexivity.
  - constructor; [exact Hb|]. constructor; [exact Hb|]. constructor.
Qed.

(** The run whose verification fails ends the program. *)
Lemma bad_run_exits (a j : Z) arrays tr :
  EVP_SignFinal P a j <> 0 -> EVP_VerifyFinal P a j <> 1 ->
  (s <- sign_xml CLOCKS_PER_SEC P a j ;;
   v <- verify_signature CLOCKS_PER_SEC algorithms P a j ;;
   ret (set (fst arrays) j s, set (snd arrays) j v)) tr
  = (Exited (A := list D * list D) EXIT_FAILURE,
     tr ++ [Sign a j; Verify a j; Stderr (verify_failure_message algorithms a)]).
Proof.
  intros Hs Hv. unfold sign_xml, verify_signature, bind, emit, ret, exit.
  apply Z.eqb_neq in Hs. apply Z.eqb_neq in Hv. rewrite Hs, Hv. cbn [negb].
  rewrite <- !app_assoc. reflexivity.
Qed.

(** An algorithm whose runs all go well is reported and charted. *)
Lemma good_algorithm_returns (a j i : Z) :
  i < a ->
  (forall k, 0 <= k < NUM_RUNS -> good_run P i k) ->
  returns_with (fun i (_ : unit) => benchmark NUM_RUNS CLOCKS_PER_SEC algorithms P i)
    (before a j) i.
Proof.
  intros Hi Hgood u tr. unfold benchmark. cbv zeta.
  unfold for_loopM, bind at 1.
  destruct (iterM_returns _ (before (D := D) a j) (range 0 NUM_RUNS)
              (fun k Hk => good_run_returns a j i k
                             (Hgood k (proj1 (in_range 0 NUM_RUNS k) Hk))
                             (or_introl Hi))
              (repeat d_zero (Z.to_nat NUM_RUNS), repeat d_zero (Z.to_nat NUM_RUNS)) tr)
    as (arrays & evs & E & HQ).
  rewrite E.
  destruct (calculate_statistics (fst arrays) NUM_RUNS) as [ms ss].
  destruct (calculate_statistics (snd arrays) NUM_RUNS) as [mv sv].
  unfold bind, emit. eexists. eexists. split.
  - rewrite <- !app_assoc. reflexivity.
  - apply Forall_app. split; [exact HQ|].
    constructor; [exact Hi|]. constructor; [exact Hi|]. constructor; [exact Hi|].
    constructor.
Qed.

(** The algorithm whose run [j] fails in verification ends the program
    there. *)
Lemma bad_algorithm_exits (a j : Z) :
  0 <= j < NUM_RUNS ->
  (forall k, 0 <= k < j -> good_run P a k) ->
  EVP_SignFinal P a j <> 0 ->
  EVP_VerifyFinal P a j <> 1 ->
  forall (u : unit) tr, exists mid,
    benchmark NUM_RUNS CLOCKS_PER_SEC algorithms P a tr
    = (Exited EXIT_FAILURE,
       tr ++ mid ++ [Sign a j; Verify a j; Stderr (verify_failure_message algorithms a)])
    /\ Forall (before a j) mid.
Proof.
  intros Hj Hruns Hs Hv u tr. unfold benchmark. cbv zeta.
  unfold for_loopM, bind at 1.
  rewrite (range_split 0 NUM_RUNS j) by lia.
  destruct (iterM_exits
              (fun k (arrays : list D * list D) =>
                 s <- sign_xml CLOCKS_PER_SEC P a k ;;
                 v <- verify_signature CLOCKS_PER_SEC algorithms P a k ;;
                 ret (set (fst arrays) k s, set (snd arrays) k v))
              (before a j) (range 0 j) (range (j + 1) NUM_RUNS) j EXIT_FAILURE
              [Sign a j; Verify a j; Stderr (verify_failure_message algorithms a)])
    with (st := (repeat (d_zero (D := D)) (Z.to_nat NUM_RUNS),
                 repeat (d_zero (D := D)) (Z.to_nat NUM_RUNS)))
         (tr := tr) as (evs & E & HQ).
  - intros k Hk. apply in_range in Hk.
    apply good_run_returns; [apply Hruns; lia | right; lia].
  - intros st tr'. exists []. split; [|constructor].
    cbn [app]. now apply bad_run_exits.
  - exists evs. rewrite E. auto.
Qed.

(** C8.  If the provider's verification does not return 1 (it returns
    false, or an error) in run [j] of algorithm [a], all provider calls
    before having gone well, the program exits with [EXIT_FAILURE] right
    after that call and its message: the trace ends there, and what
    precedes holds only earlier runs and the reports of earlier
    algorithms; the failed call is neither repeated nor passed over, and
    no summary or chart of algorithm [a] is produced. *)
Theorem verify_failure_is_fatal (a j : Z) :
  0 <= a < Z.of_nat (length algorithms) ->
  0 <= j < NUM_RUNS ->
  (forall i k, 0 <= i < a -> 0 <= k < NUM_RUNS -> good_run P i k) ->
  (forall k, 0 <= k < j -> good_run P a k) ->
  EVP_SignFinal P a j <> 0 ->
  EVP_VerifyFinal P a j <> 1 ->
  exists tr0,
    main_sweep NUM_RUNS CLOCKS_PER_SEC algorithms P []
    = (Exited EXIT_FAILURE,
       tr0 ++ [Sign a j; Verify a j; Stderr (verify_failure_message algorithms a)])
    /\ Forall (before a j) tr0.
Proof.
  intros Ha Hj Hearlier Hruns Hs Hv. unfold main_sweep, for_loopM.
  rewrite (range_split 0 (Z.of_nat (length algorithms)) a) by lia.
  destruct (iterM_exits
              (fun i (_ : unit) => benchmark NUM_RUNS CLOCKS_PER_SEC algorithms P i)
              (before a j) (range 0 a) (range (a + 1) (Z.of_nat (length algorithms)))
              a EXIT_FAILURE
              [Sign a j; Verify a j; Stderr (verify_failure_message algorithms a)])
    with (st := tt) (tr := @nil (event D)) as (evs & E & HQ).
  - intros i Hi. apply in_range in Hi.
    apply good_algorithm_returns; [lia|]. intros k Hk. apply Hearlier; lia.
  - intros u tr. now apply bad_algorithm_exits.
  - exists evs. rewrite E. auto.
Qed.
End SweepFacts.

Lemma verify_failure_is_fatal_witness :
  exists tr0,
    main_sweep (DD := binary64) 5 1000000 pq_algorithms failing_provider []
    = (Exited EXIT_FAILURE,
       tr0 ++ [Sign 1 2; Verify 1 2; Stderr (verify_failure_message pq_algorithms 1)])
    /\ Forall (before 1 2) tr0.
Proof.
  refine (verify_failure_is_fatal (DD := binary64) 5 1000000 pq_algorithms
            failing_provider 1 2 _ _ _ _ _ _).
  - vm_compute. split; [discriminate | reflexivity].
  - lia.
  - intros i k Hi Hk. split; cbn; [discriminate|].
    destruct (Z.eqb_spec i 1); [lia | reflexivity].
  - intros k Hk. split; cbn; [discriminate|].
    destruct (Z.eqb_spec k 2); [lia | reflexivity].
  - cbn. discriminate.
  - cbn. discriminate.
Defined.



(** ** Binary digits *)

Lemma pow2_succ (k : Z) : 0 <= k -> 2 ^ (k + 1) = 2 * 2 ^ k.
Proof. intros. rewrite Z.pow_add_r by lia. lia. Qed.

Lemma digits2_bounds (m : positive) :
  2 ^ (Zpos (digits2_pos m) - 1) <= Zpos m < 2 ^ Zpos (digits2_pos m).
Proof.
  induction m as [p IH|p IH|]; cbn [digits2_pos].
  - rewrite Pos2Z.inj_succ. set (d := Zpos (digits2_pos p)) in *.
    assert (Hd : 1 <= d) by (unfold d; lia).
    replace (Z.succ d - 1) with (d - 1 + 1) by lia.
    replace (Z.succ d) with (d + 1) by lia.
    rewrite !pow2_succ by lia. lia.
  - rewrite Pos2Z.inj_succ. set (d := Zpos (digits2_pos p)) in *.
    assert (Hd : 1 <= d) by (unfold d; lia).
    replace (Z.succ d - 1) with (d - 1 + 1) by lia.
    replace (Z.succ d) with (d + 1) by lia.
    rewrite !pow2_succ by lia. lia.
  - cbn. lia.
Qed.

(** The number of digits is determined by the bounds. *)
Lemma digits2_unique (m : positive) (k : Z) :
  2 ^ (k - 1) <= Zpos m < 2 ^ k -> Zpos (digits2_pos m) = k.
Proof.
  intros [Hlo Hhi]. destruct (digits2_bounds m) as [Dlo Dhi].
  assert (0 < k).
  { destruct (Z_lt_le_dec 0 k); [assumption|].
    exfalso. destruct (Z.eq_dec k 0) as [->|];
      [cbn in Hhi; lia | rewrite Z.pow_neg_r in Hhi by lia; lia]. }
  destruct (Z_lt_le_dec (Zpos (digits2_pos m)) k) as [Hlt|Hge].
  - exfalso. assert (2 ^ Zpos (digits2_pos m) <= 2 ^ (k - 1)) by (apply Z.pow_le_mono_r; lia). lia.
  - destruct (Z_lt_le_dec k (Zpos (digits2_pos m))) as [Hlt|Hle]; [|lia].
    exfalso. assert (2 ^ k <= 2 ^ (Zpos (digits2_pos m) - 1)) by (apply Z.pow_le_mono_r; lia). lia.
Qed.

Lemma iter_xO (m d : positive) : Zpos (Pos.iter xO m d) = Zpos m * 2 ^ Zpos d.
Proof.
  induction d as [|d IH] using Pos.peano_ind.
  - cbn. lia.
  - rewrite Pos.iter_succ, Pos2Z.inj_xO, IH, Pos2Z.inj_succ, Z.pow_succ_r by lia. lia.
Qed.

Lemma digits_iter_xO (m d : positive) :
  Zpos (digits2_pos (Pos.iter xO m d)) = Zpos (digits2_pos m) + Zpos d.
Proof.
  apply digits2_unique. rewrite iter_xO. destruct (digits2_bounds m) as [Hlo Hhi].
  replace (Zpos (digits2_pos m) + Zpos d - 1) with (Zpos (digits2_pos m) - 1 + Zpos d) by lia.
  rewrite !Z.pow_add_r by lia.
  assert (0 < 2 ^ Zpos d) by (apply Z.pow_pos_nonneg; lia). nia.
Qed.

(** ** Iterated halving *)

Lemma iter_pos_nat {A} (f : A -> A) (p : positive) (x : A) :
  iter_pos f p x = Nat.iter (Pos.to_nat p) f x.
Proof.
  revert x. induction p as [p IH|p IH|]; intros x; cbn [iter_pos].
  - rewrite !IH, Pos2Nat.inj_xI, Nat.iter_succ.
    replace (2 * Pos.to_nat p)%nat with (Pos.to_nat p + Pos.to_nat p)%nat by lia.
    rewrite Nat.iter_add, !Nat.iter_swap. reflexivity.
  - rewrite !IH, Pos2Nat.inj_xO.
    replace (2 * Pos.to_nat p)%nat with (Pos.to_nat p + Pos.to_nat p)%nat by lia.
    now rewrite Nat.iter_add.
  - reflexivity.
Qed.

Lemma shr_1_spec (mrs : shr_record) :
  0 <= shr_m mrs ->
  shr_m (shr_1 mrs) = shr_m mrs / 2 /\
  shr_r (shr_1 mrs) = Z.odd (shr_m mrs) /\
  shr_s (shr_1 mrs) = shr_r mrs || shr_s mrs.
Proof.
  destruct mrs as [m r s]. cbn [shr_m shr_r shr_s]. intros Hm.
  destruct m as [|p|p]; [| |lia].
  - cbn. auto.
  - destruct p as [p|p|]; cbn [shr_1 shr_m shr_r shr_s].
    + split; [|split; reflexivity].
      rewrite Pos2Z.inj_xI. apply Z.div_unique with (r := 1); lia.
    + split; [|split; reflexivity].
      rewrite Pos2Z.inj_xO. apply Z.div_unique with (r := 0); lia.
    + repeat split.
Qed.

(** [n] halvings of [(m, false, false)]: the quotient by [2^n], the round
    bit is the last bit shifted out and the sticky bit tells a one among
    those before it. *)
Lemma shr_iter_spec (m : Z) (n : nat) :
  0 <= m ->
  let mrs := Nat.iter n shr_1 (exact_record m) in
  shr_m mrs = m / 2 ^ Z.of_nat n /\
  exists low, 0 <= low /\ 2 * low < 2 ^ Z.of_nat n /\
    2 * (m mod 2 ^ Z.of_nat n) = (if shr_r mrs then 2 ^ Z.of_nat n else 0) + 2 * low /\
    shr_s mrs = negb (low =? 0).
Proof.
  intros Hm. induction n as [|n IH].
  - cbn. rewrite Z.div_1_r, Z.mod_1_r. split; [reflexivity|].
    exists 0. repeat split; lia.
  - cbv zeta in IH |- *. rewrite Nat.iter_succ.
    set (mrs := Nat.iter n shr_1 _) in *. destruct IH as (IHm & low & L0 & L1 & L2 & L3).
    assert (Hpos : 0 < 2 ^ Z.of_nat n) by (apply Z.pow_pos_nonneg; lia).
    assert (Hq : 0 <= shr_m mrs) by (rewrite IHm; apply Z.div_pos; lia).
    destruct (shr_1_spec mrs Hq) as (E1 & E2 & E3).
    rewrite E1, E2, E3, IHm, Nat2Z.inj_succ, Z.pow_succ_r by lia.
    split.
    + rewrite Z.div_div by lia. f_equal. lia.
    + exists (m mod 2 ^ Z.of_nat n).
      assert (Hb : 0 <= m mod 2 ^ Z.of_nat n < 2 ^ Z.of_nat n) by (apply Z.mod_pos_bound; lia).
      split; [lia|]. split; [lia|]. split.
      * rewrite (Z.mul_comm 2 (2 ^ Z.of_nat n)), Z.rem_mul_r by lia.
        rewrite Zmod_odd. destruct (Z.odd (m / 2 ^ Z.of_nat n)); lia.
      * rewrite L3. destruct (shr_r mrs); destruct (Z.eqb_spec low 0);
          destruct (Z.eqb_spec (m mod 2 ^ Z.of_nat n) 0); cbn; try reflexivity; exfalso; lia.
Qed.

(** ** Rounding to nearest, ties to even *)

Lemma rne_0 (X : Z) : rne X 0 = X.
Proof.
  unfold rne. rewrite Z.pow_0_r, Z.mod_1_r, Z.div_1_r. reflexivity.
Qed.

Lemma round_nearest_even_shr (m : Z) (n : nat) :
  0 <= m ->
  let mrs := Nat.iter n shr_1 (exact_record m) in
  round_nearest_even (shr_m mrs) (loc_of_shr_record mrs) = rne m (Z.of_nat n).
Proof.
  intros Hm mrs. destruct (shr_iter_spec m n Hm) as (Em & low & L0 & L1 & L2 & L3).
  fold mrs in Em, L2, L3. unfold rne. rewrite <- Em.
  assert (Hpos : 0 < 2 ^ Z.of_nat n) by (apply Z.pow_pos_nonneg; lia).
  destruct mrs as [q r s]. cbn [shr_m shr_r shr_s] in *.
  rewrite <- Z.negb_even.
  destruct r; destruct (Z.eqb_spec low 0) as [El|El]; cbn [negb] in L3; subst s;
    cbn [loc_of_shr_record round_nearest_even].
  - replace (2 ^ Z.of_nat n <? _) with false by (symmetry; apply Z.ltb_ge; lia).
    replace (2 ^ Z.of_nat n =? _) with true by (symmetry; apply Z.eqb_eq; lia).
    cbn [orb andb]. destruct (Z.even q); reflexivity.
  - replace (2 ^ Z.of_nat n <? _) with true by (symmetry; apply Z.ltb_lt; lia).
    reflexivity.
  - replace (2 ^ Z.of_nat n <? _) with false by (symmetry; apply Z.ltb_ge; lia).
    replace (2 ^ Z.of_nat n =? _) with false by (symmetry; apply Z.eqb_neq; lia).
    reflexivity.
  - replace (2 ^ Z.of_nat n <? _) with false by (symmetry; apply Z.ltb_ge; lia).
    replace (2 ^ Z.of_nat n =? _) with false by (symmetry; apply Z.eqb_neq; lia).
    reflexivity.
Qed.

Lemma rne_bounds (X n : Z) :
  0 <= n -> X / 2 ^ n <= rne X n <= X / 2 ^ n + 1 /\
  (X mod 2 ^ n = 0 -> rne X n = X / 2 ^ n).
Proof.
  intros Hn. unfold rne.
  assert (Hpos : 0 < 2 ^ n) by (apply Z.pow_pos_nonneg; lia).
  split.
  - destruct (_ || _); lia.
  - intros ->. replace (2 ^ n <? 2 * 0) with false by (symmetry; apply Z.ltb_ge; lia).
    replace (2 ^ n =? 2 * 0) with false by (symmetry; apply Z.eqb_neq; lia).
    reflexivity.
Qed.

(** ** The rounding of a positive integer mantissa to binary64 *)

Lemma fexp64 (e : Z) : fexp prec emax e = Z.max (e - 53) (-1074).
Proof. reflexivity. Qed.

Lemma shr_fexp_pos (m : positive) (e : Z) :
  let n := fexp prec emax (Zpos (digits2_pos m) + e) - e in
  shr_fexp prec emax (Zpos m) e loc_Exact =
  if 0 <? n
  then (Nat.iter (Z.to_nat n) shr_1 (exact_record (Zpos m)), e + n)
  else (exact_record (Zpos m), e).
Proof.
  intros n. unfold shr_fexp. cbn [Zdigits2 shr_record_of_loc]. fold n.
  unfold shr. destruct n as [|p|p]; cbn [Z.ltb Z.compare]; try reflexivity.
  now rewrite iter_pos_nat.
Qed.

(** A mantissa already at its canonical exponent is kept as it is. *)
Lemma binary_round_aux_exact (s : bool) (mz : positive) (ez : Z) :
  fexp prec emax (Zpos (digits2_pos mz) + ez) = ez ->
  binary_round_aux prec emax s (Zpos mz) ez loc_Exact =
  if ez <=? 971 then S754_finite s mz ez else S754_infinity s.
Proof.
  intros H. unfold binary_round_aux.
  rewrite shr_fexp_pos. cbv zeta. rewrite H, Z.sub_diag. cbn [Z.ltb Z.compare].
  cbn [exact_record shr_m loc_of_shr_record round_nearest_even].
  rewrite shr_fexp_pos. cbv zeta. rewrite H, Z.sub_diag. cbn [Z.ltb Z.compare].
  cbn [exact_record shr_m]. reflexivity.
Qed.

Lemma binary_round_spec (s : bool) (X : positive) (e : Z) :
  -1074 <= e ->
  let n := dropped X in
  exists mf ef,
    binary_round prec emax s X e =
      (if ef <=? 971 then S754_finite s mf ef else S754_infinity s) /\
    -1074 <= ef /\ Zpos mf < 2 ^ 53 /\ (-1074 < ef -> 2 ^ 52 <= Zpos mf) /\
    scaled mf ef = rne (Zpos X) n * 2 ^ (n + e + 1074).
Proof.
  intros He n. unfold dropped in n. destruct (digits2_bounds X) as [Dlo Dhi].
  set (d := Zpos (digits2_pos X)) in *.
  unfold binary_round. fold d. rewrite fexp64.
  destruct (Z_le_gt_dec d 53) as [Hd|Hd].
  - (* no rounding *)
    assert (Hn : n = 0) by (unfold n; lia).
    rewrite Hn, rne_0, Z.add_0_l.
    assert (HX : Zpos X < 2 ^ 53).
    { assert (2 ^ d <= 2 ^ 53) by (apply Z.pow_le_mono_r; lia). lia. }
    unfold shl_align.
    destruct (Z.max (d + e - 53) (-1074) - e) as [|p|p] eqn:Ht; [| lia |].
    + exists X, e. rewrite binary_round_aux_exact by (fold d; rewrite fexp64; lia).
      split; [reflexivity|]. split; [lia|]. split; [exact HX|].
      split; [|reflexivity].
      intros H. assert (d = 53) by lia.
      replace 52 with (d - 1) by lia. exact Dlo.
    + exists (Pos.iter xO X p), (Z.max (d + e - 53) (-1074)).
      rewrite binary_round_aux_exact
        by (rewrite digits_iter_xO; fold d; rewrite fexp64; lia).
      assert (Hdig := digits_iter_xO X p). fold d in Hdig.
      destruct (digits2_bounds (Pos.iter xO X p)) as [Ilo Ihi].
      rewrite Hdig in Ilo, Ihi.
      split; [reflexivity|]. split; [lia|]. split; [|split].
      * assert (2 ^ (d + Zpos p) <= 2 ^ 53) by (apply Z.pow_le_mono_r; lia). lia.
      * intros H. replace (d + Zpos p - 1) with 52 in Ilo by lia. exact Ilo.
      * unfold scaled. rewrite iter_xO.
        replace (e + 1074) with (Zpos p + (Z.max (d + e - 53) (-1074) + 1074)) by lia.
        rewrite (Z.pow_add_r 2 (Zpos p)) by lia. ring.
  - (* rounding to 53 digits *)
    assert (Hn : n = d - 53) by (unfold n; lia).
    assert (Hnpos : 0 < n) by lia.
    assert (Hp2 : 0 < 2 ^ n) by (apply Z.pow_pos_nonneg; lia).
    set (q := Zpos X / 2 ^ n).
    assert (Hq : 2 ^ 52 <= q < 2 ^ 53).
    { unfold q. split.
      - apply Z.div_le_lower_bound; [lia|].
        rewrite <- Z.pow_add_r by lia. replace (n + 52) with (d - 1) by lia. exact Dlo.
      - apply Z.div_lt_upper_bound; [lia|].
        rewrite <- Z.pow_add_r by lia. replace (n + 53) with d by lia. exact Dhi. }
    unfold shl_align.
    destruct (Z.max (d + e - 53) (-1074) - e) as [|p|p] eqn:Ht; [lia | | lia].
    unfold binary_round_aux. rewrite shr_fexp_pos. cbv zeta. fold d. rewrite fexp64, Ht.
    cbn [Z.ltb Z.compare].
    assert (Hpn : Zpos p = n) by lia.
    rewrite (round_nearest_even_shr (Zpos X) (Z.to_nat (Zpos p))) by lia.
    rewrite Z2Nat.id by lia. rewrite Hpn.
    destruct (rne_bounds (Zpos X) n ltac:(lia)) as [Rb _]. fold q in Rb.
    set (v := rne (Zpos X) n) in *.
    destruct v as [|pv|pv] eqn:Ev; [lia | | lia].
    rewrite shr_fexp_pos. cbv zeta. rewrite fexp64.
    assert (Hs : 0 < 2 ^ (n + e + 1074)) by (apply Z.pow_pos_nonneg; lia).
    destruct (Z_lt_le_dec (Zpos pv) (2 ^ 53)) as [Hlt|Hge].
    + assert (Hdv : Zpos (digits2_pos pv) = 53) by (apply digits2_unique; cbn [Z.sub]; lia).
      rewrite Hdv.
      replace (Z.max (53 + (e + n) - 53) (-1074) - (e + n)) with 0 by lia.
      cbn [Z.ltb Z.compare exact_record shr_m].
      exists pv, (e + n). split; [reflexivity|]. split; [lia|].
      split; [exact Hlt|]. split; [lia|].
      unfold scaled. replace (e + n + 1074) with (n + e + 1074) by lia. reflexivity.
    + assert (Hv : Zpos pv = 2 ^ 53) by lia.
      assert (Hpv : pv = 9007199254740992%positive) by (apply Pos2Z.inj; rewrite Hv; reflexivity).
      subst pv.
      change (Zpos (digits2_pos 9007199254740992)) with 54.
      replace (Z.max (54 + (e + n) - 53) (-1074) - (e + n)) with 1 by lia.
      cbn [Z.ltb Z.compare Z.to_nat Pos.to_nat Pos.iter_op Nat.iter nat_rect exact_record shr_1 shr_m orb].
      exists 4503599627370496%positive, (e + n + 1). 
      split; [reflexivity|]. split; [lia|].
      split; [reflexivity|]. split; [intros _; cbn; discriminate|].
      unfold scaled. replace (e + n + 1 + 1074) with (1 + (n + e + 1074)) by lia.
      rewrite Z.pow_add_r by lia. change (2 ^ 1) with 2. lia.
Qed.


(** ** The order of binary64 *)

Lemma valid_finite (s : bool) (m : positive) (e : Z) :
  valid_binary (S754_finite s m e) = true <->
  -1074 <= e <= 971 /\ Zpos m < 2 ^ 53 /\ (-1074 < e -> 2 ^ 52 <= Zpos m).
Proof.
  unfold SpecFloat.valid_binary, bounded, canonical_mantissa.
  rewrite fexp64, andb_true_iff, Z.eqb_eq, Z.leb_le. change (emax - prec) with 971.
  destruct (digits2_bounds m) as [Dlo Dhi]. set (d := Zpos (digits2_pos m)) in *.
  assert (Hd : 1 <= d) by (unfold d; lia).
  split.
  - intros [Hc He]. split; [lia|]. split.
    + assert (2 ^ d <= 2 ^ 53) by (apply Z.pow_le_mono_r; lia). lia.
    + intros H. assert (d = 53) by lia. replace 52 with (d - 1) by lia. exact Dlo.
  - intros (He & Hm & Hn). split; [|lia].
    assert (d <= 53).
    { destruct (Z_le_gt_dec d 53); [assumption|]. exfalso.
      assert (2 ^ 53 <= 2 ^ (d - 1)) by (apply Z.pow_le_mono_r; lia). lia. }
    destruct (Z.eq_dec e (-1074)) as [->|Hne]; [lia|].
    assert (53 <= d).
    { destruct (Z_le_gt_dec 53 d); [assumption|]. exfalso.
      assert (2 ^ d <= 2 ^ 52) by (apply Z.pow_le_mono_r; lia).
      specialize (Hn ltac:(lia)). lia. }
    lia.
Qed.

Lemma scaled_pos (m : positive) (e : Z) : -1074 <= e -> 0 < scaled m e.
Proof.
  intros He. unfold scaled.
  assert (0 < 2 ^ (e + 1074)) by (apply Z.pow_pos_nonneg; lia). nia.
Qed.

Lemma huge_split : huge = 2 ^ 53 * 2 ^ 2045.
Proof. unfold huge. rewrite <- Z.pow_add_r by lia. reflexivity. Qed.

Lemma huge_pos : 0 < huge.
Proof. unfold huge. apply Z.pow_pos_nonneg; lia. Qed.

Lemma scaled_lt_huge (s : bool) (m : positive) (e : Z) :
  valid_binary (S754_finite s m e) = true -> 0 < scaled m e < huge.
Proof.
  intros H. apply valid_finite in H. destruct H as (He & Hm & _).
  split; [apply scaled_pos; lia|].
  rewrite huge_split. unfold scaled.
  assert (2 ^ (e + 1074) <= 2 ^ 2045) by (apply Z.pow_le_mono_r; lia).
  assert (0 < 2 ^ (e + 1074)) by (apply Z.pow_pos_nonneg; lia).
  set (a := 2 ^ (e + 1074)) in *. set (b := 2 ^ 2045) in *. nia.
Qed.

Lemma huge_le_scaled (m : positive) (e : Z) :
  971 < e -> 2 ^ 52 <= Zpos m -> huge <= scaled m e.
Proof.
  intros He Hm. unfold huge, scaled.
  replace 2098 with (52 + 2046) by reflexivity. rewrite Z.pow_add_r by lia.
  assert (2 ^ 2046 <= 2 ^ (e + 1074)) by (apply Z.pow_le_mono_r; lia).
  assert (0 < 2 ^ 2046) by (apply Z.pow_pos_nonneg; lia).
  set (a := 2 ^ (e + 1074)) in *. set (b := 2 ^ 2046) in *. nia.
Qed.

Lemma key_bounds (x : spec_float) :
  valid_binary x = true -> sf_finite x = true -> - huge < key x < huge.
Proof.
  intros Hv Hf. destruct x as [s|s| |s m e]; try discriminate; cbn [key].
  - assert (H := huge_pos). lia.
  - assert (H := scaled_lt_huge s m e Hv). destruct s; cbn [cond_Zopp]; lia.
Qed.

Lemma scaled_compare (m1 m2 : positive) (e1 e2 : Z) :
  valid_binary (S754_finite false m1 e1) = true ->
  valid_binary (S754_finite false m2 e2) = true ->
  (scaled m1 e1 ?= scaled m2 e2) =
  match e1 ?= e2 with Eq => (Zpos m1 ?= Zpos m2) | Lt => Lt | Gt => Gt end.
Proof.
  intros H1 H2. apply valid_finite in H1, H2.
  destruct H1 as (He1 & Hm1 & Hn1), H2 as (He2 & Hm2 & Hn2).
  unfold scaled.
  assert (Hlt : forall ma mb ea eb, -1074 <= ea < eb -> Zpos ma < 2 ^ 53 ->
            2 ^ 52 <= Zpos mb -> Zpos ma * 2 ^ (ea + 1074) < Zpos mb * 2 ^ (eb + 1074)).
  { intros ma mb ea eb He Ha Hb.
    replace (eb + 1074) with ((eb - ea - 1) + 1 + (ea + 1074)) by lia.
    rewrite (Z.pow_add_r 2 (eb - ea - 1 + 1)), (Z.pow_add_r 2 (eb - ea - 1)) by lia.
    change (2 ^ 1) with 2.
    assert (0 < 2 ^ (ea + 1074)) by (apply Z.pow_pos_nonneg; lia).
    assert (0 < 2 ^ (eb - ea - 1)) by (apply Z.pow_pos_nonneg; lia).
    set (a := 2 ^ (ea + 1074)) in *. set (b := 2 ^ (eb - ea - 1)) in *.
    assert (Zpos ma * a < 2 ^ 53 * a) by nia.
    assert (2 ^ 53 * a <= Zpos mb * (b * 2 * a)); [|lia].
    change (2 ^ 53) with (2 ^ 52 * 2).
    assert (2 ^ 52 * a <= Zpos mb * a) by nia.
    assert (Zpos mb * a <= Zpos mb * a * b) by nia. nia. }
  destruct (Z.compare_spec e1 e2) as [->|Hc|Hc].
  - assert (0 < 2 ^ (e2 + 1074)) by (apply Z.pow_pos_nonneg; lia).
    set (a := 2 ^ (e2 + 1074)) in *.
    destruct (Z.compare_spec (Zpos m1) (Zpos m2)) as [E|E|E].
    + apply Z.compare_eq_iff. rewrite E. reflexivity.
    + apply Z.compare_lt_iff. nia.
    + apply Z.compare_gt_iff. nia.
  - apply Z.compare_lt_iff. apply Hlt; [lia | assumption | apply Hn2; lia].
  - apply Z.compare_gt_iff. apply Hlt; [lia | assumption | apply Hn1; lia].
Qed.

Lemma valid_sign (s s' : bool) (m : positive) (e : Z) :
  valid_binary (S754_finite s m e) = true -> valid_binary (S754_finite s' m e) = true.
Proof. intros H. exact H. Qed.

(** The comparison of doubles is that of their keys. *)
Lemma SFcompare_key (x y : spec_float) :
  valid_binary x = true -> valid_binary y = true ->
  sf_nan x = false -> sf_nan y = false ->
  SFcompare x y = Some (key x ?= key y).
Proof.
  intros Vx Vy Nx Ny. assert (Hh := huge_pos).
  destruct x as [sx|sx| |sx mx ex]; try discriminate Nx;
  destruct y as [sy|sy| |sy my ey]; try discriminate Ny; cbn [SFcompare key].
  - reflexivity.
  - f_equal. destruct sy; cbn [cond_Zopp]; symmetry;
      [apply Z.compare_gt_iff | apply Z.compare_lt_iff]; lia.
  - assert (H := scaled_lt_huge sy my ey Vy). f_equal.
    destruct sy; cbn [cond_Zopp]; symmetry;
      [apply Z.compare_gt_iff | apply Z.compare_lt_iff]; lia.
  - f_equal. destruct sx; cbn [cond_Zopp]; symmetry;
      [apply Z.compare_lt_iff | apply Z.compare_gt_iff]; lia.
  - f_equal. destruct sx, sy; cbn [cond_Zopp]; symmetry;
      first [apply Z.compare_eq_iff; reflexivity | apply Z.compare_lt_iff; lia
            | apply Z.compare_gt_iff; lia].
  - assert (H := scaled_lt_huge sy my ey Vy). f_equal.
    destruct sx; cbn [cond_Zopp]; destruct sy; cbn [cond_Zopp]; symmetry;
      first [apply Z.compare_lt_iff; lia | apply Z.compare_gt_iff; lia].
  - assert (H := scaled_lt_huge sx mx ex Vx). f_equal.
    destruct sx; cbn [cond_Zopp]; symmetry;
      [apply Z.compare_lt_iff | apply Z.compare_gt_iff]; lia.
  - assert (H := scaled_lt_huge sx mx ex Vx). f_equal.
    destruct sx; cbn [cond_Zopp]; destruct sy; cbn [cond_Zopp]; symmetry;
      first [apply Z.compare_lt_iff; lia | apply Z.compare_gt_iff; lia].
  - assert (Hx := scaled_lt_huge sx mx ex Vx). assert (Hy := scaled_lt_huge sy my ey Vy).
    assert (Hc := scaled_compare mx my ex ey Vx Vy).
    assert (Hc' := scaled_compare my mx ey ex Vy Vx).
    change (PosDef.Pos.compare_cont Eq mx my) with (Zpos mx ?= Zpos my).
    f_equal. destruct sx, sy; cbn [cond_Zopp].
    + rewrite Z.compare_opp, Hc'. rewrite (Z.compare_antisym ex ey).
      rewrite (Z.compare_antisym (Zpos mx) (Zpos my)).
      destruct (ex ?= ey); reflexivity.
    + symmetry. apply Z.compare_lt_iff. lia.
    + symmetry. apply Z.compare_gt_iff. lia.
    + rewrite Hc. destruct (ex ?= ey); reflexivity.
Qed.

Lemma SFleb_key (x y : spec_float) :
  valid_binary x = true -> valid_binary y = true ->
  sf_nan x = false -> sf_nan y = false ->
  SFleb x y = (key x <=? key y).
Proof.
  intros Vx Vy Nx Ny. unfold SFleb. rewrite SFcompare_key by assumption.
  unfold Z.leb. destruct (key x ?= key y); reflexivity.
Qed.

Lemma SFltb_key (x y : spec_float) :
  valid_binary x = true -> valid_binary y = true ->
  sf_nan x = false -> sf_nan y = false ->
  SFltb x y = (key x <? key y).
Proof.
  intros Vx Vy Nx Ny. unfold SFltb. rewrite SFcompare_key by assumption.
  unfold Z.ltb. destruct (key x ?= key y); reflexivity.
Qed.


(** ** Rounding keeps the order with the representable numbers *)

Lemma dropped_cases (X : positive) :
  (dropped X = 0 /\ Zpos X < 2 ^ 53) \/
  (0 < dropped X /\ dropped X = Zpos (digits2_pos X) - 53 /\
   2 ^ 52 <= Zpos X / 2 ^ dropped X < 2 ^ 53).
Proof.
  unfold dropped. destruct (digits2_bounds X) as [Dlo Dhi].
  set (d := Zpos (digits2_pos X)) in *.
  destruct (Z_le_gt_dec d 53) as [Hd|Hd].
  - left. split; [lia|].
    assert (2 ^ d <= 2 ^ 53) by (apply Z.pow_le_mono_r; lia). lia.
  - right. replace (Z.max (d - 53) 0) with (d - 53) by lia.
    split; [lia|]. split; [reflexivity|].
    assert (Hp2 : 0 < 2 ^ (d - 53)) by (apply Z.pow_pos_nonneg; lia).
    split.
    + apply Z.div_le_lower_bound; [lia|].
      rewrite <- Z.pow_add_r by lia. replace (d - 53 + 52) with (d - 1) by lia. exact Dlo.
    + apply Z.div_lt_upper_bound; [lia|].
      rewrite <- Z.pow_add_r by lia. replace (d - 53 + 53) with d by lia. exact Dhi.
Qed.

(** A number with at most 53 significant bits that is below (above) an
    integer is below (above) the rounding of the integer to 53 bits. *)
Lemma rne_sandwich (X mA : positive) (E EA : Z) :
  0 <= E -> 0 <= EA -> Zpos mA < 2 ^ 53 ->
  let n := dropped X in
  let a := Zpos mA * 2 ^ EA in
  let W := Zpos X * 2 ^ E in
  let R := rne (Zpos X) n * 2 ^ (n + E) in
  (a <= W -> a <= R) /\ (W <= a -> R <= a).
Proof.
  intros HE HEA HmA n a W R. subst n a W R.
  destruct (dropped_cases X) as [[Hn HX]|(Hn & _ & Hq)].
  - rewrite Hn, rne_0, Z.add_0_l. split; intros H; exact H.
  - set (n := dropped X) in *.
    assert (Hpn : 0 < 2 ^ n) by (apply Z.pow_pos_nonneg; lia).
    assert (HpE : 0 < 2 ^ E) by (apply Z.pow_pos_nonneg; lia).
    assert (HpA : 0 < 2 ^ EA) by (apply Z.pow_pos_nonneg; lia).
    destruct (rne_bounds (Zpos X) n ltac:(lia)) as [Rb Rx].
    assert (HX := Z.div_mod (Zpos X) (2 ^ n) ltac:(lia)).
    assert (Hr := Z.mod_pos_bound (Zpos X) (2 ^ n) Hpn).
    set (q := Zpos X / 2 ^ n) in *. set (r := Zpos X mod 2 ^ n) in *.
    set (v := rne (Zpos X) n) in *.
    rewrite Z.pow_add_r by lia. rewrite HX.
    set (pn := 2 ^ n) in *. set (pE := 2 ^ E) in *.
    assert (HP : 0 < pn * pE) by nia.
    assert (Hrem : 0 <= r * pE < pn * pE) by nia.
    replace ((pn * q + r) * pE) with (q * (pn * pE) + r * pE) by ring.
    replace (v * (pn * pE)) with (v * (pn * pE)) by ring.
    set (P := pn * pE) in *. set (rE := r * pE) in *.
    assert (Hr0 : r = 0 -> rE = 0) by (intros ->; reflexivity).
    destruct (Z_le_gt_dec (n + E) EA) as [Hbig|Hsmall].
    + (* the representable number is a multiple of the rounding unit *)
      assert (Ha : 2 ^ EA = 2 ^ (EA - (n + E)) * P).
      { unfold P, pn, pE. rewrite <- !Z.pow_add_r by lia. f_equal. lia. }
      assert (Ht : 0 < 2 ^ (EA - (n + E))) by (apply Z.pow_pos_nonneg; lia).
      rewrite Ha. set (t := 2 ^ (EA - (n + E))) in *.
      replace (Zpos mA * (t * P)) with (Zpos mA * t * P) by ring.
      set (k := Zpos mA * t) in *.
      split; intros H.
      * assert (Hkq : k <= q).
        { destruct (Z_le_gt_dec k q) as [|Hgt]; [assumption|]. exfalso.
          assert ((q + 1) * P <= k * P) by (apply Z.mul_le_mono_nonneg_r; lia). lia. }
        assert (k * P <= q * P) by (apply Z.mul_le_mono_nonneg_r; lia).
        assert (q * P <= v * P) by (apply Z.mul_le_mono_nonneg_r; lia). lia.
      * destruct (Z.eq_dec r 0) as [E0|E0].
        -- rewrite (Rx E0). specialize (Hr0 E0). lia.
        -- assert (0 < rE) by (unfold rE; nia).
           assert (Hkq : q + 1 <= k).
           { destruct (Z_le_gt_dec (q + 1) k) as [|Hgt]; [assumption|]. exfalso.
             assert (k * P <= q * P) by (apply Z.mul_le_mono_nonneg_r; lia). lia. }
           assert ((q + 1) * P <= k * P) by (apply Z.mul_le_mono_nonneg_r; lia).
           assert (v * P <= (q + 1) * P) by (apply Z.mul_le_mono_nonneg_r; lia). lia.
    + (* the representable number is below the binade of the integer *)
      assert (HPs : P = 2 ^ (n + E - EA - 1) * 2 * 2 ^ EA).
      { unfold P, pn, pE. rewrite <- Z.pow_add_r by lia.
        replace (n + E) with ((n + E - EA - 1) + 1 + EA) at 1 by lia.
        rewrite (Z.pow_add_r 2 (n + E - EA - 1 + 1)), (Z.pow_add_r 2 (n + E - EA - 1)) by lia.
        reflexivity. }
      assert (Hu : 0 < 2 ^ (n + E - EA - 1)) by (apply Z.pow_pos_nonneg; lia).
      set (u := 2 ^ (n + E - EA - 1)) in *. set (pA := 2 ^ EA) in *.
      assert (Hlt : Zpos mA * pA < 2 ^ 52 * P).
      { rewrite HPs. change (2 ^ 52) with 4503599627370496.
        change (2 ^ 53) with 9007199254740992 in HmA. nia. }
      assert (Hge : 2 ^ 52 * P <= q * P) by nia.
      split; intros H; [nia | exfalso; nia].
Qed.

(** ** Correct rounding, as an order property *)

Lemma rounds_exact (R : spec_float) (v : Z) :
  sf_nan R = false -> key R = v -> rounds_to R v.
Proof.
  intros HR <-. split; [assumption|]. intros A _ _. split; intros H; exact H.
Qed.

Lemma round_rounds (s : bool) (X : positive) (e : Z) :
  -1074 <= e ->
  valid_binary (binary_round prec emax s X e) = true /\
  rounds_to (binary_round prec emax s X e) (cond_Zopp s (Zpos X * 2 ^ (e + 1074))).
Proof.
  intros He. destruct (binary_round_spec s X e He) as (mf & ef & -> & Hef & Hm & Hn & HK).
  cbv zeta in HK.
  replace (dropped X + e + 1074) with (dropped X + (e + 1074)) in HK by lia.
  assert (Hh := huge_pos).
  assert (HW : 0 < Zpos X * 2 ^ (e + 1074)).
  { assert (0 < 2 ^ (e + 1074)) by (apply Z.pow_pos_nonneg; lia). nia. }
  assert (HKpos := scaled_pos mf ef Hef).
  destruct (Z.leb_spec ef 971) as [Hle|Hgt].
  - assert (Hv : valid_binary (S754_finite s mf ef) = true)
      by (apply valid_finite; repeat split; try assumption; lia).
    split; [exact Hv|]. split; [reflexivity|].
    intros A VA FA. destruct A as [sA|sA| |sA mA eA]; try discriminate FA; cbn [key].
    + destruct s; cbn [cond_Zopp]; lia.
    + assert (HA := scaled_lt_huge sA mA eA VA).
      apply valid_finite in VA. destruct VA as (HeA & HmA & _).
      destruct (rne_sandwich X mA (e + 1074) (eA + 1074) ltac:(lia) ltac:(lia) HmA) as [S1 S2].
      cbv zeta in S1, S2. rewrite <- HK in S1, S2. fold (scaled mA eA) in S1, S2.
      destruct s, sA; cbn [cond_Zopp]; lia.
  - assert (HKh := huge_le_scaled mf ef Hgt (Hn ltac:(lia))).
    split; [reflexivity|]. split; [reflexivity|].
    intros A VA FA. destruct A as [sA|sA| |sA mA eA]; try discriminate FA; cbn [key].
    + destruct s; cbn [cond_Zopp]; lia.
    + assert (HA := scaled_lt_huge sA mA eA VA).
      apply valid_finite in VA. destruct VA as (HeA & HmA & _).
      destruct (rne_sandwich X mA (e + 1074) (eA + 1074) ltac:(lia) ltac:(lia) HmA) as [S1 S2].
      cbv zeta in S1, S2. rewrite <- HK in S1, S2. fold (scaled mA eA) in S1, S2.
      destruct s, sA; cbn [cond_Zopp]; lia.
Qed.

Lemma normalize_rounds (z ez : Z) :
  -1074 <= ez ->
  valid_binary (binary_normalize prec emax z ez false) = true /\
  rounds_to (binary_normalize prec emax z ez false) (z * 2 ^ (ez + 1074)).
Proof.
  intros He. destruct z as [|p|p]; cbn [binary_normalize].
  - split; [reflexivity|]. apply rounds_exact; reflexivity.
  - exact (round_rounds false p ez He).
  - destruct (round_rounds true p ez He) as [V R]. split; [exact V|].
    cbn [cond_Zopp] in R.
    replace (Zneg p * 2 ^ (ez + 1074)) with (- (Zpos p * 2 ^ (ez + 1074))) by lia.
    exact R.
Qed.

(** ** Addition and subtraction of finite doubles *)

Lemma shl_align_fst (m : positive) (e ez : Z) :
  ez <= e -> Zpos (fst (shl_align m e ez)) = Zpos m * 2 ^ (e - ez).
Proof.
  intros H. unfold shl_align. destruct (ez - e) as [|d|d] eqn:Ed; cbn [fst].
  - replace (e - ez) with 0 by lia. lia.
  - lia.
  - rewrite iter_xO. f_equal. f_equal. lia.
Qed.

Lemma aligned_key (s : bool) (m : positive) (e ez : Z) :
  -1074 <= ez <= e ->
  cond_Zopp s (Zpos (fst (shl_align m e ez))) * 2 ^ (ez + 1074) =
  key (S754_finite s m e).
Proof.
  intros H. rewrite shl_align_fst by lia. cbn [key]. unfold scaled.
  replace (e + 1074) with ((e - ez) + (ez + 1074)) by lia.
  rewrite (Z.pow_add_r 2 (e - ez) (ez + 1074)) by lia. destruct s; cbn [cond_Zopp]; ring.
Qed.

Lemma SFadd_rounds (x y : spec_float) :
  valid_binary x = true -> valid_binary y = true ->
  sf_finite x = true -> sf_finite y = true ->
  rounds_to (SFadd prec emax x y) (key x + key y).
Proof.
  intros Vx Vy Fx Fy.
  destruct x as [sx|sx| |sx mx ex]; try discriminate Fx;
  destruct y as [sy|sy| |sy my ey]; try discriminate Fy; cbn [SFadd].
  - destruct sx, sy; apply rounds_exact; reflexivity.
  - apply rounds_exact; reflexivity.
  - apply rounds_exact; [reflexivity | cbn [key]; lia].
  - assert (Hx := proj1 (valid_finite _ _ _) Vx). assert (Hy := proj1 (valid_finite _ _ _) Vy).
    cbv zeta. set (ez := Z.min ex ey).
    destruct (normalize_rounds
      (cond_Zopp sx (Zpos (fst (shl_align mx ex ez))) +
       cond_Zopp sy (Zpos (fst (shl_align my ey ez)))) ez ltac:(lia)) as [_ R].
    rewrite Z.mul_add_distr_r, !aligned_key in R by lia. exact R.
Qed.

Lemma SFsub_rounds (x y : spec_float) :
  valid_binary x = true -> valid_binary y = true ->
  sf_finite x = true -> sf_finite y = true ->
  rounds_to (SFsub prec emax x y) (key x - key y).
Proof.
  intros Vx Vy Fx Fy.
  destruct x as [sx|sx| |sx mx ex]; try discriminate Fx;
  destruct y as [sy|sy| |sy my ey]; try discriminate Fy; cbn [SFsub].
  - destruct sx, sy; apply rounds_exact; reflexivity.
  - apply rounds_exact; [reflexivity|]. cbn [key]. destruct sy; cbn [cond_Zopp negb]; lia.
  - apply rounds_exact; [reflexivity | cbn [key]; lia].
  - assert (Hx := proj1 (valid_finite _ _ _) Vx). assert (Hy := proj1 (valid_finite _ _ _) Vy).
    cbv zeta. set (ez := Z.min ex ey).
    destruct (normalize_rounds
      (cond_Zopp sx (Zpos (fst (shl_align mx ex ez))) -
       cond_Zopp sy (Zpos (fst (shl_align my ey ez)))) ez ltac:(lia)) as [_ R].
    rewrite Z.mul_sub_distr_r, !aligned_key in R by lia. exact R.
Qed.

(** ** Doubles that are not negative *)

Lemma shr_m_iter_nonneg (n : nat) (mrs : shr_record) :
  0 <= shr_m mrs -> 0 <= shr_m (Nat.iter n shr_1 mrs).
Proof.
  intros H. induction n as [|n IH]; [exact H|].
  rewrite Nat.iter_succ. destruct (shr_1_spec _ IH) as (-> & _).
  apply Z.div_pos; lia.
Qed.

Lemma shr_fexp_nonneg (m e : Z) (l : location) :
  0 <= m -> 0 <= shr_m (fst (shr_fexp prec emax m e l)).
Proof.
  intros Hm. unfold shr_fexp, shr.
  assert (H0 : 0 <= shr_m (shr_record_of_loc m l)).
  { destruct l as [|[| |]]; exact Hm. }
  destruct (fexp prec emax (Zdigits2 m + e) - e) as [|p|p]; cbn [fst]; try exact H0.
  rewrite iter_pos_nat. apply shr_m_iter_nonneg. exact H0.
Qed.

Lemma round_nearest_even_nonneg (m : Z) (l : location) :
  0 <= m -> 0 <= round_nearest_even m l.
Proof.
  intros Hm. destruct l as [|[| |]]; cbn [round_nearest_even]; try lia.
  destruct (Z.even m); lia.
Qed.

Lemma binary_round_aux_nonneg (m e : Z) :
  0 <= m -> sf_nonneg (binary_round_aux prec emax false m e loc_Exact).
Proof.
  intros Hm. unfold binary_round_aux.
  assert (H1 := shr_fexp_nonneg m e loc_Exact Hm).
  destruct (shr_fexp prec emax m e loc_Exact) as [mrs' e']. cbn [fst] in H1.
  assert (H2 := shr_fexp_nonneg _ e' loc_Exact
                  (round_nearest_even_nonneg _ (loc_of_shr_record mrs') H1)).
  destruct (shr_fexp prec emax _ e' loc_Exact) as [mrs'' e'']. cbn [fst] in H2.
  destruct (shr_m mrs'') as [|p|p]; [| |lia].
  - split; [reflexivity | cbn; lia].
  - destruct (e'' <=? emax - prec); split; try reflexivity; cbn [key cond_Zopp].
    + unfold scaled. assert (0 <= 2 ^ (e'' + 1074)) by (apply Z.pow_nonneg; lia). nia.
    + assert (H := huge_pos). lia.
Qed.

Lemma nonneg_cases (x : spec_float) :
  valid_binary x = true -> sf_nonneg x ->
  (exists s, x = S754_zero s) \/ x = S754_infinity false \/
  (exists m e, x = S754_finite false m e).
Proof.
  intros V [N K]. assert (Hh := huge_pos).
  destruct x as [s|s| |s m e]; try discriminate N.
  - left. eauto.
  - right. left. destruct s; [cbn in K; lia | reflexivity].
  - right. right. assert (H := scaled_lt_huge s m e V).
    destruct s; [cbn [key cond_Zopp] in K; lia | eauto].
Qed.

(** The product of a double that is not negative and a positive finite
    one is not negative, in either order. *)
Lemma SFmul_nonneg (x : spec_float) (m : positive) (e : Z) :
  valid_binary x = true -> sf_nonneg x ->
  sf_nonneg (SFmul prec emax x (S754_finite false m e)) /\
  sf_nonneg (SFmul prec emax (S754_finite false m e) x).
Proof.
  intros V H. assert (Hh := huge_pos).
  destruct (nonneg_cases x V H) as [[s ->]|[->|(mx & ex & ->)]]; cbn [SFmul xorb].
  - destruct s; split; split; try reflexivity; cbn; lia.
  - split; split; try reflexivity; cbn; lia.
  - split; apply binary_round_aux_nonneg; lia.
Qed.


(** ** The band test on binary64 *)

Lemma zero_below (R : spec_float) (v : Z) : rounds_to R v -> 0 <= v -> sf_nonneg R.
Proof.
  intros [N H] Hv. split; [exact N|].
  apply (H (S754_zero false) eq_refl eq_refl). exact Hv.
Qed.

Lemma nonneg_not_nan (x : spec_float) : sf_nonneg x -> sf_nan x = false.
Proof. intros [N _]. exact N. Qed.

(** [a - m <= a] and [b <= b + m] for finite [a], [b] and [m] not
    negative, whatever the rounding. *)
Lemma SFsub_below (A M : spec_float) :
  valid_binary A = true -> valid_binary M = true ->
  sf_finite A = true -> sf_nonneg M ->
  sf_nan (SFsub prec emax A M) = false /\ key (SFsub prec emax A M) <= key A.
Proof.
  intros VA VM FA NM. assert (Hb := key_bounds A VA FA).
  destruct (nonneg_cases M VM NM) as [[s ->]|[->|(m & e & ->)]].
  - destruct (SFsub_rounds A (S754_zero s) VA VM FA eq_refl) as [N H].
    split; [exact N|]. apply (H A VA FA). cbn [key]. lia.
  - destruct A as [sa|sa| |sa ma ea]; try discriminate FA; cbn [SFsub negb key cond_Zopp];
      (split; [reflexivity|]); cbn [key cond_Zopp] in Hb; lia.
  - destruct (SFsub_rounds A (S754_finite false m e) VA VM FA eq_refl) as [N H].
    split; [exact N|]. apply (H A VA FA). destruct NM as [_ K]. lia.
Qed.

Lemma SFadd_above (B M : spec_float) :
  valid_binary B = true -> valid_binary M = true ->
  sf_finite B = true -> sf_nonneg M ->
  sf_nan (SFadd prec emax B M) = false /\ key B <= key (SFadd prec emax B M).
Proof.
  intros VB VM FB NM. assert (Hb := key_bounds B VB FB).
  destruct (nonneg_cases M VM NM) as [[s ->]|[->|(m & e & ->)]].
  - destruct (SFadd_rounds B (S754_zero s) VB VM FB eq_refl) as [N H].
    split; [exact N|]. apply (H B VB FB). cbn [key]. lia.
  - destruct B as [sb|sb| |sb mb eb]; try discriminate FB; cbn [SFadd key cond_Zopp];
      (split; [reflexivity|]); cbn [key cond_Zopp] in Hb; lia.
  - destruct (SFadd_rounds B (S754_finite false m e) VB VM FB eq_refl) as [N H].
    split; [exact N|]. apply (H B VB FB). destruct NM as [_ K]. lia.
Qed.

Lemma finite_not_nan (x : spec_float) : sf_finite x = true -> sf_nan x = false.
Proof. destruct x; try discriminate; reflexivity. Qed.

(** A finite double between two finite doubles [a <= b] passes the band
    test with [q1 = a], [q3 = b] and [iqr = b - a]. *)
Lemma band_binary64 (a b x : float) :
  b64_finite a = true -> b64_finite b = true -> b64_finite x = true ->
  b64_key a <= b64_key x <= b64_key b ->
  let m := (1.5 * (b - a))%float in
  PrimFloat.leb (a - m) x = true /\ PrimFloat.leb x (b + m) = true.
Proof.
  intros Fa Fb Fx Hab m. unfold b64_finite, b64_key in Fa, Fb, Fx, Hab.
  assert (Va := Prim2SF_valid a). assert (Vb := Prim2SF_valid b).
  assert (Vx := Prim2SF_valid x).
  assert (Vi := Prim2SF_valid (b - a)). assert (Vm := Prim2SF_valid m).
  assert (Vlo := Prim2SF_valid (a - m)). assert (Vhi := Prim2SF_valid (b + m)).
  assert (Ei := sub_spec b a). unfold SF64sub in Ei.
  assert (Ni : sf_nonneg (Prim2SF (b - a))).
  { rewrite Ei. apply zero_below with (v := key (Prim2SF b) - key (Prim2SF a)).
    - apply SFsub_rounds; assumption.
    - lia. }
  assert (Em : Prim2SF m = SFmul prec emax (S754_finite false 6755399441055744 (-52))
                              (Prim2SF (b - a))).
  { unfold m. rewrite mul_spec. reflexivity. }
  assert (Nm : sf_nonneg (Prim2SF m)).
  { rewrite Em. apply SFmul_nonneg; assumption. }
  assert (Elo := sub_spec a m). assert (Ehi := add_spec b m).
  unfold SF64sub in Elo. unfold SF64add in Ehi.
  destruct (SFsub_below (Prim2SF a) (Prim2SF m) Va Vm Fa Nm) as [Nlo Klo].
  destruct (SFadd_above (Prim2SF b) (Prim2SF m) Vb Vm Fb Nm) as [Nhi Khi].
  rewrite <- Elo in Nlo, Klo. rewrite <- Ehi in Nhi, Khi.
  rewrite !leb_spec.
  rewrite !SFleb_key by (try assumption; apply finite_not_nan; assumption).
  split; apply Z.leb_le; lia.
Qed.

(** The order of finite doubles is that of their keys. *)
Lemma ltb_key (x y : float) :
  b64_finite x = true -> b64_finite y = true ->
  PrimFloat.ltb y x = (b64_key x >? b64_key y).
Proof.
  unfold b64_finite, b64_key. intros Fx Fy.
  rewrite ltb_spec, SFltb_key
    by (try apply Prim2SF_valid; apply finite_not_nan; assumption).
  now rewrite Z.gtb_ltb.
Qed.

(** ** Conversions between integers and binary64 *)

Lemma of_Z_spec (z : Z) :
  Prim2SF (B64.of_Z z) = binary_normalize prec emax z 0 false.
Proof.
  unfold B64.of_Z. apply Prim2SF_SF2Prim.
  apply (normalize_rounds z 0). lia.
Qed.

Lemma of_Z_rounds (z : Z) : rounds_to (Prim2SF (B64.of_Z z)) (z * 2 ^ 1074).
Proof. rewrite of_Z_spec. apply (normalize_rounds z 0). lia. Qed.

Lemma of_Z_nonneg (z : Z) : 0 <= z -> sf_nonneg (Prim2SF (B64.of_Z z)).
Proof.
  intros Hz. apply zero_below with (v := z * 2 ^ 1074); [apply of_Z_rounds|].
  assert (0 < 2 ^ 1074) by (apply Z.pow_pos_nonneg; lia). nia.
Qed.

(** The conversion of a positive integer is positive. *)
Lemma of_Z_positive (z : Z) : 1 <= z -> PrimFloat.ltb 0 (B64.of_Z z) = true.
Proof.
  intros Hz. destruct (of_Z_rounds z) as [N H].
  rewrite ltb_spec, SFltb_key by (try apply Prim2SF_valid; try assumption; reflexivity).
  apply Z.ltb_lt. change (key (Prim2SF 0)) with 0.
  specialize (H (S754_finite false 1 (-1074)) eq_refl eq_refl). destruct H as [H _].
  change (key (S754_finite false 1 (-1074))) with 1 in H.
  assert (0 < 2 ^ 1074) by (apply Z.pow_pos_nonneg; lia).
  assert (1 <= z * 2 ^ 1074) by nia. specialize (H ltac:(assumption)). lia.
Qed.

Lemma to_int_nonneg (x : float) : sf_nonneg (Prim2SF x) -> 0 <= B64.to_int x.
Proof.
  intros H. unfold B64.to_int.
  destruct (nonneg_cases _ (Prim2SF_valid x) H) as [[s ->]|[->|(m & e & ->)]]; try lia.
  cbv zeta. apply Z.shiftl_nonneg. lia.
Qed.


(** ** The conversion of unsigned long long to double is monotone *)

Lemma rne_mono_same (X Y n : Z) :
  0 <= n -> 0 <= X <= Y -> rne X n <= rne Y n.
Proof.
  intros Hn HXY.
  assert (HP : 0 < 2 ^ n) by (apply Z.pow_pos_nonneg; lia).
  destruct (rne_bounds X n Hn) as [BX _]. destruct (rne_bounds Y n Hn) as [BY _].
  assert (Hq : X / 2 ^ n <= Y / 2 ^ n) by (apply Z.div_le_mono; lia).
  destruct (Z.eq_dec (X / 2 ^ n) (Y / 2 ^ n)) as [E|E]; [|lia].
  assert (HX := Z.div_mod X (2 ^ n) ltac:(lia)).
  assert (HY := Z.div_mod Y (2 ^ n) ltac:(lia)).
  assert (Hr : X mod 2 ^ n <= Y mod 2 ^ n) by (rewrite E in HX; lia).
  unfold rne. rewrite E.
  set (P := 2 ^ n) in *. set (rX := X mod P) in *. set (rY := Y mod P) in *.
  set (q := Y / P) in *.
  destruct (Z.ltb_spec P (2 * rX)); destruct (Z.ltb_spec P (2 * rY));
  destruct (Z.eqb_spec P (2 * rX)); destruct (Z.eqb_spec P (2 * rY));
  destruct (Z.odd q); cbn [orb andb]; lia.
Qed.

Lemma digits2_mono (X Y : positive) :
  Zpos X <= Zpos Y -> Zpos (digits2_pos X) <= Zpos (digits2_pos Y).
Proof.
  intros H. destruct (digits2_bounds X) as [Xlo Xhi]. destruct (digits2_bounds Y) as [Ylo Yhi].
  destruct (Z_le_gt_dec (Zpos (digits2_pos X)) (Zpos (digits2_pos Y))) as [|Hgt]; [assumption|].
  exfalso.
  assert (2 ^ Zpos (digits2_pos Y) <= 2 ^ (Zpos (digits2_pos X) - 1))
    by (apply Z.pow_le_mono_r; lia).
  lia.
Qed.

Lemma rounded_bounds (X : positive) :
  2 ^ (Zpos (digits2_pos X) - 1) <= rounded X <= 2 ^ Zpos (digits2_pos X).
Proof.
  unfold rounded. destruct (digits2_bounds X) as [Dlo Dhi].
  destruct (dropped_cases X) as [[Hn HX]|(Hn & Hd & Hq)].
  - rewrite Hn, rne_0. change (2 ^ 0) with 1. lia.
  - set (n := dropped X) in *. set (d := Zpos (digits2_pos X)) in *.
    destruct (rne_bounds (Zpos X) n ltac:(lia)) as [Rb _].
    assert (HP : 0 < 2 ^ n) by (apply Z.pow_pos_nonneg; lia).
    assert (E1 : 2 ^ (d - 1) = 2 ^ 52 * 2 ^ n)
      by (rewrite <- Z.pow_add_r by lia; f_equal; lia).
    assert (E2 : 2 ^ d = 2 ^ 53 * 2 ^ n)
      by (rewrite <- Z.pow_add_r by lia; f_equal; lia).
    rewrite E1, E2.
    set (v := rne (Zpos X) n) in *. set (q := Zpos X / 2 ^ n) in *. set (P := 2 ^ n) in *.
    split; apply Z.mul_le_mono_nonneg_r; lia.
Qed.

Lemma rounded_mono (X Y : positive) : Zpos X <= Zpos Y -> rounded X <= rounded Y.
Proof.
  intros H. assert (Hd := digits2_mono X Y H).
  destruct (Z.eq_dec (Zpos (digits2_pos X)) (Zpos (digits2_pos Y))) as [E|E].
  - unfold rounded, dropped. rewrite E.
    set (n := Z.max (Zpos (digits2_pos Y) - 53) 0).
    assert (HP : 0 < 2 ^ n) by (apply Z.pow_pos_nonneg; lia).
    apply Z.mul_le_mono_nonneg_r; [lia|].
    apply rne_mono_same; lia.
  - destruct (rounded_bounds X) as [_ HX]. destruct (rounded_bounds Y) as [HY _].
    assert (2 ^ Zpos (digits2_pos X) <= 2 ^ (Zpos (digits2_pos Y) - 1))
      by (apply Z.pow_le_mono_r; lia).
    lia.
Qed.

Lemma of_Z_finite (c : Z) : 0 <= c < 2 ^ 64 -> b64_finite (B64.of_Z c) = true.
Proof.
  intros Hc. unfold b64_finite.
  assert (N := of_Z_nonneg c ltac:(lia)).
  destruct (nonneg_cases _ (Prim2SF_valid _) N) as [[s ->]|[E|(m & e & ->)]];
    try reflexivity.
  exfalso. destruct (of_Z_rounds c) as [_ H].
  specialize (H (S754_finite false 4503599627370496 12) eq_refl eq_refl).
  destruct H as [_ H]. rewrite E in H.
  assert (Hb := scaled_lt_huge false 4503599627370496 12 eq_refl).
  cbn [key cond_Zopp] in H.
  assert (Hs : scaled 4503599627370496 12 = 2 ^ 64 * 2 ^ 1074).
  { unfold scaled. change (Zpos 4503599627370496) with (2 ^ 52).
    rewrite <- !Z.pow_add_r by lia. reflexivity. }
  assert (0 < 2 ^ 1074) by (apply Z.pow_pos_nonneg; lia).
  rewrite Hs in H, Hb. set (u := 2 ^ 1074) in *.
  assert (c * u <= 2 ^ 64 * u) by (apply Z.mul_le_mono_nonneg_r; lia).
  specialize (H ltac:(assumption)). lia.
Qed.

Lemma of_Z_key (X : positive) :
  Zpos X < 2 ^ 64 -> b64_key (B64.of_Z (Zpos X)) = rounded X * 2 ^ 1074.
Proof.
  intros Hc. assert (F := of_Z_finite (Zpos X) ltac:(lia)).
  unfold b64_finite in F. unfold b64_key. rewrite of_Z_spec in F |- *.
  cbn [binary_normalize] in F |- *.
  destruct (binary_round_spec false X 0 ltac:(lia)) as (mf & ef & E & _ & _ & _ & HK).
  rewrite E in F |- *. destruct (ef <=? 971); [|discriminate F].
  cbn [key cond_Zopp]. rewrite HK. cbv zeta. unfold rounded.
  replace (dropped X + 0 + 1074) with (dropped X + 1074) by lia.
  assert (0 <= dropped X) by (unfold dropped; lia).
  rewrite Z.pow_add_r by lia. ring.
Qed.

Lemma of_Z_mono (c1 c2 : Z) :
  0 <= c1 <= c2 -> c2 < 2 ^ 64 ->
  b64_key (B64.of_Z c1) <= b64_key (B64.of_Z c2).
Proof.
  intros H1 H2. destruct c1 as [|X|X]; [| |lia].
  - destruct (of_Z_nonneg c2 ltac:(lia)) as [_ K]. exact K.
  - destruct c2 as [|Y|Y]; [lia| |lia].
    rewrite !of_Z_key by lia.
    assert (0 < 2 ^ 1074) by (apply Z.pow_pos_nonneg; lia).
    apply Z.mul_le_mono_nonneg_r; [lia|]. apply rounded_mono. lia.
Qed.


(** ** Samples ordered by a key *)

Lemma range_app (lo mid hi : Z) :
  lo <= mid <= hi -> range lo hi = range lo mid ++ range mid hi.
Proof.
  intros H. destruct (Z.eq_dec mid hi) as [->|Hne].
  - rewrite (range_nil hi hi) by lia. now rewrite app_nil_r.
  - rewrite (range_split lo hi mid) by lia.
    rewrite (range_cons mid hi) by lia. reflexivity.
Qed.

Lemma filter_all {A} (p : A -> bool) (l : list A) :
  (forall x, In x l -> p x = true) -> filter p l = l.
Proof.
  induction l as [|x t IH]; intros H; cbn [filter]; [reflexivity|].
  rewrite (H x (or_introl eq_refl)). f_equal. apply IH. intros y Hy. apply H. now right.
Qed.

Section KeyedSamples.
Context {D S : Type} {DD : Double D} {SS : Sample D S}.

(** The comparison of the sort is that of an integer key, on the samples
    of the array. *)
Variable k : S -> Z.
Variable times : list S.
Variable num_runs : Z.
Let f := calculate_statistics_frame times num_runs.
Let i1 := q1_index (ignore_runs f) (effective_runs f).
Let i3 := q3_index (ignore_runs f) (effective_runs f).

Hypothesis times_length : Z.of_nat (length times) = num_runs.
Hypothesis gt_key :
  forall x y, In x times -> In y times -> s_gt x y = (k x >? k y).

Lemma sorted_times_in (p : Z) :
  0 <= p < num_runs -> In (get s_default (sorted_times f) p) times.
Proof.
  intros Hp. unfold f. rewrite sorted_times_eq, sort_copy_eq by assumption.
  apply (Permutation_in _ (sort_array_perm s_gt s_default num_runs times times_length)).
  apply get_in. rewrite sort_array_length. lia.
Qed.

Lemma sorted_times_by_key (p q : Z) :
  0 <= p <= q -> q < num_runs ->
  k (get s_default (sorted_times f) p) <= k (get s_default (sorted_times f) q).
Proof.
  intros Hp Hq. destruct (Z.eq_dec p q) as [->|Hne]; [lia|].
  unfold f. rewrite sorted_times_eq, sort_copy_eq by assumption.
  assert (E := sort_array_map k s_gt Z.gtb s_default (k s_default) num_runs times
                 times_length
                 (fun x y Hx Hy => eq_sym (gt_key x y Hx Hy))).
  assert (H := sort_array_sorted Z.gtb (k s_default) Zgtb_asym Zgtb_le_trans num_runs
                 (map k times) ltac:(rewrite length_map; exact times_length)
                 p q ltac:(lia) Hq).
  rewrite E in H.
  rewrite !(get_map k s_default (k s_default)) in H
    by (rewrite sort_array_length; lia).
  rewrite Z.gtb_ltb, Z.ltb_ge in H. exact H.
Qed.

Hypothesis ignore_nonneg : 0 <= ignore_runs f.
Hypothesis window_not_empty : 1 <= effective_runs f.

Lemma keyed_indices :
  0 <= ignore_runs f <= i1 /\ i1 <= i3 /\ i3 < num_runs - ignore_runs f.
Proof.
  assert (H := quartile_indices_window num_runs (ignore_runs f) ignore_nonneg
                 window_not_empty).
  destruct H as (_ & _ & A & B & C). auto.
Qed.

(** Whatever lies between the two quartile samples passes the band
    test. *)
Hypothesis band :
  forall a b x, In a times -> In b times -> In x times ->
    k a <= k x <= k b ->
    in_band (s_double a) (s_double b) (d_sub (s_double b) (s_double a)) x = true.

Lemma interquartile_in_band (p : Z) :
  i1 <= p <= i3 ->
  in_band (q1 f) (q3 f) (iqr f) (get s_default (sorted_times f) p) = true.
Proof.
  intros Hp. destruct keyed_indices as (A & B & C).
  refine (band (get s_default (sorted_times f) i1) (get s_default (sorted_times f) i3)
            (get s_default (sorted_times f) p) _ _ _ _);
    try (apply sorted_times_in; lia).
  split; apply sorted_times_by_key; lia.
Qed.

Lemma interquartile_valid : i3 - i1 + 1 <= valid_runs f.
Proof.
  destruct keyed_indices as (A & B & C).
  unfold f. rewrite valid_runs_eq. fold f. unfold valid_set, window.
  rewrite length_map.
  rewrite (range_app (ignore_runs f) i1 (num_runs - ignore_runs f)) by lia.
  rewrite (range_app i1 (i3 + 1) (num_runs - ignore_runs f)) by lia.
  rewrite !map_app, !filter_app, !length_app.
  rewrite (filter_all _ (map _ (range i1 (i3 + 1)))).
  - rewrite length_map, range_length. lia.
  - intros x Hx. apply in_map_iff in Hx. destruct Hx as (p & <- & Hp).
    apply in_range in Hp. apply interquartile_in_band. lia.
Qed.
End KeyedSamples.


(** ** calculate_statistics on binary64 *)

Lemma ignore_count_nonneg (n : Z) : 0 <= n -> 0 <= ignore_count (DD := binary64) n.
Proof.
  intros Hn. unfold ignore_count. cbn [d_to_int d_mul d_of_Z IGNORE_PERCENTAGE binary64].
  apply to_int_nonneg. rewrite mul_spec. unfold SF64mul.
  set (c := Prim2SF 0x1.999999999999ap-3). vm_compute in c. subst c.
  apply SFmul_nonneg; [apply Prim2SF_valid | apply of_Z_nonneg; exact Hn].
Qed.

Lemma leb_key (x y : float) :
  b64_finite x = true -> b64_finite y = true ->
  PrimFloat.leb x y = (b64_key x <=? b64_key y).
Proof.
  unfold b64_finite, b64_key. intros Fx Fy.
  rewrite leb_spec, SFleb_key
    by (try apply Prim2SF_valid; apply finite_not_nan; assumption).
  reflexivity.
Qed.

Lemma times_gt_key (times : list float) :
  Forall (fun x => b64_finite x = true) times ->
  forall x y, In x times -> In y times ->
    s_gt (Sample := b64_times) x y = (b64_key x >? b64_key y).
Proof.
  intros Hf x y Hx Hy. rewrite Forall_forall in Hf.
  cbn [s_gt b64_times time_sample d_gt binary64].
  apply ltb_key; apply Hf; assumption.
Qed.

Lemma times_band (times : list float) :
  Forall (fun x => b64_finite x = true) times ->
  forall a b x, In a times -> In b times -> In x times ->
    b64_key a <= b64_key x <= b64_key b ->
    in_band (SS := b64_times) a b (d_sub b a) x = true.
Proof.
  intros Hf a b x Ha Hb Hx Hk. rewrite Forall_forall in Hf.
  destruct (band_binary64 a b x (Hf a Ha) (Hf b Hb) (Hf x Hx) Hk) as [L H].
  unfold in_band. cbn [s_double b64_times time_sample d_ge d_le d_sub d_add d_mul
                       IQR_MULTIPLIER binary64].
  cbv zeta in L, H. rewrite L, H. reflexivity.
Qed.

Lemma cycles_band (cycles : list Z) :
  Forall (fun c => 0 <= c < 2 ^ 64) cycles ->
  forall a b x, In a cycles -> In b cycles -> In x cycles ->
    a <= x <= b ->
    in_band (SS := b64_cycles) (B64.of_Z a) (B64.of_Z b)
      (d_sub (B64.of_Z b) (B64.of_Z a)) x = true.
Proof.
  intros Hf a b x Ha Hb Hx Hk. rewrite Forall_forall in Hf.
  assert (Ra := Hf a Ha). assert (Rb := Hf b Hb). assert (Rx := Hf x Hx). cbv beta in Ra, Rb, Rx.
  destruct (band_binary64 (B64.of_Z a) (B64.of_Z b) (B64.of_Z x)
              (of_Z_finite a Ra) (of_Z_finite b Rb) (of_Z_finite x Rx)) as [L H].
  { split; apply of_Z_mono; lia. }
  unfold in_band. cbn [s_double b64_cycles cycle_sample d_ge d_le d_sub d_add d_mul d_of_Z
                       IQR_MULTIPLIER binary64].
  cbv zeta in L, H. rewrite L, H. reflexivity.
Qed.

(** For finite samples everything between the two quartile indices of the
    sorted copy passes the band test, in the arithmetic of the compiled
    program. *)
Lemma finite_times_interquartile_valid (times : list float) (num_runs : Z) :
  let f := calculate_statistics_frame (SS := b64_times) times num_runs in
  let i1 := q1_index (ignore_runs f) (effective_runs f) in
  let i3 := q3_index (ignore_runs f) (effective_runs f) in
  Z.of_nat (length times) = num_runs ->
  Forall (fun x => b64_finite x = true) times ->
  1 <= effective_runs f ->
  (forall p, i1 <= p <= i3 ->
     in_band (q1 f) (q3 f) (iqr f) (get 0%float (sorted_times f) p) = true) /\
  i3 - i1 + 1 <= valid_runs f /\
  PrimFloat.ltb 0 (d_of_Z (valid_runs f)) = true.
Proof.
  intros f i1 i3 Hl Hf He.
  assert (Hig : 0 <= ignore_runs f) by (apply ignore_count_nonneg; lia).
  assert (Hi := keyed_indices (SS := b64_times) times num_runs Hig He).
  assert (V := interquartile_valid (SS := b64_times) b64_key times num_runs Hl
                 (times_gt_key times Hf) Hig He (times_band times Hf)).
  split; [|split].
  - intros p Hp.
    exact (interquartile_in_band (SS := b64_times) b64_key times num_runs Hl
             (times_gt_key times Hf) Hig He (times_band times Hf) p Hp).
  - exact V.
  - apply of_Z_positive. fold f i1 i3 in Hi, V. lia.
Qed.

Lemma cycles_interquartile_valid (cycles : list Z) (num_runs : Z) :
  let f := calculate_statistics_frame (SS := b64_cycles) cycles num_runs in
  let i1 := q1_index (ignore_runs f) (effective_runs f) in
  let i3 := q3_index (ignore_runs f) (effective_runs f) in
  Z.of_nat (length cycles) = num_runs ->
  Forall (fun c => 0 <= c < 2 ^ 64) cycles ->
  1 <= effective_runs f ->
  (forall p, i1 <= p <= i3 ->
     in_band (q1 f) (q3 f) (iqr f) (get 0 (sorted_times f) p) = true) /\
  i3 - i1 + 1 <= valid_runs f /\
  PrimFloat.ltb 0 (d_of_Z (valid_runs f)) = true.
Proof.
  intros f i1 i3 Hl Hf He.
  assert (Hig : 0 <= ignore_runs f) by (apply ignore_count_nonneg; lia).
  assert (Hi := keyed_indices (SS := b64_cycles) cycles num_runs Hig He).
  assert (G : forall x y, In x cycles -> In y cycles ->
                s_gt (Sample := b64_cycles) x y = (x >? y)) by reflexivity.
  assert (V := interquartile_valid (SS := b64_cycles) (fun c => c) cycles num_runs Hl
                 G Hig He (cycles_band cycles Hf)).
  split; [|split].
  - intros p Hp.
    exact (interquartile_in_band (SS := b64_cycles) (fun c => c) cycles num_runs Hl
             G Hig He (cycles_band cycles Hf) p Hp).
  - exact V.
  - apply of_Z_positive. fold f i1 i3 in Hi, V. lia.
Qed.


(** ** Operations that do not produce a NaN *)

Lemma binary_round_aux_sign (s : bool) (m e : Z) (l : location) :
  0 <= m ->
  binary_round_aux prec emax s m e l = S754_zero s \/
  binary_round_aux prec emax s m e l = S754_infinity s \/
  exists m' e', binary_round_aux prec emax s m e l = S754_finite s m' e'.
Proof.
  intros Hm. unfold binary_round_aux.
  assert (H1 := shr_fexp_nonneg m e l Hm).
  destruct (shr_fexp prec emax m e l) as [mrs' e']. cbn [fst] in H1.
  assert (H2 := shr_fexp_nonneg _ e' loc_Exact
                  (round_nearest_even_nonneg _ (loc_of_shr_record mrs') H1)).
  destruct (shr_fexp prec emax _ e' loc_Exact) as [mrs'' e'']. cbn [fst] in H2.
  destruct (shr_m mrs'') as [|p|p]; [| |lia].
  - left. reflexivity.
  - destruct (e'' <=? emax - prec); [right; right; eauto | right; left; reflexivity].
Qed.

Lemma binary_round_aux_not_nan (s : bool) (m e : Z) (l : location) :
  0 <= m -> sf_nan (binary_round_aux prec emax s m e l) = false.
Proof.
  intros Hm. destruct (binary_round_aux_sign s m e l Hm) as [->|[->|(m' & e' & ->)]];
    reflexivity.
Qed.

Lemma binary_round_aux_nonneg_loc (m e : Z) (l : location) :
  0 <= m -> sf_nonneg (binary_round_aux prec emax false m e l).
Proof.
  intros Hm. assert (Hh := huge_pos).
  destruct (binary_round_aux_sign false m e l Hm) as [->|[->|(m' & e' & ->)]];
    (split; [reflexivity|]); cbn [key cond_Zopp]; try lia.
  unfold scaled. assert (0 <= 2 ^ (e' + 1074)) by (apply Z.pow_nonneg; lia). nia.
Qed.

Lemma SFadd_not_nan (a x : spec_float) :
  valid_binary a = true -> valid_binary x = true ->
  sf_nan a = false -> sf_finite x = true ->
  sf_nan (SFadd prec emax a x) = false.
Proof.
  intros Va Vx Na Fx.
  destruct (sf_finite a) eqn:Fa.
  - apply (SFadd_rounds a x Va Vx Fa Fx).
  - destruct a as [s|s| |s m e]; try discriminate.
    destruct x as [sx|sx| |sx mx ex]; try discriminate; reflexivity.
Qed.

Lemma SFsub_not_nan (x a : spec_float) :
  valid_binary x = true -> valid_binary a = true ->
  sf_finite x = true -> sf_nan a = false ->
  sf_nan (SFsub prec emax x a) = false.
Proof.
  intros Vx Va Fx Na.
  destruct (sf_finite a) eqn:Fa.
  - apply (SFsub_rounds x a Vx Va Fx Fa).
  - destruct a as [s|s| |s m e]; try discriminate.
    destruct x as [sx|sx| |sx mx ex]; try discriminate; reflexivity.
Qed.

Lemma SFmul_self_nonneg (d : spec_float) :
  sf_nan d = false -> sf_nonneg (SFmul prec emax d d).
Proof.
  intros N. assert (Hh := huge_pos).
  destruct d as [s|s| |s m e]; try discriminate; cbn [SFmul].
  - split; [reflexivity | cbn; lia].
  - destruct s; split; try reflexivity; cbn; lia.
  - destruct s; cbn [xorb]; apply binary_round_aux_nonneg_loc; lia.
Qed.

Lemma SFadd_nonneg (a b : spec_float) :
  valid_binary a = true -> valid_binary b = true ->
  sf_nonneg a -> sf_nonneg b -> sf_nonneg (SFadd prec emax a b).
Proof.
  intros Va Vb Na Nb.
  destruct (sf_finite a) eqn:Fa; destruct (sf_finite b) eqn:Fb.
  - apply zero_below with (v := key a + key b).
    + apply SFadd_rounds; assumption.
    + destruct Na as [_ Ka], Nb as [_ Kb]. lia.
  - destruct (nonneg_cases b Vb Nb) as [[s ->]|[->|(m & e & ->)]]; try discriminate Fb.
    destruct a as [sa|sa| |sa ma ea]; try discriminate Fa; exact Nb.
  - destruct (nonneg_cases a Va Na) as [[s ->]|[->|(m & e & ->)]]; try discriminate Fa.
    destruct b as [sb|sb| |sb mb eb]; try discriminate Fb; exact Na.
  - destruct (nonneg_cases a Va Na) as [[s ->]|[->|(m & e & ->)]]; try discriminate Fa.
    destruct (nonneg_cases b Vb Nb) as [[s ->]|[->|(m & e & ->)]]; try discriminate Fb.
    exact Na.
Qed.

Lemma div_eucl_nonneg (a b : Z) :
  0 <= a -> 0 < b -> 0 <= fst (Z.div_eucl a b).
Proof.
  intros Ha Hb. change (fst (Z.div_eucl a b)) with (a / b). apply Z.div_pos; lia.
Qed.

Lemma SFdiv_core_nonneg (m1 m2 : positive) (e1 e2 : Z) :
  0 <= fst (fst (SFdiv_core_binary prec emax (Zpos m1) e1 (Zpos m2) e2)).
Proof.
  unfold SFdiv_core_binary. cbv zeta.
  set (s := e1 - e2 - _).
  set (m' := match s with 0 => Zpos m1 | Zpos _ => Z.shiftl (Zpos m1) s | Zneg _ => 0 end).
  assert (Hm : 0 <= m').
  { unfold m'. destruct s; try lia. apply Z.shiftl_nonneg. lia. }
  assert (H := div_eucl_nonneg m' (Zpos m2) Hm ltac:(lia)).
  destruct (Z.div_eucl m' (Zpos m2)) as [q r]. exact H.
Qed.

Lemma SFdiv_not_nan (a : spec_float) (s : bool) (m : positive) (e : Z) :
  sf_nan a = false -> sf_nan (SFdiv prec emax a (S754_finite s m e)) = false.
Proof.
  intros Na. destruct a as [sa|sa| |sa ma ea]; try discriminate; cbn [SFdiv];
    try reflexivity.
  assert (H := SFdiv_core_nonneg ma m ea e).
  destruct (SFdiv_core_binary prec emax (Zpos ma) ea (Zpos m) e) as [[mz ez] lz].
  apply binary_round_aux_not_nan. exact H.
Qed.

Lemma SFdiv_nonneg (a : spec_float) (m : positive) (e : Z) :
  valid_binary a = true -> sf_nonneg a ->
  sf_nonneg (SFdiv prec emax a (S754_finite false m e)).
Proof.
  intros Va Na. assert (Hh := huge_pos).
  destruct (nonneg_cases a Va Na) as [[s ->]|[->|(ma & ea & ->)]]; cbn [SFdiv xorb].
  - split; [reflexivity | cbn; lia].
  - split; [reflexivity | cbn; lia].
  - assert (H := SFdiv_core_nonneg ma m ea e).
    destruct (SFdiv_core_binary prec emax (Zpos ma) ea (Zpos m) e) as [[mz ez] lz].
    apply binary_round_aux_nonneg_loc. exact H.
Qed.

Lemma SFsqrt_core_nonneg (m : positive) (e : Z) :
  0 <= fst (fst (SFsqrt_core_binary prec emax (Zpos m) e)).
Proof.
  unfold SFsqrt_core_binary. cbv zeta.
  set (s := e - 2 * _).
  set (m' := match s with 0 => Zpos m | Zpos _ => Z.shiftl (Zpos m) s | Zneg _ => 0 end).
  assert (H := Z.sqrtrem_sqrt m'). assert (Hs := Z.sqrt_nonneg m').
  destruct (Z.sqrtrem m') as [q r]. cbn [fst] in H |- *. lia.
Qed.

Lemma SFsqrt_not_nan (a : spec_float) :
  valid_binary a = true -> sf_nonneg a -> sf_nan (SFsqrt prec emax a) = false.
Proof.
  intros Va Na.
  destruct (nonneg_cases a Va Na) as [[s ->]|[->|(ma & ea & ->)]]; cbn [SFsqrt];
    try reflexivity.
  assert (H := SFsqrt_core_nonneg ma ea).
  destruct (SFsqrt_core_binary prec emax (Zpos ma) ea) as [[mz ez] lz].
  apply binary_round_aux_not_nan. exact H.
Qed.

(** ** Mean and standard deviation of finite doubles *)

Lemma of_Z_count (v : Z) :
  1 <= v < 2 ^ 64 -> exists m e, Prim2SF (B64.of_Z v) = S754_finite false m e.
Proof.
  intros Hv. assert (F := of_Z_finite v ltac:(lia)). assert (P := of_Z_positive v ltac:(lia)).
  assert (N := of_Z_nonneg v ltac:(lia)).
  destruct (nonneg_cases _ (Prim2SF_valid _) N) as [[s E]|[E|(m & e & E)]].
  - exfalso. rewrite ltb_spec, E in P. cbn in P. discriminate.
  - exfalso. unfold b64_finite in F. rewrite E in F. discriminate.
  - eauto.
Qed.

Lemma sum_not_nan (l : list float) (acc : float) :
  Forall (fun x => b64_finite x = true) l -> b64_nan acc = false ->
  b64_nan (fold_left PrimFloat.add l acc) = false.
Proof.
  revert acc. induction l as [|x t IH]; intros acc Hf Ha; [exact Ha|].
  inversion Hf as [|? ? Hx Ht]; subst. cbn [fold_left]. apply IH; [assumption|].
  unfold b64_nan. rewrite add_spec. apply SFadd_not_nan; try apply Prim2SF_valid; assumption.
Qed.

Lemma sum_sq_nonneg (l : list float) (m acc : float) :
  Forall (fun x => b64_finite x = true) l -> b64_nan m = false ->
  sf_nonneg (Prim2SF acc) ->
  sf_nonneg (Prim2SF (fold_left (fun acc x => acc + (x - m) * (x - m))%float l acc)).
Proof.
  revert acc. induction l as [|x t IH]; intros acc Hf Hm Ha; [exact Ha|].
  inversion Hf as [|? ? Hx Ht]; subst. cbn [fold_left]. apply IH; try assumption.
  rewrite add_spec. apply SFadd_nonneg; try apply Prim2SF_valid; [assumption|].
  rewrite mul_spec. apply SFmul_self_nonneg.
  rewrite sub_spec. apply SFsub_not_nan; try apply Prim2SF_valid; assumption.
Qed.

Lemma population_mean_not_nan (l : list float) :
  Forall (fun x => b64_finite x = true) l ->
  1 <= Z.of_nat (length l) < 2 ^ 64 ->
  b64_nan (population_mean (DD := binary64) l) = false.
Proof.
  intros Hf Hl. unfold population_mean.
  cbn [d_div d_add d_of_Z d_zero binary64]. unfold b64_nan. rewrite div_spec.
  destruct (of_Z_count _ Hl) as (m & e & ->).
  apply SFdiv_not_nan. apply sum_not_nan; [assumption | reflexivity].
Qed.

Lemma population_std_dev_not_nan (l : list float) :
  Forall (fun x => b64_finite x = true) l ->
  1 <= Z.of_nat (length l) < 2 ^ 64 ->
  b64_nan (population_std_dev (DD := binary64) l) = false.
Proof.
  intros Hf Hl. unfold population_std_dev. cbv zeta.
  cbn [d_sqrt d_div d_add d_mul d_sub d_of_Z d_zero binary64].
  unfold b64_nan. rewrite sqrt_spec. apply SFsqrt_not_nan; [apply Prim2SF_valid|].
  rewrite div_spec. destruct (of_Z_count _ Hl) as (m & e & ->).
  apply SFdiv_nonneg; [apply Prim2SF_valid|].
  apply sum_sq_nonneg; [assumption | apply population_mean_not_nan; assumption|].
  split; [reflexivity | cbn; lia].
Qed.


(** ** The number of valid runs *)

Lemma filter_length_le {A} (p : A -> bool) (l : list A) :
  (length (filter p l) <= length l)%nat.
Proof.
  induction l as [|x t IH]; cbn [filter length]; [lia|].
  destruct (p x); cbn [length]; lia.
Qed.

(** The count of valid runs is between 0 and the size of the window. *)
Lemma valid_runs_bounds {D S} {DD : Double D} {SS : Sample D S}
    (times : list S) (num_runs : Z) :
  let f := calculate_statistics_frame times num_runs in
  0 <= valid_runs f <= Z.max 0 (effective_runs f).
Proof.
  intros f. unfold f. rewrite valid_runs_eq. fold f. unfold valid_set, window.
  rewrite length_map.
  assert (H := filter_length_le (in_band (q1 f) (q3 f) (iqr f))
                 (map (get s_default (sorted_times f))
                    (range (ignore_runs f) (num_runs - ignore_runs f)))).
  rewrite length_map, range_length in H.
  change (effective_runs f) with (num_runs - 2 * ignore_runs f). lia.
Qed.

Lemma valid_set_finite (times : list float) (num_runs : Z) :
  let f := calculate_statistics_frame (SS := b64_times) times num_runs in
  Z.of_nat (length times) = num_runs ->
  Forall (fun x => b64_finite x = true) times ->
  Forall (fun x => b64_finite x = true) (valid_set f num_runs).
Proof.
  intros f Hl Hf. assert (Hig : 0 <= ignore_runs f) by (apply ignore_count_nonneg; lia).
  rewrite Forall_forall in Hf |- *. intros x Hx.
  unfold valid_set in Hx. apply in_map_iff in Hx. destruct Hx as (y & <- & Hy).
  apply filter_In in Hy. destruct Hy as [Hy _].
  unfold window in Hy. apply in_map_iff in Hy. destruct Hy as (p & <- & Hp).
  apply in_range in Hp. apply Hf.
  apply (sorted_times_in (SS := b64_times) times num_runs Hl). lia.
Qed.

Lemma valid_set_cycles_finite (cycles : list Z) (num_runs : Z) :
  let f := calculate_statistics_frame (SS := b64_cycles) cycles num_runs in
  Z.of_nat (length cycles) = num_runs ->
  Forall (fun c => 0 <= c < 2 ^ 64) cycles ->
  Forall (fun x => b64_finite x = true) (valid_set f num_runs).
Proof.
  intros f Hl Hf. assert (Hig : 0 <= ignore_runs f) by (apply ignore_count_nonneg; lia).
  rewrite Forall_forall in Hf |- *. intros x Hx.
  unfold valid_set in Hx. apply in_map_iff in Hx. destruct Hx as (y & <- & Hy).
  apply filter_In in Hy. destruct Hy as [Hy _].
  unfold window in Hy. apply in_map_iff in Hy. destruct Hy as (p & <- & Hp).
  apply in_range in Hp. apply of_Z_finite. apply Hf.
  apply (sorted_times_in (SS := b64_cycles) cycles num_runs Hl). lia.
Qed.

(** X6.  For finite samples and a window that is not empty, the double version
    never returns a NaN: neither the mean nor the standard deviation. *)
Theorem finite_times_statistics_not_nan (times : list float) (num_runs : Z) :
  let f := calculate_statistics_frame (SS := b64_times) times num_runs in
  Z.of_nat (length times) = num_runs ->
  num_runs <= INT_MAX ->
  Forall (fun x => b64_finite x = true) times ->
  1 <= effective_runs f ->
  b64_nan (mean f) = false /\ b64_nan (std_dev f) = false.
Proof.
  intros f Hl Hn Hf He.
  destruct (finite_times_interquartile_valid times num_runs Hl Hf He) as (_ & V & _).
  assert (Hig : 0 <= ignore_runs f) by (apply ignore_count_nonneg; lia).
  assert (Hi := keyed_indices (SS := b64_times) times num_runs Hig He).
  assert (B := valid_runs_bounds (SS := b64_times) times num_runs).
  cbv zeta in V, B. fold f in V, B, Hi.
  assert (Hv : 1 <= Z.of_nat (length (valid_set f num_runs)) < 2 ^ 64).
  { unfold f. rewrite <- valid_runs_eq. fold f.
    change (effective_runs f) with (num_runs - 2 * ignore_runs f) in B.
    unfold INT_MAX in Hn. change (2 ^ 64) with 18446744073709551616. lia. }
  assert (Fv := valid_set_finite times num_runs Hl Hf). cbv zeta in Fv. fold f in Fv.
  unfold f. rewrite mean_population, std_dev_population. fold f.
  split; [apply population_mean_not_nan | apply population_std_dev_not_nan]; assumption.
Qed.

(** X7.  For every array of unsigned long long samples and a window that is
    not empty, the cycles version never returns a NaN. *)
Theorem cycles_statistics_not_nan (cycles : list Z) (num_runs : Z) :
  let f := calculate_statistics_frame (SS := b64_cycles) cycles num_runs in
  Z.of_nat (length cycles) = num_runs ->
  num_runs <= INT_MAX ->
  Forall (fun c => 0 <= c < 2 ^ 64) cycles ->
  1 <= effective_runs f ->
  b64_nan (mean f) = false /\ b64_nan (std_dev f) = false.
Proof.
  intros f Hl Hn Hf He.
  destruct (cycles_interquartile_valid cycles num_runs Hl Hf He) as (_ & V & _).
  assert (Hig : 0 <= ignore_runs f) by (apply ignore_count_nonneg; lia).
  assert (Hi := keyed_indices (SS := b64_cycles) cycles num_runs Hig He).
  assert (B := valid_runs_bounds (SS := b64_cycles) cycles num_runs).
  cbv zeta in V, B. fold f in V, B, Hi.
  assert (Hv : 1 <= Z.of_nat (length (valid_set f num_runs)) < 2 ^ 64).
  { unfold f. rewrite <- valid_runs_eq. fold f.
    change (effective_runs f) with (num_runs - 2 * ignore_runs f) in B.
    unfold INT_MAX in Hn. change (2 ^ 64) with 18446744073709551616. lia. }
  assert (Fv := valid_set_cycles_finite cycles num_runs Hl Hf). cbv zeta in Fv. fold f in Fv.
  unfold f. rewrite mean_population, std_dev_population. fold f.
  split; [apply population_mean_not_nan | apply population_std_dev_not_nan]; assumption.
Qed.


(** ** The sorted copy *)

(** X2.  The two nested loops of the cycles version sort: the array that the
    statistics are read from is a permutation of the caller's array in
    ascending order. *)
Theorem cycles_sorted_copy {D} {DD : Double D} (cycles : list Z) (num_runs : Z) :
  Z.of_nat (length cycles) = num_runs ->
  let sorted := sorted_times (calculate_statistics_frame (SS := cycle_sample DD) cycles num_runs) in
  Permutation sorted cycles /\ StronglySorted Z.le sorted.
Proof.
  intros Hl sorted. unfold sorted. rewrite sorted_times_eq, sort_copy_eq by assumption.
  split.
  - apply sort_array_perm. assumption.
  - apply sort_array_Z_sorted. assumption.
Qed.

(** X3.  The two nested loops of the double version sort finite samples in
    binary64: the sorted copy is a permutation of the caller's array and
    [sorted_times[p] <= sorted_times[q]] for all [p <= q]. *)
Theorem finite_times_sorted_copy (times : list float) (num_runs : Z) :
  Z.of_nat (length times) = num_runs ->
  Forall (fun x => b64_finite x = true) times ->
  let sorted := sorted_times (calculate_statistics_frame (SS := b64_times) times num_runs) in
  Permutation sorted times /\
  forall p q, 0 <= p <= q -> q < num_runs ->
    PrimFloat.leb (get 0%float sorted p) (get 0%float sorted q) = true.
Proof.
  intros Hl Hf sorted. split.
  - unfold sorted. rewrite sorted_times_eq, sort_copy_eq by assumption.
    apply sort_array_perm. assumption.
  - intros p q Hp Hq. rewrite Forall_forall in Hf.
    assert (Ip := sorted_times_in (SS := b64_times) times num_runs Hl p ltac:(lia)).
    assert (Iq := sorted_times_in (SS := b64_times) times num_runs Hl q ltac:(lia)).
    unfold sorted. rewrite leb_key by (apply Hf; assumption).
    apply Z.leb_le.
    apply (sorted_times_by_key (SS := b64_times) b64_key times num_runs Hl
             (times_gt_key times (proj2 (Forall_forall _ _) Hf)) p q Hp Hq).
Qed.

(** X4.  The statistics of the cycles version do not depend on the order in
    which the samples arrive: every local variable of the function has the
    same final value for two arrays that are permutations of each other. *)
Theorem cycles_order_independent {D} {DD : Double D} (cycles cycles' : list Z)
    (num_runs : Z) :
  Z.of_nat (length cycles) = num_runs ->
  Permutation cycles cycles' ->
  calculate_statistics_frame (SS := cycle_sample DD) cycles' num_runs =
  calculate_statistics_frame (SS := cycle_sample DD) cycles num_runs.
Proof.
  intros Hl Hp.
  assert (Hl' : Z.of_nat (length cycles') = num_runs)
    by (rewrite <- (Permutation_length Hp); exact Hl).
  unfold calculate_statistics_frame. f_equal.
  rewrite !sort_copy_eq by assumption.
  cbn [s_gt s_default cycle_sample].
  rewrite <- Hl' at 1. rewrite <- Hl at 1.
  rewrite (sort_array_Z_unique (sort_array Z.gtb 0 (Z.of_nat (length cycles)) cycles) cycles').
  - reflexivity.
  - apply sort_array_Z_sorted. reflexivity.
  - rewrite sort_array_perm by reflexivity. now apply Permutation_sym.
Qed.

(** ** What the three loops compute *)

(** X1.  In any arithmetic and for both sample types, the three loops of
    calculate_statistics compute the statistics of the valid set: valid_runs
    is its size, the mean is its sum divided by its size and the standard
    deviation is the square root of its mean squared deviation from that mean
    (the population standard deviation). *)
Theorem statistics_of_valid_set {D S} {DD : Double D} {SS : Sample D S}
    (times : list S) (num_runs : Z) :
  let f := calculate_statistics_frame times num_runs in
  let vs := valid_set f num_runs in
  valid_runs f = Z.of_nat (length vs) /\
  calculate_statistics times num_runs = (population_mean vs, population_std_dev vs).
Proof.
  intros f vs. split; [apply valid_runs_eq|].
  unfold calculate_statistics. cbv zeta. fold f.
  unfold f, vs. now rewrite mean_population, std_dev_population.
Qed.


(** ** Products of normal doubles *)

Lemma binary_round_long (s : bool) (X : positive) (e : Z) :
  53 <= Zpos (digits2_pos X) ->
  binary_round_aux prec emax s (Zpos X) e loc_Exact = binary_round prec emax s X e.
Proof.
  intros Hd. unfold binary_round. rewrite fexp64. unfold shl_align.
  destruct (Z.max (Zpos (digits2_pos X) + e - 53) (-1074) - e) as [|p|p] eqn:E;
    try reflexivity.
  lia.
Qed.

Lemma SFmul_rounds (sx sy : bool) (mx my : positive) (ex ey : Z) :
  2 ^ 52 <= Zpos mx -> 2 ^ 52 <= Zpos my -> -1074 <= ex + ey ->
  rounds_to (SFmul prec emax (S754_finite sx mx ex) (S754_finite sy my ey))
    (cond_Zopp (xorb sx sy) (Zpos mx * Zpos my * 2 ^ (ex + ey + 1074))).
Proof.
  intros Hx Hy He. cbn [SFmul].
  assert (Hd : 53 <= Zpos (digits2_pos (mx * my))).
  { destruct (digits2_bounds (mx * my)) as [_ Hhi].
    destruct (Z_le_gt_dec 53 (Zpos (digits2_pos (mx * my)))) as [|Hlt]; [assumption|].
    exfalso.
    assert (2 ^ Zpos (digits2_pos (mx * my)) <= 2 ^ 52) by (apply Z.pow_le_mono_r; lia).
    rewrite Pos2Z.inj_mul in Hhi.
    change (2 ^ 52) with 4503599627370496 in *. nia. }
  rewrite binary_round_long by exact Hd.
  destruct (round_rounds (xorb sx sy) (mx * my) (ex + ey) He) as [_ R].
  rewrite Pos2Z.inj_mul in R. exact R.
Qed.

(** ** The range of the chart of the cycles *)

Lemma max_loop (g : Z -> Z) (lo hi : Z) :
  let m := for_loop lo hi (fun i m => if g i >? m then g i else m) 0 in
  (forall i, lo <= i < hi -> g i <= m) /\ 0 <= m /\
  (m = 0 \/ exists i, lo <= i < hi /\ m = g i).
Proof.
  intros m. destruct (Z_le_gt_dec lo hi) as [Hle|Hgt].
  - pose (Inv := fun (j : Z) (m : Z) =>
      (forall i, lo <= i < j -> g i <= m) /\ 0 <= m /\
      (m = 0 \/ exists i, lo <= i < hi /\ m = g i)).
    assert (H : Inv hi m).
    { apply for_loop_inv; [exact Hle | |].
      - unfold Inv. split; [intros; lia|]. split; [lia | now left].
      - intros j s Hj (A & B & C). unfold Inv.
        destruct (Z.gtb_spec (g j) s) as [Hgt|Hle'].
        + split; [|split; [lia|]].
          * intros i Hi. destruct (Z.eq_dec i j) as [->|Hne]; [lia|].
            specialize (A i ltac:(lia)). lia.
          * right. exists j. split; [lia | reflexivity].
        + split; [|split; assumption].
          intros i Hi. destruct (Z.eq_dec i j) as [->|Hne]; [lia|]. apply A. lia. }
    destruct H as (A & B & C). auto.
  - unfold m. rewrite for_loop_nil by lia. split; [intros; lia|]. split; [lia | now left].
Qed.

Lemma get_Forall {A} (P : A -> Prop) (d : A) (l : list A) (i : Z) :
  Forall P l -> P d -> P (get d l i).
Proof.
  intros Hl Hd. unfold get. destruct (nth_in_or_default (Z.to_nat i) l d) as [H | ->].
  - rewrite Forall_forall in Hl. now apply Hl.
  - exact Hd.
Qed.

Lemma of_Z_normal (c : Z) :
  1 <= c < 2 ^ 64 ->
  exists m e, Prim2SF (B64.of_Z c) = S754_finite false m e /\
              2 ^ 52 <= Zpos m /\ -52 <= e.
Proof.
  intros Hc. destruct (of_Z_count c Hc) as (m & e & E). exists m, e.
  split; [exact E|].
  assert (V := Prim2SF_valid (B64.of_Z c)). rewrite E in V.
  apply valid_finite in V. destruct V as (He & Hm & Hn).
  destruct (of_Z_rounds c) as [_ R].
  specialize (R (S754_finite false 4503599627370496 (-52)) eq_refl eq_refl).
  destruct R as [R _]. rewrite E in R. cbn [key cond_Zopp] in R.
  assert (Hs : scaled 4503599627370496 (-52) = 2 ^ 1074).
  { unfold scaled. change (Zpos 4503599627370496) with (2 ^ 52).
    rewrite <- Z.pow_add_r by lia. reflexivity. }
  assert (H1 : 0 < 2 ^ 1074) by (apply Z.pow_pos_nonneg; lia).
  rewrite Hs in R. specialize (R ltac:(nia)).
  assert (He52 : -52 <= e).
  { destruct (Z_le_gt_dec (-52) e) as [|Hlt]; [assumption|]. exfalso.
    unfold scaled in R.
    assert (2 ^ (e + 1074) <= 2 ^ 1021) by (apply Z.pow_le_mono_r; lia).
    assert (H2 : 2 ^ 1074 = 2 ^ 53 * 2 ^ 1021) by (rewrite <- Z.pow_add_r by lia; reflexivity).
    assert (0 < 2 ^ (e + 1074)) by (apply Z.pow_pos_nonneg; lia).
    rewrite H2 in R. set (a := 2 ^ (e + 1074)) in *. set (b := 2 ^ 1021) in *.
    change (2 ^ 53) with 9007199254740992 in *. nia. }
  split; [apply Hn; lia | exact He52].
Qed.

(** 1.1 times a cycle count is not below the count. *)
Lemma scale_above (c : Z) :
  0 <= c < 2 ^ 64 ->
  b64_nan (d_lit_1_1 * B64.of_Z c)%float = false /\
  b64_key (B64.of_Z c) <= b64_key (d_lit_1_1 * B64.of_Z c)%float.
Proof.
  intros Hc. unfold b64_nan, b64_key. rewrite mul_spec. unfold SF64mul.
  set (l := Prim2SF d_lit_1_1). vm_compute in l. subst l.
  destruct (Z.eq_dec c 0) as [->|Hne].
  - rewrite of_Z_spec. cbn. split; [reflexivity | lia].
  - destruct (of_Z_normal c ltac:(lia)) as (m & e & E & Hm & He).
    assert (V := Prim2SF_valid (B64.of_Z c)). rewrite E in V |- *.
    destruct (SFmul_rounds false false 4953959590107546 m (-52) e) as [N R];
      [cbn; discriminate | exact Hm | lia |].
    split; [exact N|].
    apply (R (S754_finite false m e) V eq_refl).
    cbn [key cond_Zopp xorb]. unfold scaled.
    replace (e + 1074) with (52 + (-52 + e + 1074)) by lia.
    rewrite Z.pow_add_r by lia.
    assert (0 < 2 ^ (-52 + e + 1074)) by (apply Z.pow_pos_nonneg; lia).
    set (a := 2 ^ (-52 + e + 1074)) in *.
    change (2 ^ 52) with 4503599627370496. nia.
Qed.

(** X9.  The y range that [plot_cycles] gives to [plenv], from 0 to 1.1 times
    the greatest charted value, holds every point of the chart, in binary64. *)
Theorem plot_cycles_range (NUM_RUNS : Z) (cycles : list Z) (curve operation : string) :
  Forall (fun c => 0 <= c < 2 ^ 64) cycles ->
  let c := plot_cycles (DD := binary64) NUM_RUNS cycles curve operation in
  Forall (fun y => PrimFloat.leb (plenv_ymin c) y = true /\
                   PrimFloat.leb y (plenv_ymax c) = true)
    (plline_y c).
Proof.
  intros Hf c. unfold c. rewrite plot_cycles_y. unfold window. rewrite map_map.
  unfold plot_cycles. cbv zeta. cbn [plenv_ymin plenv_ymax].
  set (ig := ignore_count NUM_RUNS).
  destruct (max_loop (get 0 cycles) ig (NUM_RUNS - ig)) as (A & B & C).
  set (m := for_loop ig (NUM_RUNS - ig)
              (fun i m => if get 0 cycles i >? m then get 0 cycles i else m) 0) in *.
  assert (Hg : forall i, 0 <= get 0 cycles i < 2 ^ 64).
  { intros i. apply get_Forall with (P := fun c => 0 <= c < 2 ^ 64); [exact Hf|].
    split; [lia | reflexivity]. }
  assert (Hm : 0 <= m < 2 ^ 64).
  { destruct C as [->|(i & _ & ->)]; [split; [lia | reflexivity] | apply Hg]. }
  destruct (scale_above m Hm) as [N K].
  apply Forall_forall. intros y Hy. apply in_map_iff in Hy.
  destruct Hy as (i & <- & Hi). apply in_range in Hi.
  cbn [s_default cycle_sample d_of_Z d_mul binary64].
  assert (Fy := of_Z_finite (get 0 cycles i) (Hg i)).
  assert (Ky := of_Z_mono (get 0 cycles i) m ltac:(specialize (Hg i); specialize (A i Hi); lia)
                  ltac:(lia)).
  assert (K0 := of_Z_mono 0 (get 0 cycles i) ltac:(specialize (Hg i); lia)
                  ltac:(apply Hg)).
  unfold b64_finite, b64_key, b64_nan in *.
  rewrite !leb_spec.
  rewrite !SFleb_key
    by (try apply Prim2SF_valid; try assumption; try (apply finite_not_nan; assumption);
        reflexivity).
  split; apply Z.leb_le; lia.
Qed.


(** ** The shape of a chart *)

Section ChartShape.
Context {D : Type} {DD : Double D}.
Variable NUM_RUNS : Z.

Lemma plot_cycles_x (cycles : list Z) (curve operation : string) :
  plline_x (plot_cycles NUM_RUNS cycles curve operation) =
  map (fun i => d_of_Z (i + 1))
    (range (ignore_count NUM_RUNS) (NUM_RUNS - ignore_count NUM_RUNS)).
Proof.
  unfold plot_cycles. cbv zeta. cbn [plline_x]. now rewrite fill_xy_eq.
Qed.

Lemma run_numbers (lo hi k : Z) :
  0 <= k < hi - lo ->
  get d_zero (map (fun i => d_of_Z (i + 1)) (range lo hi)) k = d_of_Z (lo + k + 1).
Proof. intros Hk. now rewrite get_map_range by lia. Qed.
End ChartShape.

(** X10.  A chart has one point per run of the window, at the number of the
    run (counted from 1), and its x range is that of its points; for the three
    plot functions. *)
Theorem chart_points_are_runs {D} {DD : Double D} (NUM_RUNS : Z)
    (cycles : list Z) (times : list D) (curve operation algorithm : string) :
  let ig := ignore_count NUM_RUNS in
  1 <= NUM_RUNS - 2 * ig ->
  Forall (fun c : chart D =>
            Z.of_nat (length (plline_x c)) = plline_n c /\
            Z.of_nat (length (plline_y c)) = plline_n c /\
            (forall k, 0 <= k < plline_n c ->
               get d_zero (plline_x c) k = d_of_Z (ig + k + 1)) /\
            get d_zero (plline_x c) 0 = plenv_xmin c /\
            get d_zero (plline_x c) (plline_n c - 1) = plenv_xmax c)
    [plot_cycles NUM_RUNS cycles curve operation;
     plot_times NUM_RUNS times algorithm;
     plot_times_op NUM_RUNS times algorithm operation].
Proof.
  intros ig He.
  assert (Hc : forall c : chart D,
            plline_x c = map (fun i => d_of_Z (i + 1)) (range ig (NUM_RUNS - ig)) ->
            length (plline_y c) = length (plline_x c) ->
            plline_n c = NUM_RUNS - 2 * ig ->
            plenv_xmin c = d_of_Z (ig + 1) ->
            plenv_xmax c = d_of_Z (NUM_RUNS - ig) ->
            Z.of_nat (length (plline_x c)) = plline_n c /\
            Z.of_nat (length (plline_y c)) = plline_n c /\
            (forall k, 0 <= k < plline_n c ->
               get d_zero (plline_x c) k = d_of_Z (ig + k + 1)) /\
            get d_zero (plline_x c) 0 = plenv_xmin c /\
            get d_zero (plline_x c) (plline_n c - 1) = plenv_xmax c).
  { intros c Hx Hy Hn Hmin Hmax. rewrite Hy, Hx, Hn, Hmin, Hmax.
    rewrite length_map, range_length.
    split; [lia|]. split; [lia|]. split; [|split].
    - intros k Hk. apply run_numbers. lia.
    - rewrite run_numbers by lia. f_equal. lia.
    - rewrite run_numbers by lia. f_equal. lia. }
  constructor; [|constructor; [|constructor; [|constructor]]].
  - apply Hc; try reflexivity.
    + apply plot_cycles_x.
    + rewrite plot_cycles_x. unfold plot_cycles. cbv zeta. cbn [plline_y].
      rewrite fill_xy_eq. cbn [snd]. now rewrite !length_map.
  - apply Hc; try reflexivity.
    + apply plot_x.
    + rewrite plot_x. unfold plot_times. cbv zeta. cbn [plline_y].
      rewrite fill_xy_eq. cbn [snd]. now rewrite !length_map.
  - apply Hc; try reflexivity.
    + unfold plot_times_op. cbv zeta. cbn [plline_x]. apply plot_x.
    + unfold plot_times_op. cbv zeta. cbn [plline_x plline_y].
      rewrite plot_x. unfold plot_times. cbv zeta. cbn [plline_y].
      rewrite fill_xy_eq. cbn [snd]. now rewrite !length_map.
Qed.

(** ** The name of the file of a chart *)





(** ** The sweep: the other ways it ends *)

Section LoopFacts.
Context {D St : Type}.
Variable body : Z -> St -> prog D St.

(** A loop that exits does so in one of its bodies. *)
Lemma iterM_exit_inv (l : list Z) :
  forall st tr status tr',
    iterM body l st tr = (Exited status, tr') ->
    exists k st0 tr0, In k l /\ body k st0 tr0 = (Exited status, tr').
Proof.
  induction l as [|i l IH]; intros st tr status tr' H.
  - cbn in H. unfold ret in H. discriminate H.
  - cbn [iterM] in H. unfold bind in H.
    destruct (body i st tr) as [[st1|s1] tr1] eqn:E.
    + destruct (IH st1 tr1 status tr' H) as (k & st0 & tr0 & Hk & Hb).
      exists k, st0, tr0. split; [now right | exact Hb].
    + inversion H; subst. exists i, st, tr. split; [now left | exact E].
Qed.

(** A loop whose bodies return what [step] and [evs] say. *)
Lemma iterM_pure (step : Z -> St -> St) (evs : Z -> list (event D)) (l : list Z) :
  (forall k st tr, In k l -> body k st tr = (Returned (step k st), tr ++ evs k)) ->
  forall st tr,
    iterM body l st tr =
    (Returned (fold_left (fun s k => step k s) l st), tr ++ flat_map evs l).
Proof.
  induction l as [|i l IH]; intros H st tr.
  - cbn. unfold ret. now rewrite app_nil_r.
  - cbn [iterM fold_left flat_map]. unfold bind.
    rewrite (H i st tr (or_introl eq_refl)).
    rewrite IH by (intros; apply H; now right).
    now rewrite app_assoc.
Qed.
End LoopFacts.

Section SweepMore.
Context {D : Type} {DD : Double D}.
Variable NUM_RUNS : Z.
Variable CLOCKS_PER_SEC : Z.
Variable algorithms : list string.
Variable P : provider.

Let run_body (i : Z) := fun k (arrays : list D * list D) =>
  s <- sign_xml CLOCKS_PER_SEC P i k ;;
  v <- verify_signature CLOCKS_PER_SEC algorithms P i k ;;
  ret (set (fst arrays) k s, set (snd arrays) k v).

(** The run whose signature fails ends the program before the
    verification. *)
Lemma bad_sign_exits (a j : Z) arrays tr :
  EVP_SignFinal P a j = 0 ->
  run_body a j arrays tr
  = (Exited EXIT_FAILURE, tr ++ [Sign a j; Stderr sign_failure_message]).
Proof.
  intros Hs. unfold run_body, sign_xml, bind, emit, ret, exit.
  rewrite Hs. cbn [Z.eqb]. rewrite <- !app_assoc. reflexivity.
Qed.

Lemma bad_sign_algorithm_exits (a j : Z) :
  0 <= j < NUM_RUNS ->
  (forall k, 0 <= k < j -> good_run P a k) ->
  EVP_SignFinal P a j = 0 ->
  forall (u : unit) tr, exists mid,
    benchmark NUM_RUNS CLOCKS_PER_SEC algorithms P a tr
    = (Exited EXIT_FAILURE, tr ++ mid ++ [Sign a j; Stderr sign_failure_message])
    /\ Forall (before a j) mid.
Proof.
  intros Hj Hruns Hs u tr. unfold benchmark. cbv zeta.
  unfold for_loopM, bind at 1.
  rewrite (range_split 0 NUM_RUNS j) by lia.
  destruct (iterM_exits (run_body a)
              (before a j) (range 0 j) (range (j + 1) NUM_RUNS) j EXIT_FAILURE
              [Sign a j; Stderr sign_failure_message])
    with (st := (repeat (d_zero (D := D)) (Z.to_nat NUM_RUNS),
                 repeat (d_zero (D := D)) (Z.to_nat NUM_RUNS)))
         (tr := tr) as (evs & E & HQ).
  - intros k Hk. apply in_range in Hk.
    apply (good_run_returns CLOCKS_PER_SEC algorithms P a j a k);
      [apply Hruns; lia | right; lia].
  - intros st tr'. exists []. split; [|constructor].
    cbn [app]. now apply bad_sign_exits.
  - exists evs. unfold run_body in E. rewrite E. auto.
Qed.

(** X12.  A signature that fails is fatal: the sweep exits with EXIT_FAILURE
    right after the message of [sign_xml], the failed signature is not
    verified, and everything before belongs to earlier runs. *)
Theorem sign_failure_is_fatal (a j : Z) :
  0 <= a < Z.of_nat (length algorithms) ->
  0 <= j < NUM_RUNS ->
  (forall i k, 0 <= i < a -> 0 <= k < NUM_RUNS -> good_run P i k) ->
  (forall k, 0 <= k < j -> good_run P a k) ->
  EVP_SignFinal P a j = 0 ->
  exists tr0,
    main_sweep NUM_RUNS CLOCKS_PER_SEC algorithms P []
    = (Exited EXIT_FAILURE, tr0 ++ [Sign a j; Stderr sign_failure_message])
    /\ Forall (before a j) tr0.
Proof.
  intros Ha Hj Hearlier Hruns Hs. unfold main_sweep, for_loopM.
  rewrite (range_split 0 (Z.of_nat (length algorithms)) a) by lia.
  destruct (iterM_exits
              (fun i (_ : unit) => benchmark NUM_RUNS CLOCKS_PER_SEC algorithms P i)
              (before a j) (range 0 a) (range (a + 1) (Z.of_nat (length algorithms)))
              a EXIT_FAILURE
              [Sign a j; Stderr sign_failure_message])
    with (st := tt) (tr := @nil (event D)) as (evs & E & HQ).
  - intros i Hi. apply in_range in Hi.
    apply good_algorithm_returns; [lia|]. intros k Hk. apply Hearlier; lia.
  - intros u tr. now apply bad_sign_algorithm_exits.
  - exists evs. rewrite E. auto.
Qed.

(** One run, whatever the provider answers. *)
Lemma run_body_cases (i k : Z) arrays tr :
  (good_run P i k /\
   run_body i k arrays tr =
   (Returned (set (fst arrays) k (d_div (d_of_Z (sign_ticks P i k)) (d_of_Z CLOCKS_PER_SEC)),
              set (snd arrays) k (d_div (d_of_Z (verify_ticks P i k)) (d_of_Z CLOCKS_PER_SEC))),
    tr ++ [Sign i k; Verify i k])) \/
  (EVP_SignFinal P i k = 0 /\
   run_body i k arrays tr =
   (Exited EXIT_FAILURE, tr ++ [Sign i k; Stderr sign_failure_message])) \/
  (EVP_VerifyFinal P i k <> 1 /\
   run_body i k arrays tr =
   (Exited EXIT_FAILURE,
    tr ++ [Sign i k; Verify i k; Stderr (verify_failure_message algorithms i)])).
Proof.
  destruct (Z.eq_dec (EVP_SignFinal P i k) 0) as [Hs|Hs].
  - right. left. split; [exact Hs | now apply bad_sign_exits].
  - destruct (Z.eq_dec (EVP_VerifyFinal P i k) 1) as [Hv|Hv].
    + left. split; [split; assumption|].
      unfold run_body, sign_xml, verify_signature, bind, emit, ret, exit.
      apply Z.eqb_neq in Hs. rewrite Hs, Hv. cbn [negb Z.eqb Pos.eqb].
      rewrite <- app_assoc. reflexivity.
    + right. right. split; [exact Hv|].
      apply (bad_run_exits CLOCKS_PER_SEC algorithms P i k arrays tr Hs Hv).
Qed.

(** The report of an algorithm never exits. *)
Lemma benchmark_exit_inv (i : Z) tr status tr' :
  benchmark NUM_RUNS CLOCKS_PER_SEC algorithms P i tr = (Exited status, tr') ->
  exists k arrays tr0, 0 <= k < NUM_RUNS /\
    run_body i k arrays tr0 = (Exited status, tr').
Proof.
  unfold benchmark. cbv zeta. unfold for_loopM, bind at 1. intros H.
  destruct (iterM _ (range 0 NUM_RUNS) _ tr) as [[arrays|s1] tr1] eqn:E.
  - exfalso.
    destruct (calculate_statistics (fst arrays) NUM_RUNS) as [ms ss].
    destruct (calculate_statistics (snd arrays) NUM_RUNS) as [mv sv].
    unfold bind, emit in H. discriminate H.
  - inversion H; subst.
    destruct (iterM_exit_inv _ _ _ _ _ _ E) as (k & st0 & tr0 & Hk & Hb).
    apply in_range in Hk. exists k, st0, tr0. split; [exact Hk | exact Hb].
Qed.

(** X13.  The sweep exits only with EXIT_FAILURE and only right after a
    provider call that failed: a signature that returned 0, or a verification
    that returned something else than 1. *)
Theorem exit_follows_failed_call (status : Z) (tr : list (event D)) :
  main_sweep NUM_RUNS CLOCKS_PER_SEC algorithms P [] = (Exited status, tr) ->
  status = EXIT_FAILURE /\
  exists tr0 i j,
    0 <= i < Z.of_nat (length algorithms) /\ 0 <= j < NUM_RUNS /\
    ((EVP_SignFinal P i j = 0 /\
      tr = tr0 ++ [Sign i j; Stderr sign_failure_message]) \/
     (EVP_SignFinal P i j <> 0 /\ EVP_VerifyFinal P i j <> 1 /\
      tr = tr0 ++ [Sign i j; Verify i j; Stderr (verify_failure_message algorithms i)])).
Proof.
  unfold main_sweep, for_loopM. intros H.
  destruct (iterM_exit_inv _ _ _ _ _ _ H) as (i & u & tr1 & Hi & Hb).
  apply in_range in Hi.
  destruct (benchmark_exit_inv i tr1 status tr Hb) as (j & arrays & tr0 & Hj & Hr).
  destruct (run_body_cases i j arrays tr0) as [[_ E]|[[Hs E]|[Hv E]]];
    rewrite E in Hr; inversion Hr; subst.
  - split; [reflexivity|]. exists tr0, i, j. split; [exact Hi|]. split; [exact Hj|].
    left. split; [exact Hs | reflexivity].
  - split; [reflexivity|]. exists tr0, i, j. split; [exact Hi|]. split; [exact Hj|].
    right. split; [|split; [exact Hv | reflexivity]].
    intros Hs. rewrite (bad_sign_exits i j arrays tr0 Hs) in E.
    inversion E as [E']. apply app_inv_head in E'. discriminate E'.
Qed.

(** The arrays after the runs of one algorithm. *)
Lemma arrays_filled (f g : Z -> D) :
  fold_left (fun (s : list D * list D) k => (set (fst s) k (f k), set (snd s) k (g k)))
    (range 0 NUM_RUNS)
    (repeat d_zero (Z.to_nat NUM_RUNS), repeat d_zero (Z.to_nat NUM_RUNS))
  = (map f (range 0 NUM_RUNS), map g (range 0 NUM_RUNS)).
Proof.
  change (fold_left _ (range 0 NUM_RUNS) ?st) with
    (for_loop 0 NUM_RUNS
       (fun k (s : list D * list D) => (set (fst s) k (f k), set (snd s) k (g k))) st).
  rewrite (for_loop_pair 0 NUM_RUNS (fun k a => set a k (f k)) (fun k a => set a k (g k))).
  now rewrite !fill_loop0.
Qed.

Lemma good_algorithm_trace (i : Z) tr :
  (forall k, 0 <= k < NUM_RUNS -> good_run P i k) ->
  benchmark NUM_RUNS CLOCKS_PER_SEC algorithms P i tr =
  (Returned tt,
   tr ++ run_events NUM_RUNS i ++
   report_events NUM_RUNS algorithms i
     (measured NUM_RUNS CLOCKS_PER_SEC (sign_ticks P i))
     (measured NUM_RUNS CLOCKS_PER_SEC (verify_ticks P i))).
Proof.
  intros Hgood. unfold benchmark. cbv zeta. unfold for_loopM, bind at 1.
  rewrite (iterM_pure (run_body i)
             (fun k arrays =>
                (set (fst arrays) k (d_div (d_of_Z (sign_ticks P i k)) (d_of_Z CLOCKS_PER_SEC)),
                 set (snd arrays) k (d_div (d_of_Z (verify_ticks P i k)) (d_of_Z CLOCKS_PER_SEC))))
             (fun k => [Sign i k; Verify i k])).
  - rewrite arrays_filled. cbn [fst snd]. unfold report_events, measured. cbv zeta.
    destruct (calculate_statistics _ NUM_RUNS) as [ms ss].
    destruct (calculate_statistics _ NUM_RUNS) as [mv sv].
    unfold bind, emit, run_events. rewrite <- !app_assoc. reflexivity.
  - intros k st tr0 Hk. apply in_range in Hk.
    destruct (run_body_cases i k st tr0) as [[_ E]|[[Hs _]|[Hv _]]].
    + exact E.
    + destruct (Hgood k Hk) as [Hs' _]. contradiction.
    + destruct (Hgood k Hk) as [_ Hv']. contradiction.
Qed.

(** X14.  When every provider call succeeds the sweep returns, and its trace
    is, algorithm by algorithm, the NUM_RUNS pairs of a signature and its
    verification followed by the summary and the two charts of the algorithm. *)
Theorem successful_sweep_trace :
  (forall i k, 0 <= i < Z.of_nat (length algorithms) -> 0 <= k < NUM_RUNS ->
     good_run P i k) ->
  main_sweep NUM_RUNS CLOCKS_PER_SEC algorithms P [] =
  (Returned tt, sweep_trace NUM_RUNS CLOCKS_PER_SEC algorithms P).
Proof.
  intros Hgood. unfold main_sweep, for_loopM, sweep_trace.
  rewrite (iterM_pure (fun i (_ : unit) => benchmark NUM_RUNS CLOCKS_PER_SEC algorithms P i)
             (fun _ u => u)
             (fun i => run_events NUM_RUNS i ++
                       report_events NUM_RUNS algorithms i
                         (measured NUM_RUNS CLOCKS_PER_SEC (sign_ticks P i))
                         (measured NUM_RUNS CLOCKS_PER_SEC (verify_ticks P i)))).
  - cbn [app]. f_equal.
    induction (range 0 (Z.of_nat (length algorithms))) as [|x l IH]; cbn; auto.
  - intros i [] tr Hi. apply in_range in Hi.
    apply good_algorithm_trace. intros k Hk. apply Hgood; assumption.
Qed.
End SweepMore.


(** ** generate_ecdh_key *)

(** X15.  The elapsed time of [generate_ecdh_key] is the difference of the two
    clock readings in nanoseconds: the wrap-around of the unsigned arithmetic,
    when the nanosecond field of the end is the smaller one, cancels out. *)
Theorem elapsed_time_ns_is_difference (start_time end_time : timespec) :
  let d := (tv_sec end_time - tv_sec start_time) * 1000000000
           + (tv_nsec end_time - tv_nsec start_time) in
  0 <= d < 2 ^ 64 ->
  elapsed_time_ns start_time end_time = d.
Proof.
  intros d Hd. unfold elapsed_time_ns, to_ull.
  rewrite Z.mul_mod_idemp_l by (cbn; discriminate).
  rewrite <- Z.add_mod by (cbn; discriminate).
  apply Z.mod_small. exact Hd.
Qed.

Lemma fail_if_cases (failed : bool) (msg : string) (cleanup : io call unit) (tr : list call) :
  fail_if failed msg cleanup tr =
  if failed then
    match cleanup (tr ++ [fprintf_stderr msg]) with
    | (Returned _, tr') => (Exited EXIT_FAILURE, tr')
    | (Exited st, tr') => (Exited st, tr')
    end
  else (Returned tt, tr).
Proof.
  unfold fail_if. destruct failed; [|reflexivity].
  unfold io_bind, io_call, io_exit.
  destruct (cleanup (tr ++ [fprintf_stderr msg])) as [[[]|st] tr']; reflexivity.
Qed.

(** X16.  What a call of [generate_ecdh_key] does, whatever the library
    answers: it returns the cycle count without a message when every call
    succeeds, otherwise it prints one message and exits with EXIT_FAILURE; and
    it frees the context exactly once if it created one. *)
Theorem generate_ecdh_key_protocol {D} {DD : Double D} (O : openssl) (curve_name : string) :
  let r := generate_ecdh_key O curve_name [] in
  let ctx_created := negb (sn2nid O curve_name =? NID_undef) && negb (ctx_is_null O) in
  (if keygen_succeeds O curve_name
   then fst r = Returned (cycles_of_ns (elapsed_time_ns (start_time O) (end_time O)))
        /\ count_calls is_message (snd r) = 0%nat
   else fst r = Exited EXIT_FAILURE /\ count_calls is_message (snd r) = 1%nat) /\
  count_calls is_ctx_free (snd r) = (if ctx_created then 1%nat else 0%nat).
Proof.
  intros r ctx_created. unfold r, ctx_created, keygen_succeeds, generate_ecdh_key.
  rewrite !(Z.ltb_antisym _ 0).
  cbv zeta. unfold io_bind at 1 2. unfold io_call at 1. rewrite fail_if_cases.
  destruct (sn2nid O curve_name =? NID_undef); [cbn; auto|].
  unfold io_bind at 1 2 3. unfold io_call at 1 2. rewrite fail_if_cases.
  destruct (ctx_is_null O); [cbn; auto|].
  unfold io_bind at 1 2. unfold io_call at 1. rewrite fail_if_cases.
  destruct (keygen_init_result O <=? 0); [cbn; auto|].
  unfold io_bind at 1 2. unfold io_call at 1. rewrite fail_if_cases.
  destruct (set_curve_result O <=? 0); [cbn; auto|].
  unfold io_bind at 1 2. unfold io_call at 1. rewrite fail_if_cases.
  destruct (keygen_result O <=? 0); [cbn; auto|].
  cbn. auto.
Qed.


(** ** Integers as doubles, doubles as integers *)

Lemma rounded_small (X : positive) : Zpos X < 2 ^ 53 -> rounded X = Zpos X.
Proof.
  intros H. unfold rounded.
  destruct (dropped_cases X) as [[-> _]|(Hn & Hd & Hq)].
  - rewrite rne_0. change (2 ^ 0) with 1. lia.
  - exfalso. destruct (digits2_bounds X) as [Dlo _].
    assert (2 ^ 53 <= 2 ^ (Zpos (digits2_pos X) - 1)) by (apply Z.pow_le_mono_r; lia).
    lia.
Qed.

(** An integer below [2^53] is converted exactly. *)
Lemma of_Z_exact (c : Z) :
  0 <= c < 2 ^ 53 -> b64_key (B64.of_Z c) = c * 2 ^ 1074.
Proof.
  intros Hc. destruct c as [|X|X]; [reflexivity | | lia].
  rewrite of_Z_key by (change (2 ^ 53) with 9007199254740992 in Hc;
                       change (2 ^ 64) with 18446744073709551616; lia).
  rewrite rounded_small by lia. reflexivity.
Qed.

Lemma leb_true_not_nan (x y : float) :
  PrimFloat.leb x y = true -> b64_nan x = false /\ b64_nan y = false.
Proof.
  rewrite leb_spec. unfold b64_nan, SFleb.
  destruct (Prim2SF x) as [| | |]; destruct (Prim2SF y) as [| | |]; cbn;
    try discriminate; auto.
Qed.

Lemma ltb_true_not_nan (x y : float) :
  PrimFloat.ltb x y = true -> b64_nan x = false /\ b64_nan y = false.
Proof.
  rewrite ltb_spec. unfold b64_nan, SFltb.
  destruct (Prim2SF x) as [| | |]; destruct (Prim2SF y) as [| | |]; cbn;
    try discriminate; auto.
Qed.

(** The truncation of a finite double that is not negative. *)
Lemma to_int_key (x : float) :
  b64_finite x = true -> 0 <= b64_key x -> B64.to_int x = b64_key x / 2 ^ 1074.
Proof.
  unfold b64_finite, b64_key, B64.to_int. intros F K.
  assert (V := Prim2SF_valid x).
  destruct (Prim2SF x) as [s|s| |s m e]; try discriminate F.
  - reflexivity.
  - assert (Hs := scaled_lt_huge s m e V).
    apply valid_finite in V. destruct V as (He & _).
    destruct s; [cbn [key cond_Zopp] in K; lia|].
    cbv zeta. cbn [key cond_Zopp]. unfold scaled.
    destruct (Z_le_gt_dec 0 e) as [Hpos|Hneg].
    + rewrite Z.shiftl_mul_pow2 by lia. rewrite Z.pow_add_r by lia.
      rewrite Z.mul_assoc. rewrite Z.div_mul by (apply Z.pow_nonzero; lia). reflexivity.
    + rewrite Z.shiftl_div_pow2 by lia.
      assert (E : 2 ^ 1074 = 2 ^ (- e) * 2 ^ (e + 1074))
        by (rewrite <- Z.pow_add_r by lia; f_equal; lia).
      rewrite E.
      rewrite Z.div_mul_cancel_r; [reflexivity | apply Z.pow_nonzero; lia
                                  | apply Z.pow_nonzero; lia].
Qed.

(** A double between two consecutive integers truncates to the lower
    one. *)
Lemma to_int_between (x : float) (k : Z) :
  0 <= k -> k + 1 < 2 ^ 53 ->
  PrimFloat.leb (B64.of_Z k) x = true ->
  PrimFloat.ltb x (B64.of_Z (k + 1)) = true ->
  B64.to_int x = k.
Proof.
  intros Hk Hk1 Hle Hlt.
  destruct (leb_true_not_nan _ _ Hle) as [_ Nx].
  assert (Kk := of_Z_exact k ltac:(lia)). assert (Kk1 := of_Z_exact (k + 1) ltac:(lia)).
  assert (R : 2 ^ 53 < 2 ^ 64) by reflexivity.
  assert (Fk := of_Z_finite k ltac:(lia)). assert (Fk1 := of_Z_finite (k + 1) ltac:(lia)).
  unfold b64_finite, b64_key, b64_nan in *.
  rewrite leb_spec, SFleb_key in Hle
    by (try apply Prim2SF_valid; try assumption; apply finite_not_nan; assumption).
  rewrite ltb_spec, SFltb_key in Hlt
    by (try apply Prim2SF_valid; try assumption; apply finite_not_nan; assumption).
  apply Z.leb_le in Hle. apply Z.ltb_lt in Hlt. rewrite Kk in Hle. rewrite Kk1 in Hlt.
  assert (Hu : 0 < 2 ^ 1074) by (apply Z.pow_pos_nonneg; lia).
  assert (Hb := key_bounds _ (Prim2SF_valid (B64.of_Z (k + 1))) Fk1). rewrite Kk1 in Hb.
  assert (Fx : sf_finite (Prim2SF x) = true).
  { assert (Hh := huge_pos).
    destruct (Prim2SF x) as [s|s| |s m e]; try reflexivity; try discriminate Nx.
    exfalso. destruct s; cbn [key cond_Zopp] in Hle, Hlt; nia. }
  rewrite to_int_key by (unfold b64_finite, b64_key; try assumption; nia).
  unfold b64_key. symmetry. apply Z.div_unique with (r := key (Prim2SF x) - k * 2 ^ 1074); nia.
Qed.

(** ** calculate_statistics in memory *)

Section MemoryFacts.
Context {D S : Type} {DD : Double D} {SS : Sample D S}.

(** The copying loop overwrites every cell of [sorted_times]: whatever
    the stack held, the array is the caller's array afterwards. *)
Lemma copy_loop_in (num_runs : Z) (m : memory D S) :
  Z.of_nat (length (m_times m)) = num_runs ->
  Z.of_nat (length (m_stack m)) = num_runs ->
  for_loop 0 num_runs
    (fun i m => store_sorted_times (set (m_stack m) i (get s_default (m_times m) i)) m) m
  = store_sorted_times (m_times m) m.
Proof.
  intros Ht Hs.
  pose (Inv := fun (i : Z) (st : memory D S) =>
    m_times st = m_times m /\ m_mean st = m_mean m /\ m_std_dev st = m_std_dev m /\
    length (m_stack st) = length (m_times m) /\
    forall k, 0 <= k < i -> get s_default (m_stack st) k = get s_default (m_times m) k).
  assert (H : Inv num_runs
                (for_loop 0 num_runs
                   (fun i m => store_sorted_times
                                 (set (m_stack m) i (get s_default (m_times m) i)) m) m)).
  { apply for_loop_inv; [lia | |].
    - repeat split; [lia | intros; lia].
    - intros i st Hi (E1 & E2 & E3 & Hl & Hk).
      unfold Inv, store_sorted_times. cbn [m_times m_mean m_std_dev m_stack].
      repeat split; try assumption; [now rewrite set_length|].
      intros k Hk'. rewrite E1. destruct (Z.eq_dec k i) as [->|Hne].
      + apply get_set_eq. lia.
      + rewrite get_set_ne by lia. apply Hk. lia. }
  destruct H as (E1 & E2 & E3 & Hl & Hk).
  destruct (for_loop 0 num_runs _ m) as [t mn sd st].
  cbn [m_times m_mean m_std_dev m_stack] in *. unfold store_sorted_times.
  cbn [m_times m_mean m_std_dev m_stack]. subst t mn sd. f_equal.
  apply array_ext with (d := s_default); [assumption|].
  intros i Hi. apply Hk. lia.
Qed.

(** The call leaves in [*mean] and [*std_dev] what the function computes
    from the array and the count, in the stack the sorted copy, and the
    caller's array as it was. *)
Lemma calculate_statistics_in_eq (num_runs : Z) (m : memory D S) :
  Z.of_nat (length (m_times m)) = num_runs ->
  Z.of_nat (length (m_stack m)) = num_runs ->
  calculate_statistics_in num_runs m =
  let f := calculate_statistics_frame (m_times m) num_runs in
  {| m_times := m_times m; m_mean := mean f; m_std_dev := std_dev f;
     m_stack := sorted_times f |}.
Proof.
  intros Ht Hs. unfold calculate_statistics_in. cbv zeta.
  rewrite copy_loop_in by assumption.
  unfold calculate_statistics_frame. rewrite sort_copy_eq by assumption.
  reflexivity.
Qed.
End MemoryFacts.

(** ** Division *)

Lemma shr_record_of_loc_code (q : Z) (l : location) :
  0 <= q ->
  shr_record_of_loc q l = Nat.iter 2 shr_1 (exact_record (4 * q + loc_code l)).
Proof.
  intros Hq. destruct q as [|p|p]; [| |lia]; destruct l as [|[]]; reflexivity.
Qed.

Lemma shr_fexp_loc (q e : Z) (l : location) :
  0 <= q ->
  let n := fexp prec emax (Zdigits2 q + e) - e in
  0 <= n ->
  shr_fexp prec emax q e l =
  (Nat.iter (Z.to_nat n + 2) shr_1 (exact_record (4 * q + loc_code l)), e + n).
Proof.
  intros Hq n Hn. unfold shr_fexp. fold n. rewrite (shr_record_of_loc_code q l Hq).
  unfold shr. destruct n as [|p|p]; [ | | lia].
  - rewrite Z.add_0_r. reflexivity.
  - rewrite iter_pos_nat, <- Nat.iter_add. reflexivity.
Qed.

Lemma Zdigits2_bounds (q : Z) : 0 <= q -> 0 <= Zdigits2 q /\ q < 2 ^ Zdigits2 q /\
  (0 < q -> 2 ^ (Zdigits2 q - 1) <= q).
Proof.
  intros Hq. destruct q as [|p|p]; [cbn; lia | | lia].
  cbn [Zdigits2]. destruct (digits2_bounds p). repeat split; try lia.
Qed.

Lemma quarter_div (q c n : Z) :
  0 <= n -> 0 <= c < 4 ->
  (4 * q + c) / 2 ^ (n + 2) = q / 2 ^ n /\
  (c = 0 -> q mod 2 ^ n = 0 -> (4 * q + c) mod 2 ^ (n + 2) = 0).
Proof.
  intros Hn Hc.
  assert (Hp : 0 < 2 ^ n) by (apply Z.pow_pos_nonneg; lia).
  assert (E : 2 ^ (n + 2) = 4 * 2 ^ n) by (rewrite Z.pow_add_r by lia; lia).
  rewrite E. split.
  - rewrite <- Z.div_div by lia. f_equal.
    symmetry. apply Z.div_unique with (r := c); lia.
  - intros -> Hm. rewrite Z.add_0_r.
    apply Z.mod_divide in Hm; [|lia]. destruct Hm as [k Hk]. rewrite Hk.
    replace (4 * (k * 2 ^ n)) with (k * (4 * 2 ^ n)) by ring.
    apply Z.mod_mul. lia.
Qed.

Lemma loc_code_range (l : location) : 0 <= loc_code l < 4.
Proof. destruct l as [|[]]; cbn; lia. Qed.

Lemma binary_round_aux_loc (s : bool) (q e : Z) (l : location) :
  0 <= q ->
  let n := fexp prec emax (Zdigits2 q + e) - e in
  let R := rne (4 * q + loc_code l) (n + 2) in
  0 <= n ->
  binary_round_aux prec emax s q e l = rounded_result s R (e + n) /\
  q / 2 ^ n <= R <= q / 2 ^ n + 1 /\
  (loc_code l = 0 -> q mod 2 ^ n = 0 -> R = q / 2 ^ n) /\
  0 <= R <= 2 ^ 53 /\ -1074 <= e + n /\
  (-1074 < e + n -> 2 ^ 52 <= q / 2 ^ n).
Proof.
  intros Hq n R Hn.
  assert (Hc := loc_code_range l).
  destruct (Zdigits2_bounds q Hq) as (Hd0 & Hdhi & Hdlo).
  set (d := Zdigits2 q) in *.
  assert (Hf : fexp prec emax (d + e) = Z.max (d + e - 53) (-1074)) by apply fexp64.
  assert (Hp : 0 < 2 ^ n) by (apply Z.pow_pos_nonneg; lia).
  destruct (quarter_div q (loc_code l) n Hn Hc) as [Qd Qm].
  destruct (rne_bounds (4 * q + loc_code l) (n + 2) ltac:(lia)) as [Rb Rx].
  fold R in Rb, Rx. rewrite Qd in Rb, Rx.
  assert (Hq0 : 0 <= q / 2 ^ n) by (apply Z.div_pos; lia).
  assert (Hq53 : q / 2 ^ n < 2 ^ 53).
  { apply Z.div_lt_upper_bound; [lia|].
    rewrite <- Z.pow_add_r by lia.
    assert (2 ^ d <= 2 ^ (n + 53)) by (apply Z.pow_le_mono_r; unfold n; lia). lia. }
  assert (HE : -1074 <= e + n) by (unfold n; lia).
  assert (Hnorm : -1074 < e + n -> 2 ^ 52 <= q / 2 ^ n).
  { intros H. assert (En : n = d - 53) by (unfold n; lia).
    assert (0 < q).
    { destruct (Z.eq_dec q 0) as [->|]; [|lia]. cbn in d. unfold d in En. lia. }
    apply Z.div_le_lower_bound; [lia|].
    rewrite <- Z.pow_add_r by lia. replace (n + 52) with (d - 1) by lia. auto. }
  split; [|repeat split; try lia; auto].
  unfold binary_round_aux. fold d.
  assert (Es := shr_fexp_loc q e l Hq). cbv zeta in Es. fold d n in Es.
  rewrite (Es Hn).
  rewrite (round_nearest_even_shr (4 * q + loc_code l) (Z.to_nat n + 2)) by lia.
  replace (Z.of_nat (Z.to_nat n + 2)) with (n + 2) by lia. fold R.
  set (E1 := e + n) in *.
  destruct R as [|pv|pv] eqn:ER; [| |lia].
  - (* the quotient is rounded to zero *)
    unfold shr_fexp. cbn [Zdigits2 Z.add shr_record_of_loc]. rewrite fexp64.
    unfold shr. destruct (Z.max (E1 - 53) (-1074) - E1) as [|p|p] eqn:Ep; [reflexivity|lia|reflexivity].
  - rewrite shr_fexp_pos. cbv zeta. rewrite fexp64. unfold rounded_result.
    destruct (digits2_bounds pv) as [Plo Phi].
    destruct (Z.ltb_spec (Zpos pv) (2 ^ 53)) as [Hlt|Hge].
    + assert (Zpos (digits2_pos pv) <= 53).
      { destruct (Z_le_gt_dec (Zpos (digits2_pos pv)) 53); [assumption|]. exfalso.
        assert (2 ^ 53 <= 2 ^ (Zpos (digits2_pos pv) - 1)) by (apply Z.pow_le_mono_r; lia).
        lia. }
      replace (0 <? Z.max (Zpos (digits2_pos pv) + E1 - 53) (-1074) - E1) with false
        by (symmetry; apply Z.ltb_ge; lia).
      cbn [exact_record shr_m]. reflexivity.
    + assert (Hv : Zpos pv = 2 ^ 53) by lia.
      assert (Hpv : pv = 9007199254740992%positive)
        by (apply Pos2Z.inj; rewrite Hv; reflexivity).
      subst pv.
      change (Zpos (digits2_pos 9007199254740992)) with 54.
      replace (Z.max (54 + E1 - 53) (-1074) - E1) with 1 by lia.
      cbn [Z.ltb Z.compare Z.to_nat Pos.to_nat Pos.iter_op Nat.iter nat_rect
           exact_record shr_1 shr_m orb].
      reflexivity.
Qed.

Lemma rounded_result_key (s : bool) (R E : Z) :
  0 <= R <= 2 ^ 53 -> -1074 <= E -> (-1074 < E -> 2 ^ 52 <= R) ->
  sf_nan (rounded_result s R E) = false /\
  ((sf_finite (rounded_result s R E) = true /\
    key (rounded_result s R E) = cond_Zopp s (R * 2 ^ (E + 1074))) \/
   (rounded_result s R E = S754_infinity s /\ huge <= R * 2 ^ (E + 1074))).
Proof.
  intros HR HE Hn. unfold rounded_result.
  destruct R as [|m|m]; [| |lia].
  - split; [reflexivity|]. left. split; [reflexivity|]. destruct s; reflexivity.
  - destruct (Z.ltb_spec (Zpos m) (2 ^ 53)) as [Hlt|Hge].
    + destruct (Z.leb_spec E 971) as [Hle|Hgt].
      * split; [reflexivity|]. left. split; reflexivity.
      * split; [reflexivity|]. right. split; [reflexivity|].
        apply (huge_le_scaled m E Hgt). apply Hn. lia.
    + assert (Hm : Zpos m = 2 ^ 53) by lia. rewrite Hm.
      assert (Hp : 0 < 2 ^ (E + 1074)) by (apply Z.pow_pos_nonneg; lia).
      destruct (Z.leb_spec (E + 1) 971) as [Hle|Hgt].
      * split; [reflexivity|]. left. split; [reflexivity|].
        cbn [key]. unfold scaled. f_equal.
        replace (E + 1 + 1074) with (1 + (E + 1074)) by lia.
        rewrite (Z.pow_add_r 2 1 (E + 1074)) by lia.
        change (Zpos 4503599627370496) with (2 ^ 52).
        change (2 ^ 53) with (2 ^ 52 * 2 ^ 1). ring.
      * split; [reflexivity|]. right. split; [reflexivity|].
        unfold huge. replace 2098 with (53 + 2045) by reflexivity.
        rewrite (Z.pow_add_r 2 53 2045) by lia.
        apply Z.mul_le_mono_nonneg_l; [lia|].
        apply Z.pow_le_mono_r; lia.
Qed.

(** The rounded quotient against a number of at most 53 bits. *)
Lemma quotient_sandwich (q r d n E R : Z) (mA : positive) (eA : Z) :
  0 <= q -> 0 <= r < d -> 0 <= n -> -1074 <= E ->
  q / 2 ^ n <= R <= q / 2 ^ n + 1 ->
  (r = 0 -> q mod 2 ^ n = 0 -> R = q / 2 ^ n) ->
  (-1074 < E -> 2 ^ 52 <= q / 2 ^ n) ->
  -1074 <= eA -> Zpos mA < 2 ^ 53 ->
  let a := scaled mA eA in
  let U := 2 ^ (E + 1074) in
  (a * 2 ^ n * d <= (q * d + r) * U -> a <= R * U) /\
  ((q * d + r) * U <= a * 2 ^ n * d -> R * U <= a).
Proof.
  intros Hq Hr Hn HE HR Hex Hnorm HeA HmA a U.
  assert (Hpn : 0 < 2 ^ n) by (apply Z.pow_pos_nonneg; lia).
  assert (HU : 0 < U) by (apply Z.pow_pos_nonneg; lia).
  assert (Hqd := Z.div_mod q (2 ^ n) ltac:(lia)).
  assert (Hqm := Z.mod_pos_bound q (2 ^ n) Hpn).
  set (q' := q / 2 ^ n) in *. set (rho := q mod 2 ^ n) in *. set (N := 2 ^ n) in *.
  assert (Hq' : 0 <= q') by (unfold q'; apply Z.div_pos; lia).
  destruct (Z_le_gt_dec E eA) as [Hbig|Hsmall].
  - (* [a] is a multiple of the unit [U] *)
    assert (Ha : a = Zpos mA * 2 ^ (eA - E) * U).
    { unfold a, scaled, U. rewrite <- Z.mul_assoc, <- Z.pow_add_r by lia.
      f_equal. f_equal. lia. }
    assert (Ht : 0 < 2 ^ (eA - E)) by (apply Z.pow_pos_nonneg; lia).
    set (k := Zpos mA * 2 ^ (eA - E)) in *.
    rewrite Ha. split; intros H.
    + assert (H1 : k * N * d <= q * d + r).
      { apply (Z.mul_le_mono_pos_r _ _ U HU).
        replace (k * N * d * U) with (k * U * N * d) by ring. exact H. }
      assert (H2 : k * N < q + 1).
      { apply (Z.mul_lt_mono_pos_r d); [lia|]. lia. }
      assert (H3 : k <= q').
      { destruct (Z_le_gt_dec k q'); [assumption|]. exfalso.
        assert ((q' + 1) * N <= k * N) by (apply Z.mul_le_mono_nonneg_r; lia). lia. }
      apply Z.mul_le_mono_nonneg_r; lia.
    + assert (H1 : q * d + r <= k * N * d).
      { apply (Z.mul_le_mono_pos_r _ _ U HU).
        replace (k * N * d * U) with (k * U * N * d) by ring. exact H. }
      assert (H2 : q <= k * N).
      { apply (Z.mul_le_mono_pos_r _ _ d); [lia|]. lia. }
      apply Z.mul_le_mono_nonneg_r; [lia|].
      destruct (Z.eq_dec r 0) as [Er|Er]; [destruct (Z.eq_dec rho 0) as [Em|Em]|].
      * rewrite (Hex Er Em).
        destruct (Z_le_gt_dec q' k); [assumption|]. exfalso.
        assert ((k + 1) * N <= q' * N) by (apply Z.mul_le_mono_nonneg_r; lia). lia.
      * assert (q' < k).
        { destruct (Z_lt_le_dec q' k); [assumption|]. exfalso.
          assert (k * N <= q' * N) by (apply Z.mul_le_mono_nonneg_r; lia). lia. }
        lia.
      * assert (q * d < k * N * d) by lia.
        assert (q < k * N).
        { apply (Z.mul_lt_mono_pos_r d); [lia|]. lia. }
        assert (q' < k).
        { destruct (Z_lt_le_dec q' k); [assumption|]. exfalso.
          assert (k * N <= q' * N) by (apply Z.mul_le_mono_nonneg_r; lia). lia. }
        lia.
  - (* [a] lies below the binade of the quotient *)
    specialize (Hnorm ltac:(lia)).
    assert (HUs : U = 2 ^ (E - eA - 1) * 2 * 2 ^ (eA + 1074)).
    { unfold U. replace (E + 1074) with ((E - eA - 1) + 1 + (eA + 1074)) by lia.
      rewrite (Z.pow_add_r 2 (E - eA - 1 + 1) (eA + 1074)),
        (Z.pow_add_r 2 (E - eA - 1) 1) by lia.
      reflexivity. }
    assert (Hu : 0 < 2 ^ (E - eA - 1)) by (apply Z.pow_pos_nonneg; lia).
    assert (HpA : 0 < 2 ^ (eA + 1074)) by (apply Z.pow_pos_nonneg; lia).
    assert (Hlt : a < 2 ^ 52 * U).
    { unfold a, scaled. rewrite HUs.
      set (u := 2 ^ (E - eA - 1)) in *. set (pA := 2 ^ (eA + 1074)) in *.
      change (2 ^ 52) with 4503599627370496.
      change (2 ^ 53) with 9007199254740992 in HmA. nia. }
    assert (Hge : 2 ^ 52 * U <= q' * U) by (apply Z.mul_le_mono_nonneg_r; lia).
    assert (HRU : q' * U <= R * U) by (apply Z.mul_le_mono_nonneg_r; lia).
    split; intros H; [lia|]. exfalso.
    assert (H1 : a * N * d < q' * U * N * d).
    { apply Z.mul_lt_mono_pos_r; [lia|]. apply Z.mul_lt_mono_pos_r; lia. }
    assert (H2 : q' * N <= q) by lia.
    assert (H3 : q' * N * (U * d) <= q * (U * d)).
    { apply Z.mul_le_mono_nonneg_r; [|exact H2]. apply Z.mul_nonneg_nonneg; lia. }
    assert (H4 : 0 <= r * U) by (apply Z.mul_nonneg_nonneg; lia).
    replace (q' * U * N * d) with (q' * N * (U * d)) in H1 by ring.
    replace ((q * d + r) * U) with (q * (U * d) + r * U) in H by ring.
    lia.
Qed.

Lemma new_location_code (d r : Z) : loc_code (new_location d r) = 0 <-> r = 0.
Proof.
  unfold new_location, new_location_even, new_location_odd.
  destruct (Z.even d); destruct (Z.eqb_spec r 0) as [E|E]; cbn [loc_code].
  - tauto.
  - destruct (2 * r ?= d); cbn; split; intros; try lia; contradiction.
  - tauto.
  - destruct (2 * r + 1 ?= d); cbn; split; intros; try lia; contradiction.
Qed.

(** The integer division that [SFdiv] rounds. *)
Lemma SFdiv_core_spec (mx my : positive) (ex ey : Z) :
  Zpos mx < 2 ^ 53 ->
  exists q r e',
    SFdiv_core_binary prec emax (Zpos mx) ex (Zpos my) ey
      = (q, e', new_location (Zpos my) r) /\
    0 <= q /\ 0 <= r < Zpos my /\ e' <= ex - ey /\
    Zpos mx * 2 ^ (ex - ey - e') = q * Zpos my + r /\
    0 <= fexp prec emax (Zdigits2 q + e') - e'.
Proof.
  intros Hmx. unfold SFdiv_core_binary. cbn [Zdigits2].
  destruct (digits2_bounds mx) as [X1 X2]. destruct (digits2_bounds my) as [Y1 Y2].
  set (d1 := Zpos (digits2_pos mx)) in *. set (d2 := Zpos (digits2_pos my)) in *.
  assert (Hd53 : d1 <= 53).
  { destruct (Z_le_gt_dec d1 53); [assumption|]. exfalso.
    assert (2 ^ 53 <= 2 ^ (d1 - 1)) by (apply Z.pow_le_mono_r; lia). lia. }
  rewrite fexp64.
  set (e' := Z.min (Z.max (d1 + ex - (d2 + ey) - 53) (-1074)) (ex - ey)).
  set (s := ex - ey - e').
  assert (Hs : 0 <= s) by (unfold s, e'; lia).
  set (m' := match s with Z0 => Zpos mx | Zpos _ => Z.shiftl (Zpos mx) s | Zneg _ => 0 end).
  assert (Hm' : m' = Zpos mx * 2 ^ s).
  { unfold m'. destruct s as [|p|p] eqn:Es; [cbn; lia | | lia].
    rewrite Z.shiftl_mul_pow2 by lia. reflexivity. }
  assert (Hps : 0 < 2 ^ s) by (apply Z.pow_pos_nonneg; lia).
  assert (Hdm := Z_div_mod m' (Zpos my) ltac:(lia)).
  destruct (Z.div_eucl m' (Zpos my)) as [q r] eqn:Ed. destruct Hdm as [Hdm Hr].
  assert (Hq : 0 <= q) by nia.
  exists q, r, e'. split; [reflexivity|].
  split; [exact Hq|]. split; [exact Hr|]. split; [unfold e'; lia|].
  split; [fold s; lia|].
  rewrite fexp64.
  destruct (Z_le_gt_dec e' (-1074)) as [Hlow|Hhigh]; [lia|].
  (* a normal quotient has at least 53 digits *)
  assert (He' : e' <= d1 + ex - (d2 + ey) - 53) by (unfold e'; lia).
  assert (Hs' : 53 - d1 + d2 <= s) by (unfold s; lia).
  assert (Hd1 : 1 <= d1) by (unfold d1; lia).
  assert (Hd2 : 1 <= d2) by (unfold d2; lia).
  assert (Hbig : 2 ^ (52 + d2) <= m').
  { rewrite Hm'.
    assert (E : 2 ^ (52 + d2) = 2 ^ (d1 - 1) * 2 ^ (53 - d1 + d2))
      by (rewrite <- Z.pow_add_r by lia; f_equal; lia).
    rewrite E.
    assert (2 ^ (53 - d1 + d2) <= 2 ^ s) by (apply Z.pow_le_mono_r; lia).
    assert (0 < 2 ^ (53 - d1 + d2)) by (apply Z.pow_pos_nonneg; lia).
    apply Z.mul_le_mono_nonneg; lia. }
  assert (Hq52 : 2 ^ 52 <= q).
  { destruct (Z_le_gt_dec (2 ^ 52) q) as [|Hlt]; [assumption|]. exfalso.
    assert (E : 2 ^ (52 + d2) = 2 ^ 52 * 2 ^ d2) by (rewrite <- Z.pow_add_r by lia; reflexivity).
    assert (q + 1 <= 2 ^ 52) by lia.
    assert ((q + 1) * Zpos my <= 2 ^ 52 * Zpos my) by (apply Z.mul_le_mono_nonneg_r; lia).
    assert (2 ^ 52 * Zpos my < 2 ^ 52 * 2 ^ d2) by (apply Z.mul_lt_mono_pos_l; lia).
    lia. }
  destruct (Zdigits2_bounds q Hq) as (_ & Qhi & _).
  assert (53 <= Zdigits2 q).
  { destruct (Z_le_gt_dec 53 (Zdigits2 q)); [assumption|]. exfalso.
    assert (2 ^ Zdigits2 q <= 2 ^ 52).
    { destruct (Z_le_gt_dec 0 (Zdigits2 q)).
      - apply Z.pow_le_mono_r; lia.
      - rewrite Z.pow_neg_r by lia. lia. }
    lia. }
  lia.
Qed.

Lemma SFdiv_rounds (x : spec_float) (my : positive) (ey : Z) :
  valid_binary x = true -> sf_finite x = true ->
  valid_binary (S754_finite false my ey) = true ->
  quotient_of (SFdiv prec emax x (S754_finite false my ey))
    (key x * 2 ^ 1074) (scaled my ey).
Proof.
  intros Vx Fx Vy.
  assert (Hy := proj1 (valid_finite _ _ _) Vy). destruct Hy as (Hey & Hmy & _).
  assert (HW := scaled_pos my ey ltac:(lia)).
  destruct x as [sx|sx| |sx mx ex]; try discriminate Fx.
  - (* zero *)
    cbn [SFdiv]. split; [reflexivity|]. intros A _ _. cbn [key].
    split; intros H; nia.
  - assert (Hx := proj1 (valid_finite _ _ _) Vx). destruct Hx as (Hex & Hmx & _).
    cbn [SFdiv].
    destruct (SFdiv_core_spec mx my ex ey Hmx) as (q & r & e' & -> & Hq & Hr & He' & Hdm & Hn).
    rewrite xorb_false_r.
    destruct (binary_round_aux_loc sx q e' (new_location (Zpos my) r) Hq Hn)
      as (-> & Rb & Rx & HR & HE & Hnorm).
    set (n := fexp prec emax (Zdigits2 q + e') - e') in *.
    set (R := rne (4 * q + loc_code (new_location (Zpos my) r)) (n + 2)) in *.
    set (E := e' + n) in *.
    assert (Rx' : r = 0 -> q mod 2 ^ n = 0 -> R = q / 2 ^ n).
    { intros Er. apply Rx. apply new_location_code. exact Er. }
    assert (HR52 : -1074 < E -> 2 ^ 52 <= R) by (intros H; specialize (Hnorm H); lia).
    destruct (rounded_result_key sx R E HR HE HR52) as [Nn Hk].
    split; [exact Nn|].
    intros A VA FA.
    assert (HU : 0 < 2 ^ (E + 1074)) by (apply Z.pow_pos_nonneg; lia).
    assert (Hpn : 0 < 2 ^ n) by (apply Z.pow_pos_nonneg; lia).
    assert (HKx := scaled_pos mx ex ltac:(lia)).
    assert (HRU : 0 <= R * 2 ^ (E + 1074)) by (apply Z.mul_nonneg_nonneg; lia).
    assert (HT : 0 < scaled mx ex * 2 ^ 1074) by (apply Z.mul_pos_pos; lia).
    (* the quotient as the integer division gives it *)
    assert (F1 : scaled mx ex * 2 ^ 1074 * (2 ^ n * Zpos my) =
                 (q * Zpos my + r) * 2 ^ (E + 1074) * scaled my ey).
    { rewrite <- Hdm. unfold scaled.
      assert (P1 : 2 ^ (ex + 1074) * 2 ^ 1074 * 2 ^ n = 2 ^ (ex + 2148 + n))
        by (rewrite <- !Z.pow_add_r by lia; f_equal; lia).
      assert (P2 : 2 ^ (ex - ey - e') * 2 ^ (E + 1074) * 2 ^ (ey + 1074) = 2 ^ (ex + 2148 + n))
        by (rewrite <- !Z.pow_add_r by lia; f_equal; unfold E; lia).
      transitivity (Zpos mx * Zpos my * (2 ^ (ex + 1074) * 2 ^ 1074 * 2 ^ n)); [ring|].
      rewrite P1, <- P2. ring. }
    assert (Pos : forall mA eA, valid_binary (S754_finite false mA eA) = true ->
              (scaled mA eA * scaled my ey <= scaled mx ex * 2 ^ 1074 ->
               scaled mA eA <= R * 2 ^ (E + 1074)) /\
              (scaled mx ex * 2 ^ 1074 <= scaled mA eA * scaled my ey ->
               R * 2 ^ (E + 1074) <= scaled mA eA)).
    { intros mA eA VA'. apply valid_finite in VA'. destruct VA' as (HeA & HmA & _).
      destruct (quotient_sandwich q r (Zpos my) n E R mA eA Hq Hr Hn HE Rb Rx' Hnorm
                  ltac:(lia) HmA) as [S1 S2].
      cbv zeta in S1, S2.
      assert (HNd : 0 < 2 ^ n * Zpos my) by (apply Z.mul_pos_pos; lia).
      split; intros H.
      - apply S1. apply (Z.mul_le_mono_pos_r _ _ (scaled my ey) HW).
        rewrite <- F1.
        replace (scaled mA eA * 2 ^ n * Zpos my * scaled my ey)
          with (scaled mA eA * scaled my ey * (2 ^ n * Zpos my)) by ring.
        apply Z.mul_le_mono_nonneg_r; lia.
      - apply S2. apply (Z.mul_le_mono_pos_r _ _ (scaled my ey) HW).
        rewrite <- F1.
        replace (scaled mA eA * 2 ^ n * Zpos my * scaled my ey)
          with (scaled mA eA * scaled my ey * (2 ^ n * Zpos my)) by ring.
        apply Z.mul_le_mono_nonneg_r; lia. }
    assert (Hh := huge_pos).
    destruct A as [sA|sA| |sA mA eA]; try discriminate FA.
    + (* against zero *)
      cbn [key]. rewrite Z.mul_0_l.
      destruct Hk as [[_ ->]|[-> Hov]]; cbn [key]; destruct sx; cbn [cond_Zopp] in *; lia.
    + assert (HA := scaled_lt_huge sA mA eA VA).
      destruct (Pos mA eA (valid_sign sA false mA eA VA)) as [S1 S2].
      assert (HP : 0 < scaled mA eA * scaled my ey) by (apply Z.mul_pos_pos; lia).
      cbn [key].
      set (a := scaled mA eA) in *. set (T := scaled mx ex * 2 ^ 1074) in *.
      set (P := a * scaled my ey) in *. set (K := R * 2 ^ (E + 1074)) in *.
      assert (EP : forall b, cond_Zopp b a * scaled my ey = cond_Zopp b P)
        by (intros []; cbn [cond_Zopp]; unfold P; ring).
      assert (ET : forall b, cond_Zopp b (scaled mx ex) * 2 ^ 1074 = cond_Zopp b T)
        by (intros []; cbn [cond_Zopp]; unfold T; ring).
      rewrite EP, ET.
      destruct Hk as [[_ ->]|[-> Hov]]; cbn [key];
        destruct sx, sA; cbn [cond_Zopp]; lia.
Qed.

(** ** The mean of finite doubles *)

Lemma key_finite (x : spec_float) :
  sf_nan x = false -> - huge < key x < huge -> sf_finite x = true.
Proof.
  destruct x as [s|s| |s m e]; cbn [sf_nan sf_finite key]; try reflexivity;
    try discriminate.
  destruct s; cbn [cond_Zopp]; lia.
Qed.

Lemma b64_key_bounds (x : float) : b64_finite x = true -> - huge < b64_key x < huge.
Proof. intros H. apply key_bounds; [apply Prim2SF_valid | exact H]. Qed.

(** The running sum of values between [L] and [H] stays between the
    multiples of [L] and [H], as long as these are doubles. *)
Lemma sum_between (l : list float) (L H : float) (k : Z) :
  multiples_exact k L -> multiples_exact k H ->
  (forall x, In x l -> b64_finite x = true /\ b64_key L <= b64_key x <= b64_key H) ->
  forall (acc : float) (j : Z),
    0 <= j -> j + Z.of_nat (length l) <= k ->
    b64_finite acc = true -> j * b64_key L <= b64_key acc <= j * b64_key H ->
    b64_finite (fold_left PrimFloat.add l acc) = true /\
    (j + Z.of_nat (length l)) * b64_key L <= b64_key (fold_left PrimFloat.add l acc)
      <= (j + Z.of_nat (length l)) * b64_key H.
Proof.
  intros ML MH. induction l as [|x t IH]; intros Hx acc j Hj Hk Fa Ba.
  - cbn [fold_left length]. rewrite Z.add_0_r. auto.
  - cbn [fold_left]. cbn [length] in Hk |- *. rewrite Nat2Z.inj_succ in Hk |- *.
    destruct (Hx x (or_introl eq_refl)) as [Fx Bx].
    destruct (ML (j + 1) ltac:(lia)) as (aL & FL & KL).
    destruct (MH (j + 1) ltac:(lia)) as (aH & FH & KH).
    assert (R := SFadd_rounds (Prim2SF acc) (Prim2SF x)
                   (Prim2SF_valid acc) (Prim2SF_valid x) Fa Fx).
    destruct R as [Nn R].
    destruct (R (Prim2SF aL) (Prim2SF_valid aL) FL) as [R1 _].
    destruct (R (Prim2SF aH) (Prim2SF_valid aH) FH) as [_ R2].
    fold (b64_key aL) in R1. fold (b64_key aH) in R2.
    fold (b64_key acc) (b64_key x) in R1, R2.
    assert (BL := b64_key_bounds aL FL). assert (BH := b64_key_bounds aH FH).
    assert (Es : Prim2SF (acc + x) = SFadd prec emax (Prim2SF acc) (Prim2SF x))
      by apply add_spec.
    assert (K1 : b64_key aL <= b64_key (acc + x)).
    { unfold b64_key at 2. rewrite Es. apply R1. rewrite KL. lia. }
    assert (K2 : b64_key (acc + x) <= b64_key aH).
    { unfold b64_key at 1. rewrite Es. apply R2. rewrite KH. lia. }
    assert (Fs : b64_finite (acc + x) = true).
    { unfold b64_finite. apply key_finite; [rewrite Es; exact Nn|].
      fold (b64_key (acc + x)). lia. }
    replace (j + Z.succ (Z.of_nat (length t))) with (j + 1 + Z.of_nat (length t)) by lia.
    apply IH; try assumption; try lia.
    intros y Hy. apply Hx. now right.
Qed.

(** A count below [2^53] as a double. *)
Lemma count_float (k : Z) :
  1 <= k < 2 ^ 53 ->
  exists m e, Prim2SF (B64.of_Z k) = S754_finite false m e /\
              valid_binary (S754_finite false m e) = true /\
              scaled m e = k * 2 ^ 1074.
Proof.
  intros Hk.
  assert (K := of_Z_exact k ltac:(lia)).
  assert (F := of_Z_finite k ltac:(change (2 ^ 64) with 18446744073709551616;
                                    change (2 ^ 53) with 9007199254740992 in Hk; lia)).
  assert (V := Prim2SF_valid (B64.of_Z k)).
  unfold b64_key in K. unfold b64_finite in F.
  assert (Hp : 0 < k * 2 ^ 1074) by (apply Z.mul_pos_pos; [lia | apply Z.pow_pos_nonneg; lia]).
  destruct (Prim2SF (B64.of_Z k)) as [s|s| |s m e]; try discriminate F; cbn [key] in K.
  - lia.
  - assert (Hs := scaled_pos m e ltac:(apply valid_finite in V; lia)).
    destruct s; cbn [cond_Zopp] in K; [lia|].
    exists m, e. auto.
Qed.

(** The mean of values between [L] and [H] lies between [L] and [H]
    when the multiples of the two bounds are doubles: the division rounds
    a quotient that lies between them, and they are doubles. *)
Lemma mean_between (l : list float) (L H : float) :
  1 <= Z.of_nat (length l) < 2 ^ 53 ->
  b64_finite L = true -> b64_finite H = true ->
  multiples_exact (Z.of_nat (length l)) L -> multiples_exact (Z.of_nat (length l)) H ->
  (forall x, In x l -> b64_finite x = true /\ b64_key L <= b64_key x <= b64_key H) ->
  b64_finite (population_mean l) = true /\
  b64_key L <= b64_key (population_mean l) <= b64_key H.
Proof.
  intros Hk FL FH ML MH Hx.
  unfold population_mean. cbn [d_div d_add d_zero d_of_Z binary64].
  set (k := Z.of_nat (length l)) in *.
  destruct (sum_between l L H k ML MH Hx 0%float 0 ltac:(lia) ltac:(fold k; lia)
              eq_refl ltac:(change (b64_key 0) with 0; lia)) as [Fs Bs].
  fold k in Bs. rewrite Z.add_0_l in Bs.
  set (s := fold_left PrimFloat.add l 0%float) in *.
  destruct (count_float k Hk) as (m & e & Ec & Vc & Kc).
  assert (Ed : Prim2SF (s / B64.of_Z k) =
               SFdiv prec emax (Prim2SF s) (S754_finite false m e))
    by (rewrite div_spec, Ec; reflexivity).
  destruct (SFdiv_rounds (Prim2SF s) m e (Prim2SF_valid s) Fs Vc) as [Nn Q].
  rewrite <- Ed in Nn, Q. rewrite Kc in Q.
  fold (b64_key s) in Q. fold (b64_key (s / B64.of_Z k)) in Q.
  assert (Hp : 0 < 2 ^ 1074) by (apply Z.pow_pos_nonneg; lia).
  destruct (Q (Prim2SF L) (Prim2SF_valid L) FL) as [Q1 _].
  destruct (Q (Prim2SF H) (Prim2SF_valid H) FH) as [_ Q2].
  fold (b64_key L) in Q1. fold (b64_key H) in Q2.
  assert (K1 : b64_key L <= b64_key (s / B64.of_Z k)).
  { apply Q1. replace (b64_key L * (k * 2 ^ 1074)) with (k * b64_key L * 2 ^ 1074) by ring.
    apply Z.mul_le_mono_nonneg_r; lia. }
  assert (K2 : b64_key (s / B64.of_Z k) <= b64_key H).
  { apply Q2. replace (b64_key H * (k * 2 ^ 1074)) with (k * b64_key H * 2 ^ 1074) by ring.
    apply Z.mul_le_mono_nonneg_r; lia. }
  split; [|lia].
  assert (BL := b64_key_bounds L FL). assert (BH := b64_key_bounds H FH).
  unfold b64_finite. apply key_finite; [exact Nn|].
  fold (b64_key (s / B64.of_Z k)). lia.
Qed.

(** Least and greatest element of finite doubles. *)
Lemma fold_min_spec (t : list float) (m : float) :
  b64_finite m = true -> Forall (fun x => b64_finite x = true) t ->
  let r := fold_left (d_min (DD := binary64)) t m in
  (r = m \/ In r t) /\ b64_key r <= b64_key m /\
  forall x, In x t -> b64_key r <= b64_key x.
Proof.
  revert m. induction t as [|y t IH]; intros m Fm Ft; cbn [fold_left].
  - cbv zeta. split; [now left|]. split; [lia | intros x []].
  - inversion Ft as [|? ? Fy Ft']; subst.
    assert (E : d_min (DD := binary64) m y = (if b64_key m <=? b64_key y then m else y)).
    { unfold d_min. cbn [d_le binary64]. rewrite leb_key by assumption. reflexivity. }
    assert (Fd : b64_finite (d_min (DD := binary64) m y) = true)
      by (rewrite E; destruct (_ <=? _); assumption).
    destruct (IH (d_min (DD := binary64) m y) Fd Ft') as (I1 & I2 & I3).
    cbv zeta in I1, I2, I3 |- *.
    set (r := fold_left d_min t (d_min m y)) in *.
    assert (Kd : b64_key (d_min (DD := binary64) m y) <= b64_key m /\
                 b64_key (d_min (DD := binary64) m y) <= b64_key y).
    { rewrite E. destruct (Z.leb_spec (b64_key m) (b64_key y)); lia. }
    split; [|split].
    + destruct I1 as [I1|I1]; [|right; now right].
      rewrite I1, E. destruct (_ <=? _); [now left | right; now left].
    + lia.
    + intros x [<-|Hx]; [lia | now apply I3].
Qed.

Lemma fold_max_spec (t : list float) (m : float) :
  b64_finite m = true -> Forall (fun x => b64_finite x = true) t ->
  let r := fold_left (d_max (DD := binary64)) t m in
  (r = m \/ In r t) /\ b64_key m <= b64_key r /\
  forall x, In x t -> b64_key x <= b64_key r.
Proof.
  revert m. induction t as [|y t IH]; intros m Fm Ft; cbn [fold_left].
  - cbv zeta. split; [now left|]. split; [lia | intros x []].
  - inversion Ft as [|? ? Fy Ft']; subst.
    assert (E : d_max (DD := binary64) m y = (if b64_key m <=? b64_key y then y else m)).
    { unfold d_max. cbn [d_le binary64]. rewrite leb_key by assumption. reflexivity. }
    assert (Fd : b64_finite (d_max (DD := binary64) m y) = true)
      by (rewrite E; destruct (_ <=? _); assumption).
    destruct (IH (d_max (DD := binary64) m y) Fd Ft') as (I1 & I2 & I3).
    cbv zeta in I1, I2, I3 |- *.
    set (r := fold_left d_max t (d_max m y)) in *.
    assert (Kd : b64_key m <= b64_key (d_max (DD := binary64) m y) /\
                 b64_key y <= b64_key (d_max (DD := binary64) m y)).
    { rewrite E. destruct (Z.leb_spec (b64_key m) (b64_key y)); lia. }
    split; [|split].
    + destruct I1 as [I1|I1]; [|right; now right].
      rewrite I1, E. destruct (_ <=? _); [right; now left | now left].
    + lia.
    + intros x [<-|Hx]; [lia | now apply I3].
Qed.

Lemma list_min_max_spec (l : list float) :
  l <> [] -> Forall (fun x => b64_finite x = true) l ->
  b64_finite (list_min (DD := binary64) l) = true /\
  b64_finite (list_max (DD := binary64) l) = true /\
  forall x, In x l ->
    b64_key (list_min (DD := binary64) l) <= b64_key x <= b64_key (list_max (DD := binary64) l).
Proof.
  intros Hne Hf. destruct l as [|m t]; [contradiction|].
  inversion Hf as [|? ? Fm Ft]; subst. cbn [list_min list_max].
  destruct (fold_min_spec t m Fm Ft) as (A1 & A2 & A3).
  destruct (fold_max_spec t m Fm Ft) as (B1 & B2 & B3).
  cbv zeta in *. rewrite Forall_forall in Hf.
  split; [|split].
  - apply Hf. destruct A1 as [->|A1]; [now left | now right].
  - apply Hf. destruct B1 as [->|B1]; [now left | now right].
  - intros x [<-|Hx]; [lia|]. split; [now apply A3 | now apply B3].
Qed.

Lemma list_min_max_in (l : list float) :
  l <> [] -> Forall (fun x => b64_finite x = true) l ->
  In (list_min (DD := binary64) l) l /\ In (list_max (DD := binary64) l) l.
Proof.
  intros Hne Hf. destruct l as [|m t]; [contradiction|].
  inversion Hf as [|? ? Fm Ft]; subst. cbn [list_min list_max].
  destruct (fold_min_spec t m Fm Ft) as (A1 & _).
  destruct (fold_max_spec t m Fm Ft) as (B1 & _).
  cbv zeta in *. split.
  - destruct A1 as [->|A1]; [now left | now right].
  - destruct B1 as [->|B1]; [now left | now right].
Qed.

(** The mean of finite doubles between two bounds below their least and
    above their greatest. *)
Lemma population_mean_within (vs : list float) (L H : float) :
  Forall (fun x => b64_finite x = true) vs ->
  1 <= Z.of_nat (length vs) < 2 ^ 53 ->
  multiples_exact (Z.of_nat (length vs)) L ->
  multiples_exact (Z.of_nat (length vs)) H ->
  PrimFloat.leb L (list_min vs) = true -> PrimFloat.leb (list_max vs) H = true ->
  PrimFloat.leb L (population_mean vs) = true /\
  PrimFloat.leb (population_mean vs) H = true.
Proof.
  intros Fv Hk ML MH HL HH.
  assert (Hne : vs <> []) by (intros E; rewrite E in Hk; cbn in Hk; lia).
  destruct (list_min_max_spec vs Hne Fv) as (Fmin & Fmax & B).
  assert (FL : b64_finite L = true).
  { destruct (leb_true_not_nan _ _ HL) as [NL _].
    destruct (ML 1 ltac:(lia)) as (a & Fa & Ka).
    assert (Ba := b64_key_bounds a Fa).
    unfold b64_finite. apply key_finite; [exact NL|]. fold (b64_key L). lia. }
  assert (FH : b64_finite H = true).
  { destruct (leb_true_not_nan _ _ HH) as [_ NH].
    destruct (MH 1 ltac:(lia)) as (a & Fa & Ka).
    assert (Ba := b64_key_bounds a Fa).
    unfold b64_finite. apply key_finite; [exact NH|]. fold (b64_key H). lia. }
  rewrite leb_key in HL, HH by assumption.
  apply Z.leb_le in HL, HH.
  destruct (mean_between vs L H Hk FL FH ML MH) as [Fm Bm].
  { intros x Hx. split; [exact (proj1 (Forall_forall _ _) Fv x Hx)|].
    specialize (B x Hx). lia. }
  rewrite !leb_key by assumption.
  split; apply Z.leb_le; lia.
Qed.

Lemma valid_set_of_finite {S} {SS : Sample float S} (times : list S) (num_runs : Z) :
  let f := calculate_statistics_frame times num_runs in
  Z.of_nat (length times) = num_runs ->
  Forall (fun x => b64_finite (s_double x) = true) times ->
  Forall (fun x => b64_finite x = true) (valid_set f num_runs).
Proof.
  intros f Hl Hf.
  assert (Hig : 0 <= ignore_runs f) by (apply ignore_count_nonneg; lia).
  rewrite Forall_forall in Hf |- *. intros x Hx.
  unfold valid_set in Hx. apply in_map_iff in Hx. destruct Hx as (y & <- & Hy).
  apply filter_In in Hy. destruct Hy as [Hy _].
  unfold window in Hy. apply in_map_iff in Hy. destruct Hy as (p & <- & Hp).
  apply in_range in Hp. apply Hf.
  apply (sorted_times_in times num_runs Hl). lia.
Qed.

(** ** Sample inputs *)

Lemma five_times_finite : Forall (fun x => b64_finite x = true) five_times.
Proof. repeat constructor. Qed.

Lemma five_cycles_range : Forall (fun c => 0 <= c < 2 ^ 64) five_cycles.
Proof.
  apply Forall_forall. intros c Hc. unfold five_cycles in Hc. cbn [In] in Hc.
  change (2 ^ 64) with 18446744073709551616. lia.
Qed.

(** ** The mean of cycle counts *)

Lemma multiples_exact_of_Z (k c : Z) :
  0 <= c -> 1 <= k -> c * k < 2 ^ 53 -> multiples_exact k (B64.of_Z c).
Proof.
  intros Hc Hk Hb j Hj. exists (B64.of_Z (j * c)).
  assert (Hjc : 0 <= j * c <= c * k) by nia.
  assert (Hc53 : c < 2 ^ 53) by nia.
  split.
  - apply of_Z_finite. change (2 ^ 64) with 18446744073709551616.
    change (2 ^ 53) with 9007199254740992 in Hb. lia.
  - rewrite !of_Z_exact by lia. ring.
Qed.

(** X8.  In the cycles version the mean lies between the least and the
    greatest valid cycle count whenever the counts are small enough for their
    sum to be exact: every count times the number of runs is below 2^53. *)
Theorem cycles_mean_within_valid_set (cycles : list Z) (num_runs : Z) :
  let f := calculate_statistics_frame (SS := b64_cycles) cycles num_runs in
  Z.of_nat (length cycles) = num_runs ->
  num_runs <= INT_MAX ->
  Forall (fun c => 0 <= c /\ c * num_runs < 2 ^ 53) cycles ->
  1 <= effective_runs f ->
  1 <= valid_runs f /\
  mean_within_valid_set (SS := b64_cycles) cycles num_runs = true.
Proof.
  intros f Hl Hmax Hc He.
  assert (Hig : 0 <= ignore_runs f) by (apply ignore_count_nonneg; lia).
  assert (Hn1 : 1 <= num_runs)
    by (change (effective_runs f) with (num_runs - 2 * ignore_runs f) in He; lia).
  assert (Hc64 : Forall (fun c => 0 <= c < 2 ^ 64) cycles).
  { eapply Forall_impl; [|exact Hc]. cbv beta. intros c [H0 H1].
    change (2 ^ 64) with 18446744073709551616.
    change (2 ^ 53) with 9007199254740992 in H1. nia. }
  destruct (cycles_interquartile_valid cycles num_runs Hl Hc64 He) as (_ & V & _).
  assert (Hi := keyed_indices (SS := b64_cycles) cycles num_runs Hig He).
  assert (B := valid_runs_bounds (SS := b64_cycles) cycles num_runs).
  cbv zeta in V, B. fold f in V, B, Hi.
  change (effective_runs f) with (num_runs - 2 * ignore_runs f) in B.
  assert (Hv : 1 <= valid_runs f <= num_runs) by lia.
  split; [lia|].
  set (vs := valid_set f num_runs).
  assert (Ff : Forall (fun x => b64_finite (s_double (Sample := b64_cycles) x) = true) cycles).
  { eapply Forall_impl; [|exact Hc64]. cbv beta. intros c Hc'.
    apply of_Z_finite. exact Hc'. }
  assert (Fv : Forall (fun x => b64_finite x = true) vs)
    by (exact (valid_set_of_finite (SS := b64_cycles) cycles num_runs Hl Ff)).
  assert (Ev : valid_runs f = Z.of_nat (length vs)) by (unfold f, vs; apply valid_runs_eq).
  assert (Em : mean f = population_mean vs) by (unfold f, vs; apply mean_population).
  assert (Hne : vs <> []).
  { intros E. assert (L0 : length vs = 0%nat) by (rewrite E; reflexivity). lia. }
  destruct (list_min_max_spec vs Hne Fv) as (Fmin & Fmax & _).
  destruct (list_min_max_in vs Hne Fv) as (Imin & Imax).
  assert (Hk : 1 <= Z.of_nat (length vs) < 2 ^ 53).
  { rewrite <- Ev. unfold INT_MAX in Hmax. change (2 ^ 53) with 9007199254740992. lia. }
  assert (M : forall x, In x vs -> multiples_exact (Z.of_nat (length vs)) x).
  { intros x Hx. unfold vs, valid_set in Hx.
    apply in_map_iff in Hx. destruct Hx as (c & <- & Hy).
    apply filter_In in Hy. destruct Hy as [Hy _].
    unfold window in Hy. apply in_map_iff in Hy. destruct Hy as (p & <- & Hp).
    apply in_range in Hp.
    assert (Ic := sorted_times_in (SS := b64_cycles) cycles num_runs Hl p ltac:(lia)).
    fold f in Ic. set (c := get s_default (sorted_times f) p) in *.
    destruct (proj1 (Forall_forall _ _) Hc c Ic) as [H0 H1].
    cbn [s_double b64_cycles cycle_sample d_of_Z binary64].
    apply multiples_exact_of_Z; [exact H0 | lia |].
    rewrite <- Ev. nia. }
  unfold mean_within_valid_set. cbv zeta. fold f vs. cbn [d_le binary64]. rewrite Em.
  destruct (population_mean_within vs (list_min vs) (list_max vs) Fv Hk
              (M _ Imin) (M _ Imax)) as [A1 A2].
  - rewrite leb_key by assumption. apply Z.leb_refl.
  - rewrite leb_key by assumption. apply Z.leb_refl.
  - rewrite A1, A2. reflexivity.
Qed.

(** ** The cycle count of generate_ecdh_key *)

(** A number of at most 53 bits, scaled by a power of two and below the
    overflow threshold, is a double. *)
Lemma representable (m : positive) (e : Z) :
  Zpos m < 2 ^ 53 -> -1074 <= e -> Zpos m * 2 ^ (e + 1074) < huge ->
  exists a : float, b64_finite a = true /\ b64_key a = Zpos m * 2 ^ (e + 1074).
Proof.
  intros Hm He Hh.
  destruct (binary_round_spec false m e He) as (mf & ef & Er & Hef & Hmf & Hn & HK).
  cbv zeta in HK.
  destruct (dropped_cases m) as [[Hd _]|(Hd0 & Hd & _)].
  2:{ exfalso. destruct (digits2_bounds m) as [Dlo _].
      assert (2 ^ 53 <= 2 ^ (Zpos (digits2_pos m) - 1)) by (apply Z.pow_le_mono_r; lia).
      lia. }
  rewrite Hd, rne_0, Z.add_0_l in HK.
  destruct (Z.leb_spec ef 971) as [Hle|Hgt].
  - exists (SF2Prim (S754_finite false mf ef)).
    assert (V : valid_binary (S754_finite false mf ef) = true)
      by (apply valid_finite; repeat split; try assumption; lia).
    unfold b64_finite, b64_key. rewrite Prim2SF_SF2Prim by exact V.
    split; [reflexivity | exact HK].
  - exfalso. assert (H := huge_le_scaled mf ef Hgt (Hn ltac:(lia))). lia.
Qed.

(** X17.  The cycle count that [generate_ecdh_key] derives from the
    elapsed nanoseconds is the elapsed time scaled by 2.4 = 12/5 and rounded
    down, in binary64, as long as the product of the nanoseconds and the
    frequency is below 2^53 (an elapsed time up to 3.75 ms): the product is
    exact, and the rounded quotient does not reach the next integer. *)
Theorem cycles_are_scaled_time (ns : Z) :
  0 <= ns -> ns * 2400000000 < 2 ^ 53 ->
  cycles_of_ns (DD := binary64) ns = ns * 12 / 5.
Proof.
  intros H0 Hb.
  destruct (Z.eq_dec ns 0) as [->|Hne]; [reflexivity|].
  unfold cycles_of_ns, CPU_CLOCK_FREQUENCY. cbn [d_to_int d_div d_mul d_of_Z binary64].
  set (T := ns * 2400000000) in *.
  set (k := ns * 12 / 5).
  assert (Hp53 : 2 ^ 53 = 9007199254740992) by reflexivity.
  assert (HT : T = k * 1000000000 + 200000000 * ((ns * 12) mod 5)).
  { unfold T, k. assert (E := Z.div_mod (ns * 12) 5 ltac:(lia)). lia. }
  assert (Hr := Z.mod_pos_bound (ns * 12) 5 ltac:(lia)).
  assert (Hk : 0 <= k) by (unfold k; apply Z.div_pos; lia).
  assert (Hp : 0 < 2 ^ 1074) by (apply Z.pow_pos_nonneg; lia).
  assert (Hp1 : 2 ^ 1074 = 8 * 2 ^ 1071)
    by (change 1074 with (3 + 1071); rewrite (Z.pow_add_r 2 3 1071) by lia; reflexivity).
  assert (Hp2 : 0 < 2 ^ 1071) by (apply Z.pow_pos_nonneg; lia).
  (* the product is exact *)
  destruct (of_Z_normal ns ltac:(change (2 ^ 64) with 18446744073709551616; lia))
    as (ma & ea & Ea & Hma & Hea).
  assert (Ka := of_Z_exact ns ltac:(lia)). unfold b64_key in Ka. rewrite Ea in Ka.
  cbn [key cond_Zopp] in Ka. unfold scaled in Ka.
  set (b := B64.of_Z 2400000000).
  assert (Eb : Prim2SF b = S754_finite false 5033164800000000 (-21)) by reflexivity.
  assert (Kb : 5033164800000000 * 2 ^ (-21 + 1074) = 2400000000 * 2 ^ 1074).
  { replace (2400000000 * 2 ^ 1074) with (2400000000 * 2 ^ 21 * 2 ^ 1053).
    - reflexivity.
    - rewrite <- Z.mul_assoc, <- (Z.pow_add_r 2 21 1053) by lia. reflexivity. }
  set (p := (B64.of_Z ns * b)%float).
  assert (Rp : rounds_to (Prim2SF p) (T * 2 ^ 1074)).
  { unfold p. rewrite mul_spec, Ea, Eb.
    assert (R := SFmul_rounds false false ma 5033164800000000 ea (-21) Hma
                   ltac:(change (2 ^ 52) with 4503599627370496; lia) ltac:(lia)).
    cbn [xorb cond_Zopp] in R.
    replace (T * 2 ^ 1074) with (Zpos ma * 5033164800000000 * 2 ^ (ea + -21 + 1074)); [exact R|].
    apply (Z.mul_cancel_r _ _ (2 ^ 1074)); [lia|].
    transitivity (Zpos ma * 2 ^ (ea + 1074) * (5033164800000000 * 2 ^ (-21 + 1074))).
    - replace (ea + -21 + 1074) with (ea + 1053) by lia.
      assert (E1 : 2 ^ (ea + 1053) * 2 ^ 1074 = 2 ^ (ea + 1074) * 2 ^ (-21 + 1074))
        by (rewrite <- !Z.pow_add_r by lia; f_equal; lia).
      transitivity (Zpos ma * 5033164800000000 * (2 ^ (ea + 1053) * 2 ^ 1074)); [ring|].
      rewrite E1. ring.
    - rewrite Ka, Kb. unfold T. ring. }
  destruct Rp as [Np Rp].
  assert (FT : b64_finite (B64.of_Z T) = true)
    by (apply of_Z_finite; change (2 ^ 64) with 18446744073709551616; unfold T; lia).
  assert (KT := of_Z_exact T ltac:(unfold T; lia)).
  destruct (Rp (Prim2SF (B64.of_Z T)) (Prim2SF_valid _) FT) as [R1 R2].
  fold (b64_key (B64.of_Z T)) in R1, R2. fold (b64_key p) in R1, R2. rewrite KT in R1, R2.
  assert (Kp : b64_key p = T * 2 ^ 1074) by lia.
  assert (Bp := b64_key_bounds (B64.of_Z T) FT). rewrite KT in Bp.
  assert (Fp : b64_finite p = true).
  { unfold b64_finite. apply key_finite; [exact Np|]. fold (b64_key p). lia. }
  (* the quotient lies in [k, k + 7/8] *)
  destruct (count_float 1000000000 ltac:(lia)) as (mc & ec & Ec & Vc & Kc).
  set (q := (p / B64.of_Z 1000000000)%float).
  assert (Eq : Prim2SF q = SFdiv prec emax (Prim2SF p) (S754_finite false mc ec))
    by (unfold q; rewrite div_spec, Ec; reflexivity).
  destruct (SFdiv_rounds (Prim2SF p) mc ec (Prim2SF_valid p) Fp Vc) as [Nq Q].
  rewrite <- Eq in Nq, Q. rewrite Kc in Q.
  fold (b64_key p) in Q. fold (b64_key q) in Q. rewrite Kp in Q.
  assert (Fk : b64_finite (B64.of_Z k) = true)
    by (apply of_Z_finite; change (2 ^ 64) with 18446744073709551616; lia).
  assert (Kk := of_Z_exact k ltac:(lia)).
  assert (Fk1 : b64_finite (B64.of_Z (k + 1)) = true)
    by (apply of_Z_finite; change (2 ^ 64) with 18446744073709551616; lia).
  assert (Kk1 := of_Z_exact (k + 1) ltac:(lia)).
  destruct (Q (Prim2SF (B64.of_Z k)) (Prim2SF_valid _) Fk) as [Q1 _].
  fold (b64_key (B64.of_Z k)) in Q1. rewrite Kk in Q1.
  assert (L1 : k * 2 ^ 1074 <= b64_key q).
  { apply Q1.
    replace (k * 2 ^ 1074 * (1000000000 * 2 ^ 1074))
      with (k * 1000000000 * (2 ^ 1074 * 2 ^ 1074)) by ring.
    replace (T * 2 ^ 1074 * 2 ^ 1074) with (T * (2 ^ 1074 * 2 ^ 1074)) by ring.
    apply Z.mul_le_mono_nonneg_r; nia. }
  destruct (representable (Z.to_pos (8 * k + 7)) (-3)) as (a2 & Fa2 & Ka2).
  { rewrite Z2Pos.id by lia. lia. }
  { lia. }
  { rewrite Z2Pos.id by lia. replace (-3 + 1074) with 1071 by lia.
    unfold huge. replace 2098 with (53 + 2045) by lia.
    rewrite (Z.pow_add_r 2 53 2045) by lia.
    assert (2 ^ 1071 <= 2 ^ 2045) by (apply Z.pow_le_mono_r; lia).
    assert (0 < 2 ^ 2045) by (apply Z.pow_pos_nonneg; lia).
    rewrite Hp53. nia. }
  rewrite Z2Pos.id in Ka2 by lia. replace (-3 + 1074) with 1071 in Ka2 by lia.
  destruct (Q (Prim2SF a2) (Prim2SF_valid _) Fa2) as [_ Q2].
  fold (b64_key a2) in Q2. rewrite Ka2 in Q2.
  assert (L2 : b64_key q <= (8 * k + 7) * 2 ^ 1071).
  { apply Q2. rewrite Hp1.
    replace (T * (8 * 2 ^ 1071) * (8 * 2 ^ 1071)) with (8 * T * (8 * 2 ^ 1071 * 2 ^ 1071)) by ring.
    replace ((8 * k + 7) * 2 ^ 1071 * (1000000000 * (8 * 2 ^ 1071)))
      with ((8 * k + 7) * 1000000000 * (8 * 2 ^ 1071 * 2 ^ 1071)) by ring.
    apply Z.mul_le_mono_nonneg_r; nia. }
  assert (Fq : b64_finite q = true).
  { unfold b64_finite. apply key_finite; [exact Nq|]. fold (b64_key q).
    assert (Ba := b64_key_bounds a2 Fa2). rewrite Ka2 in Ba. nia. }
  apply to_int_between; try lia.
  - rewrite leb_key by assumption. apply Z.leb_le. lia.
  - rewrite ltb_key by assumption. rewrite Z.gtb_ltb. apply Z.ltb_lt. rewrite Kk1, Hp1.
    assert ((8 * k + 7) * 2 ^ 1071 < (8 * k + 8) * 2 ^ 1071)
      by (apply Z.mul_lt_mono_pos_r; lia).
    replace ((k + 1) * (8 * 2 ^ 1071)) with ((8 * k + 8) * 2 ^ 1071) by ring. lia.
Qed.

(** ** The ignore count *)

(** [num_runs * IGNORE_PERCENTAGE] truncates to a fifth of the count for
    every [int]: the double nearest to 0.2 is [0.2 * (1 + 2^-54)], and the
    rounded product stays in [[k, k + 7/8]] for [k] the fifth, rounded
    down. *)
Lemma ignore_count_fifth (n : Z) :
  0 <= n <= INT_MAX -> ignore_count (DD := binary64) n = n / 5.
Proof.
  unfold INT_MAX. intros Hn.
  destruct (Z.eq_dec n 0) as [->|Hne]; [reflexivity|].
  unfold ignore_count. cbn [d_to_int d_mul d_of_Z IGNORE_PERCENTAGE binary64].
  set (k := n / 5).
  assert (Hd := Z.div_mod n 5 ltac:(lia)). fold k in Hd.
  assert (Hr := Z.mod_pos_bound n 5 ltac:(lia)).
  assert (Hk : 0 <= k) by (unfold k; apply Z.div_pos; lia).
  assert (Hp53 : 2 ^ 53 = 9007199254740992) by reflexivity.
  assert (Hp : 0 < 2 ^ 1019) by (apply Z.pow_pos_nonneg; lia).
  assert (P1 : 2 ^ 1074 = 36028797018963968 * 2 ^ 1019)
    by (change 1074 with (55 + 1019); rewrite (Z.pow_add_r 2 55 1019) by lia; reflexivity).
  assert (P2 : 2 ^ 1071 = 4503599627370496 * 2 ^ 1019)
    by (change 1071 with (52 + 1019); rewrite (Z.pow_add_r 2 52 1019) by lia; reflexivity).
  destruct (of_Z_normal n ltac:(change (2 ^ 64) with 18446744073709551616; lia))
    as (ma & ea & Ea & Hma & Hea).
  assert (Ka := of_Z_exact n ltac:(lia)). unfold b64_key in Ka. rewrite Ea in Ka.
  cbn [key cond_Zopp] in Ka. unfold scaled in Ka.
  assert (Ka' : Zpos ma * 2 ^ (ea + 1019) = n * 2 ^ 1019).
  { apply (Z.mul_cancel_r _ _ 36028797018963968); [lia|].
    rewrite <- !Z.mul_assoc, (Z.mul_comm (2 ^ 1019)), <- P1, <- Ka.
    f_equal. change 36028797018963968 with (2 ^ 55).
    rewrite <- Z.pow_add_r by lia. f_equal. lia. }
  set (c := 0x1.999999999999ap-3%float).
  assert (Ec : Prim2SF c = S754_finite false 7205759403792794 (-55)) by reflexivity.
  set (p := (B64.of_Z n * c)%float).
  assert (Rp : rounds_to (Prim2SF p) (n * 7205759403792794 * 2 ^ 1019)).
  { unfold p. rewrite mul_spec, Ea, Ec.
    assert (R := SFmul_rounds false false ma 7205759403792794 ea (-55) Hma
                   ltac:(change (2 ^ 52) with 4503599627370496; lia) ltac:(lia)).
    cbn [xorb cond_Zopp] in R.
    replace (n * 7205759403792794 * 2 ^ 1019)
      with (Zpos ma * 7205759403792794 * 2 ^ (ea + -55 + 1074)); [exact R|].
    replace (ea + -55 + 1074) with (ea + 1019) by lia.
    rewrite <- Z.mul_assoc, (Z.mul_comm 7205759403792794), Z.mul_assoc, Ka'. ring. }
  destruct Rp as [Np Rp].
  assert (Fk : b64_finite (B64.of_Z k) = true)
    by (apply of_Z_finite; change (2 ^ 64) with 18446744073709551616; lia).
  assert (Kk := of_Z_exact k ltac:(lia)).
  assert (Fk1 : b64_finite (B64.of_Z (k + 1)) = true)
    by (apply of_Z_finite; change (2 ^ 64) with 18446744073709551616; lia).
  assert (Kk1 := of_Z_exact (k + 1) ltac:(lia)).
  destruct (Rp (Prim2SF (B64.of_Z k)) (Prim2SF_valid _) Fk) as [R1 _].
  fold (b64_key (B64.of_Z k)) in R1. fold (b64_key p) in R1. rewrite Kk in R1.
  assert (L1 : k * 2 ^ 1074 <= b64_key p).
  { apply R1. rewrite P1.
    replace (k * (36028797018963968 * 2 ^ 1019)) with (k * 36028797018963968 * 2 ^ 1019) by ring.
    apply Z.mul_le_mono_nonneg_r; lia. }
  destruct (representable (Z.to_pos (8 * k + 7)) (-3)) as (a2 & Fa2 & Ka2).
  { rewrite Z2Pos.id by lia. lia. }
  { lia. }
  { rewrite Z2Pos.id by lia. replace (-3 + 1074) with 1071 by lia.
    unfold huge. replace 2098 with (53 + 2045) by lia.
    rewrite (Z.pow_add_r 2 53 2045) by lia.
    assert (2 ^ 1071 <= 2 ^ 2045) by (apply Z.pow_le_mono_r; lia).
    assert (0 < 2 ^ 2045) by (apply Z.pow_pos_nonneg; lia).
    rewrite Hp53. nia. }
  rewrite Z2Pos.id in Ka2 by lia. replace (-3 + 1074) with 1071 in Ka2 by lia.
  destruct (Rp (Prim2SF a2) (Prim2SF_valid _) Fa2) as [_ R2].
  fold (b64_key a2) in R2. fold (b64_key p) in R2. rewrite Ka2 in R2.
  assert (L2 : b64_key p <= (8 * k + 7) * 2 ^ 1071).
  { apply R2. rewrite P2.
    replace ((8 * k + 7) * (4503599627370496 * 2 ^ 1019))
      with ((8 * k + 7) * 4503599627370496 * 2 ^ 1019) by ring.
    apply Z.mul_le_mono_nonneg_r; lia. }
  assert (Fp : b64_finite p = true).
  { unfold b64_finite. apply key_finite; [exact Np|]. fold (b64_key p).
    assert (Ba := b64_key_bounds a2 Fa2). rewrite Ka2 in Ba.
    assert (0 < 2 ^ 1074) by (apply Z.pow_pos_nonneg; lia). nia. }
  assert (P3 : 2 ^ 1074 = 8 * 2 ^ 1071)
    by (change 1074 with (3 + 1071); rewrite (Z.pow_add_r 2 3 1071) by lia; reflexivity).
  assert (Hp1 : 0 < 2 ^ 1071) by (apply Z.pow_pos_nonneg; lia).
  apply to_int_between; try lia.
  - rewrite leb_key by assumption. apply Z.leb_le. lia.
  - rewrite ltb_key by assumption. rewrite Z.gtb_ltb. apply Z.ltb_lt. rewrite Kk1, P3.
    assert ((8 * k + 7) * 2 ^ 1071 < (8 * k + 8) * 2 ^ 1071)
      by (apply Z.mul_lt_mono_pos_r; lia).
    replace ((k + 1) * (8 * 2 ^ 1071)) with ((8 * k + 8) * 2 ^ 1071) by ring. lia.
Qed.

(** X5.  In binary64 the product [num_runs * 0.2] truncates to a fifth of
    the runs rounded down, for every count that is an [int]: the rounding
    of 0.2 and of the product never changes the ignore count, and at least
    one run is left of an array that is not empty. *)
Theorem ignore_runs_is_fifth {S} {SS : Sample float S} (times : list S) (num_runs : Z) :
  0 <= num_runs <= INT_MAX ->
  let f := calculate_statistics_frame (DD := binary64) times num_runs in
  ignore_runs f = num_runs / 5 /\
  effective_runs f = num_runs - 2 * (num_runs / 5) /\
  (1 <= num_runs -> 1 <= effective_runs f).
Proof.
  intros Hn f.
  assert (E : ignore_runs f = num_runs / 5) by (apply ignore_count_fifth; exact Hn).
  assert (E' : effective_runs f = num_runs - 2 * ignore_runs f) by reflexivity.
  rewrite E', E. split; [reflexivity|]. split; [reflexivity|].
  intros H1. assert (5 * (num_runs / 5) <= num_runs) by (apply Z.mul_div_le; lia). lia.
Qed.

(** ** The quartile indices *)

(** C3.  With N = 50 the function computes ignore_runs = 10 and
    effective_runs = 30, sorts a copy of the whole input (the sorted copy
    is a permutation of the input in ascending order) and reads Q1 at
    index 17 and Q3 at index 32 of that sorted copy.  On the samples 1..50
    that is the value 18, where position 17 of the window alone would hold
    28. *)
Theorem quartile_indices_50 (cycles : list Z) :
  let f := calculate_statistics_frame (SS := b64_cycles) cycles 50 in
  Z.of_nat (length cycles) = 50 ->
  ignore_runs f = 10 /\ effective_runs f = 30 /\
  q1_index (ignore_runs f) (effective_runs f) = 17 /\
  q3_index (ignore_runs f) (effective_runs f) = 32 /\
  sorted_times f = sort_copy (SS := b64_cycles) cycles 50 /\
  Permutation (sorted_times f) cycles /\
  StronglySorted Z.le (sorted_times f) /\
  length (sorted_times f) = 50%nat /\
  q1 f = B64.of_Z (get 0 (sorted_times f) 17) /\
  q3 f = B64.of_Z (get 0 (sorted_times f) 32) /\
  let g := calculate_statistics_frame (SS := b64_cycles) (ints 1 50) 50 in
  length (sorted_times g) = 50%nat /\
  get 0 (sorted_times g) 17 = 18 /\
  get 0 (window (SS := b64_cycles) (sorted_times g) 50 (ignore_runs g)) 17 = 28.
Proof.
  intros f Hl.
  assert (G : let g := calculate_statistics_frame (SS := b64_cycles) (ints 1 50) 50 in
              length (sorted_times g) = 50%nat /\
              get 0 (sorted_times g) 17 = 18 /\
              get 0 (window (SS := b64_cycles) (sorted_times g) 50 (ignore_runs g)) 17 = 28)
    by (vm_compute; repeat split; reflexivity).
  assert (E : sorted_times f = sort_array Z.gtb 0 50 cycles).
  { unfold f. rewrite sorted_times_eq. exact (sort_copy_eq (SS := b64_cycles) cycles 50 Hl). }
  assert (P : Permutation (sorted_times f) cycles).
  { rewrite E. apply sort_array_perm. exact Hl. }
  assert (O : StronglySorted Z.le (sorted_times f)).
  { rewrite E. apply sort_array_Z_sorted. exact Hl. }
  assert (Len : length (sorted_times f) = 50%nat).
  { apply Nat2Z.inj. rewrite (Permutation_length P). exact Hl. }
  assert (I : ignore_runs f = 10).
  { unfold f. rewrite ignore_runs_eq. apply ignore_count_50. }
  assert (Ef : effective_runs f = 30).
  { unfold f. rewrite effective_runs_eq, ignore_count_50. reflexivity. }
  assert (Q1 : q1 f = B64.of_Z (get 0 (sorted_times f) 17)).
  { unfold f. rewrite q1_eq, sorted_times_eq, ignore_count_50. reflexivity. }
  assert (Q3 : q3 f = B64.of_Z (get 0 (sorted_times f) 32)).
  { unfold f. rewrite q3_eq, sorted_times_eq, ignore_count_50. reflexivity. }
  rewrite I, Ef.
  split; [reflexivity|]. split; [reflexivity|].
  split; [reflexivity|]. split; [reflexivity|].
  split; [unfold f; apply sorted_times_eq|].
  split; [exact P|]. split; [exact O|]. split; [exact Len|].
  split; [exact Q1|]. split; [exact Q3|]. exact G.
Qed.

(** Fifty samples arriving in descending order. *)
Lemma quartile_indices_50_witness :
  let f := calculate_statistics_frame (SS := b64_cycles) (rev (ints 1 50)) 50 in
  Permutation (sorted_times f) (rev (ints 1 50)) /\
  StronglySorted Z.le (sorted_times f) /\
  q1 f = B64.of_Z (get 0 (sorted_times f) 17) /\
  q3 f = B64.of_Z (get 0 (sorted_times f) 32).
Proof.
  intros f.
  pose proof (quartile_indices_50 (rev (ints 1 50)) eq_refl) as H.
  cbv zeta in H. fold f in H.
  destruct H as (_ & _ & _ & _ & _ & P & O & _ & Q1 & Q3 & _).
  split; [exact P|]. split; [exact O|]. split; [exact Q1 | exact Q3].
Defined.

(** ** Determinism *)

(** C7.  A call leaves in [*mean] and [*std_dev] the two values that the
    function computes from the array and the count alone: they do not
    depend on what the two output variables held, nor on what the stack
    held where [sorted_times] is placed (the copying loop overwrites every
    cell before any is read, and [*mean] is written before it is read).
    Two calls on the same samples therefore give identical results, the
    caller's array is not changed, and a second call on the memory that
    the first one left gives the same two values again. *)
Theorem calculate_statistics_deterministic {D S} {DD : Double D} {SS : Sample D S}
    (num_runs : Z) (m m' : memory D S) :
  1 <= num_runs ->
  Z.of_nat (length (m_times m)) = num_runs ->
  Z.of_nat (length (m_stack m)) = num_runs ->
  Z.of_nat (length (m_stack m')) = num_runs ->
  m_times m' = m_times m ->
  let r := calculate_statistics_in num_runs m in
  let r' := calculate_statistics_in num_runs m' in
  (m_mean r, m_std_dev r) = calculate_statistics (m_times m) num_runs /\
  m_mean r' = m_mean r /\ m_std_dev r' = m_std_dev r /\
  m_times r = m_times m /\
  m_mean (calculate_statistics_in num_runs r) = m_mean r /\
  m_std_dev (calculate_statistics_in num_runs r) = m_std_dev r.
Proof.
  intros Hn Ht Hs Hs' E r r'.
  pose proof (calculate_statistics_in_eq num_runs m Ht Hs) as Er.
  assert (Ht' : Z.of_nat (length (m_times m')) = num_runs) by (rewrite E; exact Ht).
  pose proof (calculate_statistics_in_eq num_runs m' Ht' Hs') as Er'.
  fold r in Er. fold r' in Er'.
  cbv zeta in Er, Er'. rewrite E in Er'.
  assert (Ls : Z.of_nat (length (m_stack r)) = num_runs).
  { rewrite Er. cbn [m_stack]. rewrite sorted_times_eq, sort_copy_eq by assumption.
    rewrite sort_array_length. exact Ht. }
  assert (Lt : Z.of_nat (length (m_times r)) = num_runs)
    by (rewrite Er; cbn [m_times]; exact Ht).
  rewrite (calculate_statistics_in_eq num_runs r Lt Ls). cbv zeta.
  rewrite Er' at 1 2. rewrite Er. cbn [m_times m_mean m_std_dev m_stack].
  repeat split.
Qed.

(** Two calls on the samples 3, 1, 2, 5, 4: one with zeros in the output
    variables and in the stack, one with other values there. *)
Lemma calculate_statistics_deterministic_witness :
  let m := {| m_times := [3; 1; 2; 5; 4]%float; m_mean := 0%float;
              m_std_dev := 0%float; m_stack := [0; 0; 0; 0; 0]%float |} in
  let m' := {| m_times := [3; 1; 2; 5; 4]%float; m_mean := 7%float;
               m_std_dev := infinity; m_stack := [9; 8; 7; 6; 5]%float |} in
  m_mean (calculate_statistics_in (SS := b64_times) 5 m') =
  m_mean (calculate_statistics_in (SS := b64_times) 5 m) /\
  m_std_dev (calculate_statistics_in (SS := b64_times) 5 m') =
  m_std_dev (calculate_statistics_in (SS := b64_times) 5 m).
Proof.
  intros m m'.
  pose proof (calculate_statistics_deterministic (SS := b64_times) 5 m m'
                ltac:(lia) eq_refl eq_refl eq_refl eq_refl) as H.
  cbv zeta in H. destruct H as (_ & A & B & _). split; assumption.
Defined.

(** ** The quartile indices are inside the array *)

(** C9.  In the compiled program, for every count [num_runs] from 1 to
    INT_MAX: the ignore count is a fifth of the count, rounded down, and at
    least one run is left (effective_runs >= 1; the windows of fewer than
    four runs are those of the counts 1, 2, 3 and 5).  Whenever the product
    [3 * effective_runs] of the Q3 index is an [int], which it is for every
    count up to 1193046468, every intermediate value of the index
    arithmetic is an [int] and the two indices are inside the sorted array
    of [num_runs] elements, and indeed inside its window. *)
Theorem quartile_indices_in_bounds (num_runs : Z) :
  let ignore_runs := ignore_count (DD := binary64) num_runs in
  let effective_runs := num_runs - 2 * ignore_runs in
  1 <= num_runs <= INT_MAX ->
  ignore_runs = num_runs / 5 /\
  1 <= effective_runs /\
  (effective_runs < 4 <-> num_runs = 1 \/ num_runs = 2 \/ num_runs = 3 \/ num_runs = 5) /\
  (num_runs <= 1193046468 -> 3 * effective_runs <= INT_MAX) /\
  (3 * effective_runs <= INT_MAX ->
   0 <= 2 * ignore_runs <= INT_MAX /\
   0 <= Z.quot effective_runs 4 <= Z.quot (3 * effective_runs) 4 /\
   Z.quot (3 * effective_runs) 4 <= INT_MAX /\
   0 <= q1_index ignore_runs effective_runs < num_runs /\
   0 <= q3_index ignore_runs effective_runs < num_runs /\
   ignore_runs <= q1_index ignore_runs effective_runs /\
   q1_index ignore_runs effective_runs <= q3_index ignore_runs effective_runs /\
   q3_index ignore_runs effective_runs < num_runs - ignore_runs).
Proof.
  intros ig eff Hn.
  assert (Eig : ig = num_runs / 5) by (apply ignore_count_fifth; lia).
  assert (Hd := Z.div_mod num_runs 5 ltac:(lia)).
  assert (Hr := Z.mod_pos_bound num_runs 5 ltac:(lia)).
  assert (Hig : 0 <= ig) by (rewrite Eig; apply Z.div_pos; lia).
  assert (Heff : 1 <= eff) by (unfold eff; lia).
  unfold INT_MAX in *.
  split; [exact Eig|]. split; [exact Heff|].
  split; [unfold eff; lia|]. split; [unfold eff; lia|].
  intros Hmax.
  destruct (quartile_indices_window num_runs ig Hig Heff) as (A & B & C & E & F).
  fold eff in A, B, C, E, F. unfold q1_index, q3_index in *.
  assert (Q1 : 0 <= Z.quot eff 4) by (apply Z.quot_pos; lia).
  assert (Q3 : Z.quot (3 * eff) 4 <= 3 * eff).
  { rewrite Z.quot_div_nonneg by lia. apply Z.div_le_upper_bound; lia. }
  assert (E2 : 2 * ig = num_runs - eff) by (unfold eff; lia).
  repeat split; lia.
Qed.

(** The four counts whose window has fewer than four runs, the count of
    the programs, and the greatest count for which [3 * effective_runs] is
    an [int]. *)
Lemma quartile_indices_in_bounds_witness :
  Forall (fun n =>
            let ig := ignore_count (DD := binary64) n in
            1 <= n - 2 * ig /\
            0 <= q1_index ig (n - 2 * ig) < n /\ 0 <= q3_index ig (n - 2 * ig) < n)
    [1; 2; 3; 5; 50; 1193046470].
Proof.
  assert (W : forall n,
             1 <= n <= INT_MAX ->
             3 * (n - 2 * ignore_count (DD := binary64) n) <= INT_MAX ->
             let ig := ignore_count (DD := binary64) n in
             1 <= n - 2 * ig /\
             0 <= q1_index ig (n - 2 * ig) < n /\ 0 <= q3_index ig (n - 2 * ig) < n).
  { intros n H0 H2.
    destruct (quartile_indices_in_bounds n H0) as (_ & H1 & _ & _ & H).
    destruct (H H2) as (_ & _ & _ & A & B & _).
    cbv zeta. auto. }
  constructor; [apply (W 1); [unfold INT_MAX; lia | vm_compute; discriminate]|].
  constructor; [apply (W 2); [unfold INT_MAX; lia | vm_compute; discriminate]|].
  constructor; [apply (W 3); [unfold INT_MAX; lia | vm_compute; discriminate]|].
  constructor; [apply (W 5); [unfold INT_MAX; lia | vm_compute; discriminate]|].
  constructor; [apply (W 50); [unfold INT_MAX; lia | vm_compute; discriminate]|].
  constructor; [apply (W 1193046470); [unfold INT_MAX; lia | vm_compute; discriminate]|].
  constructor.
Defined.

(** The bound of C9 is the range of [int]: for 1193046469 runs the product
    [3 * effective_runs] of the Q3 index is no [int] any more. *)
Lemma quartile_index_overflow :
  let n := 1193046469 in
  let effective_runs := n - 2 * ignore_count (DD := binary64) n in
  n <= INT_MAX /\ 1 <= effective_runs /\ INT_MAX < 3 * effective_runs.
Proof. vm_compute. repeat split; discriminate. Qed.

(** ** The sample at the Q1 index is valid *)

(** C10, amended.  In the compiled program, for an array of [num_runs]
    samples whose window is not empty (with [num_runs] and
    [3 * effective_runs] in the range of [int]): when the samples of the
    double version are finite (neither infinities nor NaNs), and for every
    array of the unsigned long long version, the sorted sample at the Q1
    index lies in the window and passes the band test, so at least one run
    is valid and the divisor of the two divisions, [valid_runs] converted
    to double, is greater than zero. *)
Theorem q1_sample_is_valid (times : list float) (cycles : list Z) (num_runs : Z) :
  let ig := ignore_count (DD := binary64) num_runs in
  let i1 := q1_index ig (num_runs - 2 * ig) in
  let ft := calculate_statistics_frame (SS := b64_times) times num_runs in
  let fc := calculate_statistics_frame (SS := b64_cycles) cycles num_runs in
  Z.of_nat (length times) = num_runs ->
  Z.of_nat (length cycles) = num_runs ->
  Forall (fun x => b64_finite x = true) times ->
  Forall (fun c => 0 <= c < 2 ^ 64) cycles ->
  num_runs <= INT_MAX ->
  1 <= num_runs - 2 * ig ->
  3 * (num_runs - 2 * ig) <= INT_MAX ->
  ig <= i1 < num_runs - ig /\
  in_band (q1 ft) (q3 ft) (iqr ft) (get 0%float (sorted_times ft) i1) = true /\
  1 <= valid_runs ft /\ PrimFloat.ltb 0 (d_of_Z (valid_runs ft)) = true /\
  in_band (q1 fc) (q3 fc) (iqr fc) (get 0 (sorted_times fc) i1) = true /\
  1 <= valid_runs fc /\ PrimFloat.ltb 0 (d_of_Z (valid_runs fc)) = true.
Proof.
  intros ig i1 ft fc Ht Hc Ft Fc _ He _.
  assert (Hig : 0 <= ig) by (apply ignore_count_nonneg; lia).
  destruct (quartile_indices_window num_runs ig Hig He) as (_ & _ & A & B & C).
  fold i1 in A, B.
  destruct (finite_times_interquartile_valid times num_runs Ht Ft He) as (Bt & Vt & Pt).
  destruct (cycles_interquartile_valid cycles num_runs Hc Fc He) as (Bc & Vc & Pc).
  change (q1_index (ignore_runs (calculate_statistics_frame (SS := b64_times) times num_runs))
            (effective_runs (calculate_statistics_frame (SS := b64_times) times num_runs)))
    with i1 in Bt, Vt.
  change (q1_index (ignore_runs (calculate_statistics_frame (SS := b64_cycles) cycles num_runs))
            (effective_runs (calculate_statistics_frame (SS := b64_cycles) cycles num_runs)))
    with i1 in Bc, Vc.
  change (q3_index (ignore_runs (calculate_statistics_frame (SS := b64_times) times num_runs))
            (effective_runs (calculate_statistics_frame (SS := b64_times) times num_runs)))
    with (q3_index ig (num_runs - 2 * ig)) in Bt, Vt.
  change (q3_index (ignore_runs (calculate_statistics_frame (SS := b64_cycles) cycles num_runs))
            (effective_runs (calculate_statistics_frame (SS := b64_cycles) cycles num_runs)))
    with (q3_index ig (num_runs - 2 * ig)) in Bc, Vc.
  fold ft in Bt, Vt, Pt. fold fc in Bc, Vc, Pc.
  split; [lia|].
  split; [apply Bt; lia|]. split; [lia|]. split; [exact Pt|].
  split; [apply Bc; lia|]. split; [lia|]. exact Pc.
Qed.

(** Five finite times and five cycle counts, out of order. *)
Lemma q1_sample_is_valid_witness :
  1 <= valid_runs (calculate_statistics_frame (SS := b64_times) five_times 5) /\
  1 <= valid_runs (calculate_statistics_frame (SS := b64_cycles) five_cycles 5).
Proof.
  pose proof (q1_sample_is_valid five_times five_cycles 5 eq_refl eq_refl
                five_times_finite five_cycles_range ltac:(unfold INT_MAX; lia)
                ltac:(vm_compute; discriminate) ltac:(vm_compute; discriminate)) as H.
  cbv zeta in H. destruct H as (_ & _ & Vt & _ & _ & Vc & _).
  split; assumption.
Defined.

(** ** The mean and the valid set *)

(** C6, amended.  In the compiled program, for samples that are finite
    numbers and at least one valid run: the mean is not a NaN; it lies
    between any two doubles [L <= min(validSet)] and [H >= max(validSet)]
    whose multiples up to [valid_runs] are doubles themselves (bounds with
    few enough significant bits, e.g. the least and the greatest valid
    value rounded outwards to 53 - log2(valid_runs) bits); and it lies in
    [min(validSet), max(validSet)] itself when the multiples of these two
    are doubles.  For both versions of the function. *)
Theorem mean_within_valid_set_binary64 {S} {SS : Sample float S}
    (times : list S) (num_runs : Z) :
  let f := calculate_statistics_frame times num_runs in
  let vs := valid_set f num_runs in
  Z.of_nat (length times) = num_runs ->
  Forall (fun x => b64_finite (s_double x) = true) times ->
  1 <= valid_runs f <= INT_MAX ->
  b64_nan (mean f) = false /\
  (forall L H : float,
     multiples_exact (valid_runs f) L -> multiples_exact (valid_runs f) H ->
     PrimFloat.leb L (list_min vs) = true -> PrimFloat.leb (list_max vs) H = true ->
     PrimFloat.leb L (mean f) = true /\ PrimFloat.leb (mean f) H = true) /\
  (multiples_exact (valid_runs f) (list_min vs) ->
   multiples_exact (valid_runs f) (list_max vs) ->
   mean_within_valid_set times num_runs = true).
Proof.
  intros f vs Hl Hf Hv.
  assert (Fv : Forall (fun x => b64_finite x = true) vs)
    by (exact (valid_set_of_finite times num_runs Hl Hf)).
  assert (Ev : valid_runs f = Z.of_nat (length vs)) by (unfold f, vs; apply valid_runs_eq).
  assert (Em : mean f = population_mean vs) by (unfold f, vs; apply mean_population).
  rewrite Ev in *. unfold INT_MAX in Hv.
  assert (Hne : vs <> []) by (intros E; rewrite E in Hv; cbn in Hv; lia).
  destruct (list_min_max_spec vs Hne Fv) as (Fmin & Fmax & B).
  assert (Hk : 1 <= Z.of_nat (length vs) < 2 ^ 53)
    by (change (2 ^ 53) with 9007199254740992; lia).
  assert (Between : forall L H : float,
            multiples_exact (Z.of_nat (length vs)) L ->
            multiples_exact (Z.of_nat (length vs)) H ->
            PrimFloat.leb L (list_min vs) = true -> PrimFloat.leb (list_max vs) H = true ->
            PrimFloat.leb L (mean f) = true /\ PrimFloat.leb (mean f) H = true).
  { intros L H ML MH HL HH. rewrite Em.
    exact (population_mean_within vs L H Fv Hk ML MH HL HH). }
  split; [|split].
  - rewrite Em. apply population_mean_not_nan; [exact Fv|].
    change (2 ^ 64) with 18446744073709551616. lia.
  - exact Between.
  - intros ML MH. unfold mean_within_valid_set. cbv zeta. fold f vs.
    cbn [d_le binary64].
    destruct (Between (list_min vs) (list_max vs) ML MH) as [A1 A2].
    + rewrite leb_key by assumption. apply Z.leb_refl.
    + rewrite leb_key by assumption. apply Z.leb_refl.
    + rewrite A1, A2. reflexivity.
Qed.

(** The five samples of 0.1 of the counterexample: the mean lies within
    two units in the last place of 0.1. *)
Lemma mean_within_valid_set_binary64_witness :
  let times := repeat 0x1.999999999999ap-4%float 5 in
  let f := calculate_statistics_frame (SS := b64_times) times 5 in
  PrimFloat.leb 0x1.9999999999998p-4 (mean f) = true /\
  PrimFloat.leb (mean f) 0x1.999999999999cp-4 = true.
Proof.
  intros times f.
  assert (M : forall h : float,
            b64_finite (h + h) = true -> b64_key (h + h) = 2 * b64_key h ->
            b64_finite (h + h + h) = true -> b64_key (h + h + h) = 3 * b64_key h ->
            b64_finite h = true ->
            multiples_exact 3 h).
  { intros h F2 K2 F3 K3 F1 j Hj.
    assert (C : j = 0 \/ j = 1 \/ j = 2 \/ j = 3) by lia.
    destruct C as [-> | [-> | [-> | ->]]].
    - exists 0%float. split; reflexivity.
    - exists h. split; [exact F1 | lia].
    - exists (h + h)%float. split; assumption.
    - exists (h + h + h)%float. split; assumption. }
  pose proof (mean_within_valid_set_binary64 (SS := b64_times) times 5 eq_refl
                ltac:(repeat constructor) ltac:(vm_compute; split; discriminate)) as H.
  cbv zeta in H. destruct H as (_ & H & _).
  apply (H 0x1.9999999999998p-4%float 0x1.999999999999cp-4%float).
  - apply M; vm_compute; reflexivity.
  - apply M; vm_compute; reflexivity.
  - vm_compute. reflexivity.
  - vm_compute. reflexivity.
Defined.

(** C6 as stated fails on the compiled program: for five samples of 0.1
    (the double nearest to it) three are valid, their sum is rounded to
    0.30000000000000004 and the mean to 0.10000000000000002, above the
    greatest valid value. *)
Lemma mean_above_valid_set_binary64 :
  let times := repeat 0x1.999999999999ap-4%float 5 in
  let f := calculate_statistics_frame (SS := b64_times) times 5 in
  valid_runs f = 3 /\
  valid_set f 5 = repeat 0x1.999999999999ap-4%float 3 /\
  PrimFloat.ltb (list_max (valid_set f 5)) (mean f) = true /\
  mean_within_valid_set (SS := b64_times) times 5 = false.
Proof. vm_compute. repeat split; reflexivity. Qed.


(** The rounding of the sum can also overflow: for five samples of the
    greatest finite double the three valid values sum to +infinity, and so
    does the mean. *)
Lemma mean_overflow_binary64 :
  let times := repeat 0x1.fffffffffffffp+1023%float 5 in
  let f := calculate_statistics_frame (SS := b64_times) times 5 in
  valid_runs f = 3 /\ mean f = infinity /\
  mean_within_valid_set (SS := b64_times) times 5 = false.
Proof. vm_compute. repeat split; reflexivity. Qed.

(** C10 as stated fails on the compiled program for samples that are not
    finite: with five samples of +infinity the window is not empty
    (effective_runs = 3), but Q1 = Q3 = +infinity makes the IQR a NaN, the
    sample at the Q1 index fails the band test, and no run is valid. *)
Lemma infinite_q1_sample_not_valid :
  let times := repeat infinity 5 in
  let f := calculate_statistics_frame (SS := b64_times) times 5 in
  1 <= effective_runs f /\
  in_band (q1 f) (q3 f) (iqr f)
    (get 0%float (sorted_times f) (q1_index (ignore_runs f) (effective_runs f))) = false /\
  valid_runs f = 0.
Proof.
  intros times f. split; [vm_compute; discriminate|].
  split; vm_compute; reflexivity.
Qed.

(** ** The theorems at sample inputs *)

Lemma finite_times_statistics_not_nan_witness :
  let f := calculate_statistics_frame (SS := b64_times) five_times 5 in
  b64_nan (mean f) = false /\ b64_nan (std_dev f) = false.
Proof.
  intros f.
  exact (finite_times_statistics_not_nan five_times 5 eq_refl
           ltac:(vm_compute; discriminate) five_times_finite
           ltac:(vm_compute; discriminate)).
Defined.

Lemma cycles_statistics_not_nan_witness :
  let f := calculate_statistics_frame (SS := b64_cycles) five_cycles 5 in
  b64_nan (mean f) = false /\ b64_nan (std_dev f) = false.
Proof.
  intros f.
  exact (cycles_statistics_not_nan five_cycles 5 eq_refl
           ltac:(vm_compute; discriminate) five_cycles_range
           ltac:(vm_compute; discriminate)).
Defined.

Lemma cycles_sorted_copy_witness :
  let sorted := sorted_times (calculate_statistics_frame (SS := b64_cycles) five_cycles 5) in
  Permutation sorted five_cycles /\ StronglySorted Z.le sorted.
Proof.
  exact (cycles_sorted_copy (DD := binary64) five_cycles 5 eq_refl).
Defined.

Lemma finite_times_sorted_copy_witness :
  let sorted := sorted_times (calculate_statistics_frame (SS := b64_times) five_times 5) in
  Permutation sorted five_times /\
  forall p q, 0 <= p <= q -> q < 5 ->
    PrimFloat.leb (get 0%float sorted p) (get 0%float sorted q) = true.
Proof.
  exact (finite_times_sorted_copy five_times 5 eq_refl five_times_finite).
Defined.

Lemma cycles_order_independent_witness :
  calculate_statistics_frame (SS := b64_cycles) (rev five_cycles) 5 =
  calculate_statistics_frame (SS := b64_cycles) five_cycles 5.
Proof.
  exact (cycles_order_independent (DD := binary64) five_cycles (rev five_cycles) 5 eq_refl
           (Permutation_rev five_cycles)).
Defined.

Lemma plot_cycles_range_witness :
  let c := plot_cycles (DD := binary64) 5 five_cycles "prime256v1" "keygen" in
  Forall (fun y => PrimFloat.leb (plenv_ymin c) y = true /\
                   PrimFloat.leb y (plenv_ymax c) = true)
    (plline_y c).
Proof.
  exact (plot_cycles_range 5 five_cycles "prime256v1" "keygen" five_cycles_range).
Defined.

Lemma chart_points_are_runs_witness :
  Forall (fun c : chart float =>
            Z.of_nat (length (plline_x c)) = plline_n c /\
            Z.of_nat (length (plline_y c)) = plline_n c /\
            (forall k, 0 <= k < plline_n c ->
               get d_zero (plline_x c) k = d_of_Z (ignore_count 5 + k + 1)) /\
            get d_zero (plline_x c) 0 = plenv_xmin c /\
            get d_zero (plline_x c) (plline_n c - 1) = plenv_xmax c)
    [plot_cycles 5 five_cycles "prime256v1" "keygen";
     plot_times 5 five_times "RSA-2048";
     plot_times_op 5 five_times "RSA-2048" "keygen"].
Proof.
  exact (chart_points_are_runs (DD := binary64) 5 five_cycles five_times
           "prime256v1" "keygen" "RSA-2048" ltac:(vm_compute; discriminate)).
Defined.

Lemma sign_failure_is_fatal_witness :
  exists tr0,
    main_sweep (DD := binary64) 5 1000000 pq_algorithms sign_failing_provider []
    = (Exited EXIT_FAILURE, tr0 ++ [Sign 1 2; Stderr sign_failure_message])
    /\ Forall (before 1 2) tr0.
Proof.
  refine (sign_failure_is_fatal (DD := binary64) 5 1000000 pq_algorithms
            sign_failing_provider 1 2 _ _ _ _ _).
  - vm_compute. split; [discriminate | reflexivity].
  - lia.
  - intros i k Hi Hk. split; cbn; [|reflexivity].
    destruct (Z.eqb_spec i 1); [lia | cbn; discriminate].
  - intros k Hk. split; cbn; [|reflexivity].
    destruct (Z.eqb_spec k 2); [lia | discriminate].
  - reflexivity.
Defined.

Lemma successful_sweep_trace_witness :
  main_sweep (DD := binary64) 5 1000000 pq_algorithms good_provider [] =
  (Returned tt, sweep_trace 5 1000000 pq_algorithms good_provider).
Proof.
  refine (successful_sweep_trace (DD := binary64) 5 1000000 pq_algorithms good_provider _).
  intros i k _ _. split; cbn; [discriminate | reflexivity].
Defined.

Lemma exit_follows_failed_call_witness :
  let tr := snd (main_sweep (DD := binary64) 5 1000000 pq_algorithms
                   sign_failing_provider []) in
  EXIT_FAILURE = EXIT_FAILURE /\
  exists tr0 i j,
    0 <= i < Z.of_nat (length pq_algorithms) /\ 0 <= j < 5 /\
    ((EVP_SignFinal sign_failing_provider i j = 0 /\
      tr = tr0 ++ [Sign i j; Stderr sign_failure_message]) \/
     (EVP_SignFinal sign_failing_provider i j <> 0 /\
      EVP_VerifyFinal sign_failing_provider i j <> 1 /\
      tr = tr0 ++ [Sign i j; Verify i j; Stderr (verify_failure_message pq_algorithms i)])).
Proof.
  intros tr.
  refine (exit_follows_failed_call (DD := binary64) 5 1000000 pq_algorithms
            sign_failing_provider EXIT_FAILURE tr _).
  unfold tr. vm_compute. reflexivity.
Defined.

Lemma ignore_runs_is_fifth_witness :
  let f := calculate_statistics_frame (SS := b64_cycles) five_cycles 350 in
  ignore_runs f = 70 /\ effective_runs f = 210.
Proof.
  intros f.
  pose proof (ignore_runs_is_fifth (SS := b64_cycles) five_cycles 350
                ltac:(unfold INT_MAX; lia)) as H.
  cbv zeta in H. fold f in H. destruct H as (H1 & H2 & _).
  change (350 / 5) with 70 in H1, H2. change (350 - 2 * 70) with 210 in H2.
  split; assumption.
Defined.

Lemma cycles_mean_within_valid_set_witness :
  mean_within_valid_set (SS := b64_cycles) five_cycles 5 = true.
Proof.
  pose proof (cycles_mean_within_valid_set five_cycles 5 eq_refl
                ltac:(unfold INT_MAX; lia)) as H.
  cbv zeta in H. apply H.
  - apply Forall_forall. intros c Hc. unfold five_cycles in Hc. cbn [In] in Hc.
    change (2 ^ 53) with 9007199254740992. lia.
  - vm_compute. discriminate.
Defined.

(** The clock passes a full second between the two readings. *)
Lemma elapsed_time_ns_is_difference_witness :
  elapsed_time_ns {| tv_sec := 10; tv_nsec := 999999000 |}
                  {| tv_sec := 11; tv_nsec := 500 |} = 1500.
Proof.
  pose proof (elapsed_time_ns_is_difference {| tv_sec := 10; tv_nsec := 999999000 |}
                {| tv_sec := 11; tv_nsec := 500 |}) as H.
  cbv zeta in H. cbn [tv_sec tv_nsec] in H.
  change ((11 - 10) * 1000000000 + (500 - 999999000)) with 1500 in H.
  apply H. change (2 ^ 64) with 18446744073709551616. lia.
Defined.

(** One millisecond is 2400000 cycles. *)
Lemma cycles_are_scaled_time_witness :
  cycles_of_ns (DD := binary64) 1000000 = 2400000.
Proof.
  pose proof (cycles_are_scaled_time 1000000 ltac:(lia)
                ltac:(change (2 ^ 53) with 9007199254740992; lia)) as H.
  change (1000000 * 12 / 5) with 2400000 in H. exact H.
Defined.
